(** * The Kythe C++ graph observer (kythe/cxx/indexer/cxx/KytheGraphObserver.cc)

    A shallow embedding of [KytheGraphObserver]: the observer is a record of
    its members, the recorder sink is the list of facts passed to it, and a
    member function that mutates the observer is a function from observers to
    outcomes ([CHECK] and [LOG(FATAL)] abort the run).  Collaborators that
    live outside the observer's own file (the string compressor, the claim
    token's stamp, the hash of a buffer slice, ...) are the operations of the
    class [Externals]. *)

From Stdlib Require Import DecimalString.
From stdpp Require Import base decidable option list strings gmap fin_maps.

Local Open Scope N_scope.

(** ** Strings and machine integers *)

(** [Ostream << n] and [std::to_string(n)] for an unsigned integer. *)
Definition to_string (n : N) : string :=
  NilZero.string_of_uint (N.to_uint n).

(** [llvm::StringRef::startswith]. *)
Definition startswith (s p : string) : bool := String.prefix p s.

(** [llvm::StringRef::endswith]. *)
Definition endswith (s p : string) : bool :=
  let ls := String.length s in
  let lp := String.length p in
  (lp <=? ls)%nat && bool_decide (String.substring (ls - lp) lp s = p).

(** [std::string::empty]. *)
Definition empty (s : string) : bool := bool_decide (s = "").

(** The width of [size_t] and of [unsigned]. *)
Definition size_t_bits : N := 64.
Definition unsigned_bits : N := 32.
Definition wrap (bits n : N) : N := n mod 2 ^ bits.

(** Unsigned subtraction at a given width. *)
Definition sub_wrap (bits a b : N) : N :=
  Z.to_N ((Z.of_N a - Z.of_N b) mod 2 ^ Z.of_N bits).

(** ** Source locations (clang::SourceLocation, clang::SourceManager)

    A location is invalid (raw encoding 0), a position in a file-like buffer,
    or a position in a macro expansion; the latter carries the location it was
    expanded at and the location it was spelled at.  [FileID] 0 is the invalid
    file id. *)

Definition FileID := N.

Definition FileID_isInvalid (f : FileID) : bool := bool_decide (f = 0).

Inductive SourceLocation : Type :=
  | LocInvalid
  | LocFile (fid : FileID) (offset : N)
  | LocMacro (fid : FileID) (offset : N) (expansion spelling : SourceLocation).

#[global] Instance SourceLocation_eq_dec : EqDecision SourceLocation.
Proof. solve_decision. Defined.

Definition isValid (l : SourceLocation) : bool :=
  match l with LocInvalid => false | _ => true end.

Definition isMacroID (l : SourceLocation) : bool :=
  match l with LocMacro _ _ _ _ => true | _ => false end.

(** As in clang, a location is a file location when its macro bit is clear,
    so the invalid location is one. *)
Definition isFileID (l : SourceLocation) : bool := negb (isMacroID l).

Fixpoint getExpansionLoc (l : SourceLocation) : SourceLocation :=
  match l with
  | LocMacro _ _ e _ => getExpansionLoc e
  | _ => l
  end.

Fixpoint getSpellingLoc (l : SourceLocation) : SourceLocation :=
  match l with
  | LocMacro _ _ _ s => getSpellingLoc s
  | _ => l
  end.

Definition getFileID (l : SourceLocation) : FileID :=
  match l with
  | LocInvalid => 0
  | LocFile f _ => f
  | LocMacro f _ _ _ => f
  end.

(** [SourceManager::getFileOffset] returns an [unsigned]. *)
Definition getFileOffset (l : SourceLocation) : N :=
  match l with
  | LocInvalid => 0
  | LocFile _ o => wrap unsigned_bits o
  | LocMacro _ o _ _ => wrap unsigned_bits o
  end.

Record SourceRange := mkSourceRange
  { getBegin : SourceLocation; getEnd : SourceLocation }.

#[global] Instance SourceRange_eq_dec : EqDecision SourceRange.
Proof. solve_decision. Defined.

(** [llvm::sys::fs::UniqueID]: device and inode. *)
Definition UniqueID := (N * N)%type.

Record FileEntry := mkFileEntry
  { getName : string; getUniqueID : UniqueID }.

#[global] Instance FileEntry_eq_dec : EqDecision FileEntry.
Proof. solve_decision. Defined.

(** What the observer asks of the source manager beyond the structure of a
    location: the file entry behind a file id, the characters a location
    points at ([None] when [getCharacterData] reports an invalid buffer), the
    location of the end of the token at a location
    ([Lexer::getLocForEndOfToken]), and the buffer of a file. *)
Record SourceManagerT := mkSourceManager
  { getFileEntryForID : FileID -> option FileEntry;
    getCharacterData : SourceLocation -> option string;
    getLocForEndOfToken : SourceLocation -> SourceLocation;
    getMemoryBufferForFile : FileEntry -> option string }.

(** ** Names, claim tokens, node ids and ranges *)

(** [kythe::proto::VName] and [VNameRef]: five string fields. *)
Record VName := mkVName
  { signature : string; corpus : string; root : string; path : string;
    language : string }.

#[global] Instance VName_eq_dec : EqDecision VName.
Proof. solve_decision. Defined.

Definition empty_vname : VName := mkVName "" "" "" "" "".

Definition set_signature (s : string) (v : VName) : VName :=
  mkVName s (corpus v) (root v) (path v) (language v).
Definition set_corpus (s : string) (v : VName) : VName :=
  mkVName (signature v) s (root v) (path v) (language v).
Definition set_path (s : string) (v : VName) : VName :=
  mkVName (signature v) (corpus v) (root v) s (language v).
Definition set_language (s : string) (v : VName) : VName :=
  mkVName (signature v) (corpus v) (root v) (path v) s.

(** [KytheClaimToken]: the members its setters in [pushFile] and
    [getNamespaceClaimToken] write. *)
Record KytheClaimToken := mkClaimToken
  { vname_ : VName; rough_claimed_ : bool; language_independent_ : bool }.

#[global] Instance KytheClaimToken_eq_dec : EqDecision KytheClaimToken.
Proof. solve_decision. Defined.

(** A freshly constructed token, as [KytheClaimToken token;] in [pushFile]
    leaves it before the setters run. *)
Definition fresh_token : KytheClaimToken := mkClaimToken empty_vname true false.

Definition set_vname (v : VName) (t : KytheClaimToken) : KytheClaimToken :=
  mkClaimToken v (rough_claimed_ t) (language_independent_ t).
Definition set_rough_claimed (b : bool) (t : KytheClaimToken) : KytheClaimToken :=
  mkClaimToken (vname_ t) b (language_independent_ t).
Definition set_language_independent (b : bool) (t : KytheClaimToken)
  : KytheClaimToken :=
  mkClaimToken (vname_ t) (rough_claimed_ t) b.

(** [GraphObserver::NodeId]: a claim token and an identity string. *)
Record NodeId := mkNodeId
  { getToken : KytheClaimToken; IdentityRef : string }.

#[global] Instance NodeId_eq_dec : EqDecision NodeId.
Proof. solve_decision. Defined.

Inductive RangeKind := Physical | Wraith | Implicit.

#[global] Instance RangeKind_eq_dec : EqDecision RangeKind.
Proof. solve_decision. Defined.

(** [GraphObserver::Range]. *)
Record Range := mkRange
  { Kind : RangeKind; PhysicalRange : SourceRange; Context : NodeId }.

#[global] Instance Range_eq_dec : EqDecision Range.
Proof. solve_decision. Defined.

Inductive NameEqClass := EqNone | EqUnion | EqClass | EqMacro.

(** [GraphObserver::NameId]. *)
Record NameId := mkNameId { Path : string; NameEq : NameEqClass }.

Inductive Claimability := Claimable | Unclaimable.

#[global] Instance Claimability_eq_dec : EqDecision Claimability.
Proof. solve_decision. Defined.

(** ** Fact kinds *)

Inductive EdgeKindID :=
  | kRefExpands | kRefExpandsTransitive | kUndefines | kRefQueries
  | kRefIncludes | kChildOfContext | kChildOf | kRefCall | kParam | kHasType
  | kBoundedUpper | kSpecializes | kSpecializesSpeculative | kInstantiates
  | kInstantiatesSpeculative | kOverrides | kOverridesRoot | kAliases
  | kAliasesRoot | kDocuments | kDefinesFull | kDefinesBinding
  | kUniquelyCompletes | kCompletes | kRef | kRefDoc | kExtendsCategory
  | kGenerates | kExtends | kExtendsVirtual | kExtendsPublic
  | kExtendsPublicVirtual | kExtendsProtected | kExtendsProtectedVirtual
  | kExtendsPrivate | kExtendsPrivateVirtual.

#[global] Instance EdgeKindID_eq_dec : EqDecision EdgeKindID.
Proof. solve_decision. Defined.

Inductive NodeKindID :=
  | kMacro | kVariable | kPackage | kAnchor | kTAlias | kDoc | kTNominal
  | kTSigma | kTApp | kBuiltin | kMeta.

Inductive PropertyID :=
  | kNodeKind | kComplete | kSubkind | kText | kLocationStartOffset
  | kLocationEndOffset | kParamDefault.

Inductive MarkedSourceKind :=
  | BOX | TYPE | PARAMETER | IDENTIFIER | CONTEXT | INITIALIZER
  | PARAMETER_LOOKUP_BY_PARAM | LOOKUP_BY_PARAM
  | PARAMETER_LOOKUP_BY_PARAM_WITH_DEFAULTS.

(** [proto::MarkedSource]: a tree of text fragments. *)
#[warnings="-register-all"]
Inductive MarkedSource :=
  | mkMarkedSource (kind : MarkedSourceKind)
      (pre_text post_child_text post_text : string) (lookup_index : N)
      (child : list MarkedSource).

(** A default-constructed message with [set_kind(IDENTIFIER)] and
    [set_pre_text(text)]. *)
Definition identifier_source (text : string) : MarkedSource :=
  mkMarkedSource IDENTIFIER text "" "" 0 [].

(** ** The recorder sink

    One constructor per overload of [KytheGraphRecorder] the observer calls;
    the sink is the list of the calls made so far, oldest first. *)
Inductive Fact :=
  | AddNodeKind (v : VName) (k : NodeKindID)
  | AddPropertyStr (v : VName) (p : PropertyID) (value : string)
  | AddPropertyNum (v : VName) (p : PropertyID) (value : N)
  | AddEdge (from : VName) (k : EdgeKindID) (to : VName)
  | AddEdgeOrd (from : VName) (k : EdgeKindID) (to : VName) (ordinal : N)
  | AddFileContent (v : VName) (content : string)
  | AddMarkedSourceFact (v : VName) (ms : MarkedSource).

(** Lines written to [stderr] or to the log. *)
Inductive Diagnostic :=
  | MissingSourceOffset (uid ctx : string) (offset : N)
  | MissingSourceContext (uid ctx : string) (offset : N)
  | MissingSourcePath (uid ctx : string) (offset : N)
  | UnknownEdgeKind (spelling : string)
  | LogError (msg : string).

(** Why a run stopped: a failed [CHECK] or a [LOG(FATAL)]. *)
Inductive Failure :=
  | CheckFailed (condition : string)
  | LogFatal (msg : string).

(** ** Metadata overlay (MetadataFile, MetadataFile::Rule) *)

Record Rule := mkRule
  { rule_begin : N; rule_end : N; edge_in : string; edge_out : string;
    rule_vname : VName; reverse_edge : bool }.

(** [std::multimap<unsigned, Rule>] kept in key order. *)
Record MetadataFile := mkMetadataFile { rules : list (N * Rule) }.

(** [multimap::equal_range]: the entries under one key, in order. *)
Definition equal_range {K V} `{EqDecision K} (m : list (K * V)) (k : K)
  : list V :=
  snd <$> filter (fun kv => fst kv = k) m.

(** ** Collaborators *)

(** [IndexVFS]. *)
Record VFS := mkVFS
  { get_vname : FileEntry -> option VName;
    working_directory : string;
    get_debug_uid_string : UniqueID -> string }.

(** [KytheClaimClient::Claim(claimant, vname)]. *)
Record ClaimClient := mkClaimClient { Claim : VName -> VName -> bool }.

(** Functions and constants the observer uses but which are defined in other
    files of the indexer. *)
Class Externals := mkExternals
  { CompressString : string -> bool -> string;
    token_identity : KytheClaimToken -> string;
    DecorateVName : KytheClaimToken -> VName -> VName;
    NameId_ToString : NameId -> string;
    hash_value : string -> N;
    HashToString : N -> string;
    RelativizePath : string -> string -> string;
    of_spelling : string -> option EdgeKindID;
    kIndexerLang : string }.

(** ** The observer *)

(** [KytheGraphObserver::FileState]. *)
Record FileState := mkFileState
  { context : string; vname : VName; base_vname : VName; uid : UniqueID;
    claimed : bool }.

(** [FileState{}]: every member value-initialised. *)
Definition FileState_default : FileState :=
  mkFileState "" empty_vname empty_vname (0, 0) false.

(** [KytheGraphObserver::Builtin]. *)
Record Builtin := mkBuiltin
  { node_id : NodeId; marked_source : MarkedSource; emitted : bool }.

(** [KytheGraphObserver::RangeEdge]; its [Hash] member is computed from the
    other three and takes no part in equality. *)
Record RangeEdge := mkRangeEdge
  { re_PhysicalRange : SourceRange; re_EdgeKind : EdgeKindID;
    re_PrimaryAnchoredTo : NodeId }.

#[global] Instance RangeEdge_eq_dec : EqDecision RangeEdge.
Proof. solve_decision. Defined.

(** The members of [KytheGraphObserver] that this file reads or writes, the
    flag [FLAGS_fail_on_unimplemented_builtin], and the two output channels:
    the calls made on [recorder_] and the lines written to [stderr]/the log.
    [main_source_file_token_] points into [claim_checked_files_], so it is the
    key of the entry it points at. *)
Record KytheGraphObserver := mkObserver
  { SourceManager : SourceManagerT;
    vfs_ : VFS;
    client_ : ClaimClient;
    claimant_ : VName;
    FLAGS_fail_on_unimplemented_builtin : bool;
    deferring_nodes_ : bool;
    drop_redundant_wraiths_ : bool;
    default_token_ : KytheClaimToken;
    type_token_ : KytheClaimToken;
    starting_context_ : string;
    meta_ : list (FileID * MetadataFile);
    path_to_context_data_ : gmap UniqueID (gmap string (gmap N string));
    file_stack_ : list FileState;
    transitively_reached_through_header_ : gset UniqueID;
    recorded_files_ : list FileEntry;
    claim_checked_files_ : gmap FileID KytheClaimToken;
    claimed_file_specific_tokens_ : gmap FileID KytheClaimToken;
    main_source_file_loc_ : SourceLocation;
    main_source_file_token_ : option FileID;
    deferred_anchors_ : list Range;
    range_edges_ : list RangeEdge;
    written_namespaces_ : gset string;
    written_types_ : gset string;
    written_docs_ : gset string;
    builtins_ : gmap string Builtin;
    recorder_ : list Fact;
    stderr_ : list Diagnostic }.

(** Assignment to one member. *)
Definition set_file_stack_ (x : list FileState) (o : KytheGraphObserver)
  : KytheGraphObserver :=
  mkObserver
    (SourceManager o) (vfs_ o) (client_ o) (claimant_ o)
     (FLAGS_fail_on_unimplemented_builtin o) (deferring_nodes_ o)
     (drop_redundant_wraiths_ o) (default_token_ o) (type_token_ o)
     (starting_context_ o) (meta_ o) (path_to_context_data_ o) x
     (transitively_reached_through_header_ o) (recorded_files_ o)
     (claim_checked_files_ o) (claimed_file_specific_tokens_ o)
     (main_source_file_loc_ o) (main_source_file_token_ o)
     (deferred_anchors_ o) (range_edges_ o) (written_namespaces_ o)
     (written_types_ o) (written_docs_ o) (builtins_ o) (recorder_ o)
     (stderr_ o).
Definition set_transitively_reached_through_header_ (x : gset UniqueID) (o : KytheGraphObserver)
  : KytheGraphObserver :=
  mkObserver
    (SourceManager o) (vfs_ o) (client_ o) (claimant_ o)
     (FLAGS_fail_on_unimplemented_builtin o) (deferring_nodes_ o)
     (drop_redundant_wraiths_ o) (default_token_ o) (type_token_ o)
     (starting_context_ o) (meta_ o) (path_to_context_data_ o) (file_stack_ o)
     x (recorded_files_ o) (claim_checked_files_ o)
     (claimed_file_specific_tokens_ o) (main_source_file_loc_ o)
     (main_source_file_token_ o) (deferred_anchors_ o) (range_edges_ o)
     (written_namespaces_ o) (written_types_ o) (written_docs_ o)
     (builtins_ o) (recorder_ o) (stderr_ o).
Definition set_recorded_files_ (x : list FileEntry) (o : KytheGraphObserver)
  : KytheGraphObserver :=
  mkObserver
    (SourceManager o) (vfs_ o) (client_ o) (claimant_ o)
     (FLAGS_fail_on_unimplemented_builtin o) (deferring_nodes_ o)
     (drop_redundant_wraiths_ o) (default_token_ o) (type_token_ o)
     (starting_context_ o) (meta_ o) (path_to_context_data_ o) (file_stack_ o)
     (transitively_reached_through_header_ o) x (claim_checked_files_ o)
     (claimed_file_specific_tokens_ o) (main_source_file_loc_ o)
     (main_source_file_token_ o) (deferred_anchors_ o) (range_edges_ o)
     (written_namespaces_ o) (written_types_ o) (written_docs_ o)
     (builtins_ o) (recorder_ o) (stderr_ o).
Definition set_claim_checked_files_ (x : gmap FileID KytheClaimToken) (o : KytheGraphObserver)
  : KytheGraphObserver :=
  mkObserver
    (SourceManager o) (vfs_ o) (client_ o) (claimant_ o)
     (FLAGS_fail_on_unimplemented_builtin o) (deferring_nodes_ o)
     (drop_redundant_wraiths_ o) (default_token_ o) (type_token_ o)
     (starting_context_ o) (meta_ o) (path_to_context_data_ o) (file_stack_ o)
     (transitively_reached_through_header_ o) (recorded_files_ o) x
     (claimed_file_specific_tokens_ o) (main_source_file_loc_ o)
     (main_source_file_token_ o) (deferred_anchors_ o) (range_edges_ o)
     (written_namespaces_ o) (written_types_ o) (written_docs_ o)
     (builtins_ o) (recorder_ o) (stderr_ o).
Definition set_claimed_file_specific_tokens_ (x : gmap FileID KytheClaimToken) (o : KytheGraphObserver)
  : KytheGraphObserver :=
  mkObserver
    (SourceManager o) (vfs_ o) (client_ o) (claimant_ o)
     (FLAGS_fail_on_unimplemented_builtin o) (deferring_nodes_ o)
     (drop_redundant_wraiths_ o) (default_token_ o) (type_token_ o)
     (starting_context_ o) (meta_ o) (path_to_context_data_ o) (file_stack_ o)
     (transitively_reached_through_header_ o) (recorded_files_ o)
     (claim_checked_files_ o) x (main_source_file_loc_ o)
     (main_source_file_token_ o) (deferred_anchors_ o) (range_edges_ o)
     (written_namespaces_ o) (written_types_ o) (written_docs_ o)
     (builtins_ o) (recorder_ o) (stderr_ o).
Definition set_main_source_file_loc_ (x : SourceLocation) (o : KytheGraphObserver)
  : KytheGraphObserver :=
  mkObserver
    (SourceManager o) (vfs_ o) (client_ o) (claimant_ o)
     (FLAGS_fail_on_unimplemented_builtin o) (deferring_nodes_ o)
     (drop_redundant_wraiths_ o) (default_token_ o) (type_token_ o)
     (starting_context_ o) (meta_ o) (path_to_context_data_ o) (file_stack_ o)
     (transitively_reached_through_header_ o) (recorded_files_ o)
     (claim_checked_files_ o) (claimed_file_specific_tokens_ o) x
     (main_source_file_token_ o) (deferred_anchors_ o) (range_edges_ o)
     (written_namespaces_ o) (written_types_ o) (written_docs_ o)
     (builtins_ o) (recorder_ o) (stderr_ o).
Definition set_main_source_file_token_ (x : option FileID) (o : KytheGraphObserver)
  : KytheGraphObserver :=
  mkObserver
    (SourceManager o) (vfs_ o) (client_ o) (claimant_ o)
     (FLAGS_fail_on_unimplemented_builtin o) (deferring_nodes_ o)
     (drop_redundant_wraiths_ o) (default_token_ o) (type_token_ o)
     (starting_context_ o) (meta_ o) (path_to_context_data_ o) (file_stack_ o)
     (transitively_reached_through_header_ o) (recorded_files_ o)
     (claim_checked_files_ o) (claimed_file_specific_tokens_ o)
     (main_source_file_loc_ o) x (deferred_anchors_ o) (range_edges_ o)
     (written_namespaces_ o) (written_types_ o) (written_docs_ o)
     (builtins_ o) (recorder_ o) (stderr_ o).
Definition set_deferred_anchors_ (x : list Range) (o : KytheGraphObserver)
  : KytheGraphObserver :=
  mkObserver
    (SourceManager o) (vfs_ o) (client_ o) (claimant_ o)
     (FLAGS_fail_on_unimplemented_builtin o) (deferring_nodes_ o)
     (drop_redundant_wraiths_ o) (default_token_ o) (type_token_ o)
     (starting_context_ o) (meta_ o) (path_to_context_data_ o) (file_stack_ o)
     (transitively_reached_through_header_ o) (recorded_files_ o)
     (claim_checked_files_ o) (claimed_file_specific_tokens_ o)
     (main_source_file_loc_ o) (main_source_file_token_ o) x (range_edges_ o)
     (written_namespaces_ o) (written_types_ o) (written_docs_ o)
     (builtins_ o) (recorder_ o) (stderr_ o).
Definition set_range_edges_ (x : list RangeEdge) (o : KytheGraphObserver)
  : KytheGraphObserver :=
  mkObserver
    (SourceManager o) (vfs_ o) (client_ o) (claimant_ o)
     (FLAGS_fail_on_unimplemented_builtin o) (deferring_nodes_ o)
     (drop_redundant_wraiths_ o) (default_token_ o) (type_token_ o)
     (starting_context_ o) (meta_ o) (path_to_context_data_ o) (file_stack_ o)
     (transitively_reached_through_header_ o) (recorded_files_ o)
     (claim_checked_files_ o) (claimed_file_specific_tokens_ o)
     (main_source_file_loc_ o) (main_source_file_token_ o)
     (deferred_anchors_ o) x (written_namespaces_ o) (written_types_ o)
     (written_docs_ o) (builtins_ o) (recorder_ o) (stderr_ o).
Definition set_written_namespaces_ (x : gset string) (o : KytheGraphObserver)
  : KytheGraphObserver :=
  mkObserver
    (SourceManager o) (vfs_ o) (client_ o) (claimant_ o)
     (FLAGS_fail_on_unimplemented_builtin o) (deferring_nodes_ o)
     (drop_redundant_wraiths_ o) (default_token_ o) (type_token_ o)
     (starting_context_ o) (meta_ o) (path_to_context_data_ o) (file_stack_ o)
     (transitively_reached_through_header_ o) (recorded_files_ o)
     (claim_checked_files_ o) (claimed_file_specific_tokens_ o)
     (main_source_file_loc_ o) (main_source_file_token_ o)
     (deferred_anchors_ o) (range_edges_ o) x (written_types_ o)
     (written_docs_ o) (builtins_ o) (recorder_ o) (stderr_ o).
Definition set_written_types_ (x : gset string) (o : KytheGraphObserver)
  : KytheGraphObserver :=
  mkObserver
    (SourceManager o) (vfs_ o) (client_ o) (claimant_ o)
     (FLAGS_fail_on_unimplemented_builtin o) (deferring_nodes_ o)
     (drop_redundant_wraiths_ o) (default_token_ o) (type_token_ o)
     (starting_context_ o) (meta_ o) (path_to_context_data_ o) (file_stack_ o)
     (transitively_reached_through_header_ o) (recorded_files_ o)
     (claim_checked_files_ o) (claimed_file_specific_tokens_ o)
     (main_source_file_loc_ o) (main_source_file_token_ o)
     (deferred_anchors_ o) (range_edges_ o) (written_namespaces_ o) x
     (written_docs_ o) (builtins_ o) (recorder_ o) (stderr_ o).
Definition set_written_docs_ (x : gset string) (o : KytheGraphObserver)
  : KytheGraphObserver :=
  mkObserver
    (SourceManager o) (vfs_ o) (client_ o) (claimant_ o)
     (FLAGS_fail_on_unimplemented_builtin o) (deferring_nodes_ o)
     (drop_redundant_wraiths_ o) (default_token_ o) (type_token_ o)
     (starting_context_ o) (meta_ o) (path_to_context_data_ o) (file_stack_ o)
     (transitively_reached_through_header_ o) (recorded_files_ o)
     (claim_checked_files_ o) (claimed_file_specific_tokens_ o)
     (main_source_file_loc_ o) (main_source_file_token_ o)
     (deferred_anchors_ o) (range_edges_ o) (written_namespaces_ o)
     (written_types_ o) x (builtins_ o) (recorder_ o) (stderr_ o).
Definition set_builtins_ (x : gmap string Builtin) (o : KytheGraphObserver)
  : KytheGraphObserver :=
  mkObserver
    (SourceManager o) (vfs_ o) (client_ o) (claimant_ o)
     (FLAGS_fail_on_unimplemented_builtin o) (deferring_nodes_ o)
     (drop_redundant_wraiths_ o) (default_token_ o) (type_token_ o)
     (starting_context_ o) (meta_ o) (path_to_context_data_ o) (file_stack_ o)
     (transitively_reached_through_header_ o) (recorded_files_ o)
     (claim_checked_files_ o) (claimed_file_specific_tokens_ o)
     (main_source_file_loc_ o) (main_source_file_token_ o)
     (deferred_anchors_ o) (range_edges_ o) (written_namespaces_ o)
     (written_types_ o) (written_docs_ o) x (recorder_ o) (stderr_ o).
Definition set_recorder_ (x : list Fact) (o : KytheGraphObserver)
  : KytheGraphObserver :=
  mkObserver
    (SourceManager o) (vfs_ o) (client_ o) (claimant_ o)
     (FLAGS_fail_on_unimplemented_builtin o) (deferring_nodes_ o)
     (drop_redundant_wraiths_ o) (default_token_ o) (type_token_ o)
     (starting_context_ o) (meta_ o) (path_to_context_data_ o) (file_stack_ o)
     (transitively_reached_through_header_ o) (recorded_files_ o)
     (claim_checked_files_ o) (claimed_file_specific_tokens_ o)
     (main_source_file_loc_ o) (main_source_file_token_ o)
     (deferred_anchors_ o) (range_edges_ o) (written_namespaces_ o)
     (written_types_ o) (written_docs_ o) (builtins_ o) x (stderr_ o).
Definition set_stderr_ (x : list Diagnostic) (o : KytheGraphObserver)
  : KytheGraphObserver :=
  mkObserver
    (SourceManager o) (vfs_ o) (client_ o) (claimant_ o)
     (FLAGS_fail_on_unimplemented_builtin o) (deferring_nodes_ o)
     (drop_redundant_wraiths_ o) (default_token_ o) (type_token_ o)
     (starting_context_ o) (meta_ o) (path_to_context_data_ o) (file_stack_ o)
     (transitively_reached_through_header_ o) (recorded_files_ o)
     (claim_checked_files_ o) (claimed_file_specific_tokens_ o)
     (main_source_file_loc_ o) (main_source_file_token_ o)
     (deferred_anchors_ o) (range_edges_ o) (written_namespaces_ o)
     (written_types_ o) (written_docs_ o) (builtins_ o) (recorder_ o) x.

(** ** Outcomes of member functions *)

(** A function that can only fail a [CHECK]. *)
Definition Checked (A : Type) : Type := (Failure + A)%type.

(** A member function that may update the observer, or stop the run. *)
Inductive Outcome (A : Type) : Type :=
  | Done (a : A) (o : KytheGraphObserver)
  | Stopped (f : Failure).
Arguments Done {A} a o.
Arguments Stopped {A} f.

Definition M (A : Type) : Type := KytheGraphObserver -> Outcome A.

Definition ret {A} (a : A) : M A := fun o => Done a o.

Definition bind {A B} (m : M A) (k : A -> M B) : M B :=
  fun o => match m o with
           | Done a o' => k a o'
           | Stopped f => Stopped f
           end.

Declare Scope obs_scope.
Delimit Scope obs_scope with obs.
Notation "x <- m ;; k" := (bind m (fun x => k))
  (at level 100, m at next level, right associativity) : obs_scope.
Notation "m ;;; k" := (bind m (fun _ => k))
  (at level 100, right associativity) : obs_scope.
Local Open Scope obs_scope.

Definition get : M KytheGraphObserver := fun o => Done o o.
Definition modify (f : KytheGraphObserver -> KytheGraphObserver) : M unit :=
  fun o => Done tt (f o).
Definition stop {A} (f : Failure) : M A := fun _ => Stopped f.
Definition lift {A} (c : Checked A) : M A :=
  match c with inl f => stop f | inr a => ret a end.

(** [CHECK(cond)]. *)
Definition CHECK (cond : bool) (text : string) : M unit :=
  if cond then ret tt else stop (CheckFailed text).

(** A call on [recorder_]. *)
Definition record (f : Fact) : M unit :=
  modify (fun o => set_recorder_ (recorder_ o ++ [f]) o).

(** A line on [stderr] or in the log. *)
Definition diagnose (d : Diagnostic) : M unit :=
  modify (fun o => set_stderr_ (stderr_ o ++ [d]) o).

(** [if (cond) body]. *)
Definition when (cond : bool) (body : M unit) : M unit :=
  if cond then body else ret tt.

(** A range-for loop. *)
Fixpoint for_each {A} (l : list A) (body : A -> M unit) : M unit :=
  match l with
  | [] => ret tt
  | x :: l' => body x ;;; for_each l' body
  end.

(** [set.insert(x).second] on a set kept as a duplicate-free list. *)
Definition list_set_insert {A} `{EqDecision A} (x : A) (s : list A)
  : list A * bool :=
  if decide (x ∈ s) then (s, false) else (s ++ [x], true).

(** [set.insert(x).second] on a [gset]. *)
Definition gset_insert `{Countable A} (x : A) (s : gset A) : gset A * bool :=
  if decide (x ∈ s) then (s, false) else ({[x]} ∪ s, true).

(** [map.emplace(k, v)]: an existing entry is kept. *)
Definition emplace `{Countable K} {V} (k : K) (v : V) (m : gmap K V)
  : gmap K V :=
  match m !! k with
  | Some _ => m
  | None => <[k := v]> m
  end.

Section Observer.
Context `{Externals}.

(** ** Node identities *)

(** Modelled from the spec: the constructor [NodeId(token, identity)] of
    GraphObserver.h, which is not among the sources.  A NodeId is the pair of
    a claim token and a content signature string; the source tells this
    constructor apart from [NodeId::CreateUncompressed], so the identity goes
    through [CompressString] (with its default [Force = false]) on the way
    in. *)
Definition NodeId_ctor (token : KytheClaimToken) (identity : string) : NodeId :=
  mkNodeId token (CompressString identity false).

(** [NodeId::CreateUncompressed]: the identity is stored as given. *)
Definition CreateUncompressed (token : KytheClaimToken) (identity : string)
  : NodeId :=
  mkNodeId token identity.

(** [NodeId::ToString]. *)
Definition ToString (n : NodeId) : string := IdentityRef n.

(** Modelled from the spec: [NodeId::ToClaimedString] of GraphObserver.h, the
    "claimed string" that keys the deduplication sets: the signature plus the
    identity of the token. *)
Definition ToClaimedString (n : NodeId) : string :=
  IdentityRef n +:+ token_identity (getToken n).

(** Modelled from the spec: [KytheGraphObserver::claimNode] of
    KytheGraphObserver.h: a node whose only claim is its token's reuses the
    boolean cached on that token. *)
Definition claimNode (n : NodeId) : bool := rough_claimed_ (getToken n).

Definition getDefaultClaimToken (o : KytheGraphObserver) : KytheClaimToken :=
  default_token_ o.

Definition VNameRefFromNodeId (n : NodeId) : VName :=
  let out_ref := set_language kIndexerLang empty_vname in
  let token := getToken n in
  let out_ref := DecorateVName token out_ref in
  let out_ref :=
    if language_independent_ token then set_language "" out_ref else out_ref in
  set_signature (IdentityRef n) out_ref.

(** ** Locations and ranges *)

Definition VNameFromFileEntry (o : KytheGraphObserver) (file_entry : FileEntry)
  : VName :=
  match get_vname (vfs_ o) file_entry with
  | Some out_name => out_name
  | None =>
      let working_directory := working_directory (vfs_ o) in
      let file_name := getName file_entry in
      let out_name :=
        if startswith file_name working_directory
        then set_path (RelativizePath file_name working_directory) empty_vname
        else set_path file_name empty_vname in
      set_corpus (corpus (claimant_ o)) out_name
  end.

Definition AppendFileBufferSliceHashToStream (o : KytheGraphObserver)
    (loc : SourceLocation) (Ostream : string) : string :=
  let offset := getFileOffset loc in
  match getCharacterData (SourceManager o) loc with
  | None => Ostream +:+ "!invalid[" +:+ to_string offset +:+ "]"
  | Some buffer =>
      let loc_end := getLocForEndOfToken (SourceManager o) loc in
      let offset_end := getFileOffset loc_end in
      let len := sub_wrap size_t_bits offset_end offset in
      Ostream +:+
        HashToString (hash_value (String.substring 0 (N.to_nat len) buffer))
  end.

(** The loop over [posted_fileids] that looks for [file_id], counting from
    [old_id]. *)
Fixpoint find_posted (file_id : FileID) (posted_fileids : list FileID)
    (old_id : N) : option N :=
  match posted_fileids with
  | [] => None
  | f :: rest =>
      if decide (file_id = f) then Some old_id
      else find_posted file_id rest (old_id + 1)
  end.

(** The branch of [AppendFullLocationToStream] for a valid file location. *)
Definition AppendFileLocationToStream (o : KytheGraphObserver)
    (posted_fileids : list FileID) (loc : SourceLocation) (Ostream : string)
  : list FileID * string :=
  let file_id := getFileID loc in
  let file_entry := getFileEntryForID (SourceManager o) file_id in
  let Ostream :=
    match file_entry with
    | Some _ => Ostream +:+ to_string (getFileOffset loc)
    | None => AppendFileBufferSliceHashToStream o loc Ostream
    end in
  match find_posted file_id posted_fileids 0 with
  | Some old_id => (posted_fileids, Ostream +:+ "@." +:+ to_string old_id)
  | None =>
      let posted_fileids := posted_fileids ++ [file_id] in
      match file_entry with
      | Some file_entry =>
          let file_vname := VNameFromFileEntry o file_entry in
          let Ostream :=
            if negb (empty (corpus file_vname))
            then Ostream +:+ corpus file_vname +:+ "/" else Ostream in
          let Ostream :=
            if negb (empty (root file_vname))
            then Ostream +:+ root file_vname +:+ "/" else Ostream in
          (posted_fileids, Ostream +:+ path file_vname)
      | None => (posted_fileids, Ostream)
      end
  end.

(** The recursion follows the expansion and the spelling location of a macro
    location; [AppendFullLocationToStream_eq] below gives the body as the
    source writes it. *)
Fixpoint AppendFullLocationToStream (o : KytheGraphObserver)
    (posted_fileids : list FileID) (loc : SourceLocation) (Ostream : string)
    {struct loc} : list FileID * string :=
  match loc with
  | LocInvalid => (posted_fileids, Ostream +:+ "invalid")
  | LocFile _ _ => AppendFileLocationToStream o posted_fileids loc Ostream
  | LocMacro _ _ expansion spelling =>
      let '(posted_fileids, Ostream) :=
        AppendFullLocationToStream o posted_fileids
          (getExpansionLoc expansion) Ostream in
      let Ostream := Ostream +:+ "@" in
      AppendFullLocationToStream o posted_fileids
        (getSpellingLoc spelling) Ostream
  end.

Definition AppendRangeToStream (o : KytheGraphObserver) (Ostream : string)
    (Range : Range) : string :=
  let posted_fileids : list FileID := [] in
  let '(posted_fileids, Ostream) :=
    AppendFullLocationToStream o posted_fileids
      (getBegin (PhysicalRange Range)) Ostream in
  let '(posted_fileids, Ostream) :=
    if bool_decide (getEnd (PhysicalRange Range)
                    ≠ getBegin (PhysicalRange Range))
    then AppendFullLocationToStream o posted_fileids
           (getEnd (PhysicalRange Range)) Ostream
    else (posted_fileids, Ostream) in
  if bool_decide (Kind Range = Wraith)
  then Ostream +:+ ToClaimedString (Context Range)
  else Ostream.

(** The recursion follows the expansion and the spelling location of a macro
    location; [SearchForFileEntry_eq] below gives the body as the source
    writes it. *)
Fixpoint SearchForFileEntry (loc : SourceLocation)
    (source_manager : SourceManagerT) {struct loc} : option FileEntry :=
  match loc with
  | LocMacro _ _ e s =>
      let expansion := getExpansionLoc e in
      let out :=
        if isValid expansion && bool_decide (expansion ≠ loc)
        then SearchForFileEntry expansion source_manager else None in
      match out with
      | Some _ => out
      | None =>
          let spelling := getSpellingLoc s in
          if isValid spelling && bool_decide (spelling ≠ loc)
          then SearchForFileEntry spelling source_manager else None
      end
  | _ =>
      if isFileID loc && isValid loc
      then getFileEntryForID source_manager (getFileID loc) else None
  end.

Definition VNameFromRange (o : KytheGraphObserver) (range : Range)
  : Checked VName :=
  let finish (out_name : VName) : VName :=
    let out_name := set_language kIndexerLang out_name in
    set_signature (CompressString (signature out_name) false) out_name in
  if bool_decide (Kind range = Implicit) then
    let out_name := VNameRefFromNodeId (Context range) in
    inr (finish
           (set_signature (signature out_name +:+ "@syntactic") out_name))
  else
    let source_range := PhysicalRange range in
    let begin := getBegin source_range in
    let end_ := getEnd source_range in
    if negb (isValid begin) then inl (CheckFailed "begin.isValid()") else
    let end_ := if negb (isValid end_) then begin else end_ in
    let begin := if isMacroID begin then getExpansionLoc begin else begin in
    let end_ := if isMacroID end_ then getExpansionLoc end_ else end_ in
    let out_name :=
      match SearchForFileEntry begin (SourceManager o) with
      | Some file_entry => VNameFromFileEntry o file_entry
      | None =>
          if bool_decide (Kind range = Wraith)
          then VNameRefFromNodeId (Context range) else empty_vname
      end in
    let begin_offset := getFileOffset begin in
    let end_offset := getFileOffset end_ in
    let sig :=
      signature out_name +:+ "@" +:+ to_string begin_offset +:+ ":"
        +:+ to_string end_offset in
    let sig :=
      if bool_decide (Kind range = Wraith)
      then sig +:+ "@" +:+ ToClaimedString (Context range) else sig in
    inr (finish (set_signature sig out_name)).

(** ** Claims *)

Definition claimLocation (o : KytheGraphObserver)
    (source_location : SourceLocation) : Checked bool :=
  if negb (isValid source_location) then inr true else
  let source_location :=
    if isMacroID source_location then getExpansionLoc source_location
    else source_location in
  if negb (isFileID source_location)
  then inl (CheckFailed "source_location.isFileID()") else
  let file := getFileID source_location in
  if FileID_isInvalid file then inr true else
  match claim_checked_files_ o !! file with
  | Some token => inr (rough_claimed_ token)
  | None => inr false
  end.

Definition claimRange (o : KytheGraphObserver) (range : Range)
  : Checked bool :=
  if bool_decide (Kind range = Wraith) && claimNode (Context range)
  then inr true
  else claimLocation o (getBegin (PhysicalRange range)).

(** ** Anchors *)

(** Modelled from the spec: [KytheGraphObserver::AddMarkedSource] of
    KytheGraphObserver.h, which hands a marked source to the recorder when
    there is one. *)
Definition AddMarkedSource (v : VName) (marked_source : option MarkedSource)
  : M unit :=
  match marked_source with
  | Some ms => record (AddMarkedSourceFact v ms)
  | None => ret tt
  end.

Definition RecordSourceLocation (v : VName) (source_location : SourceLocation)
    (offset_id : PropertyID) : M unit :=
  let source_location :=
    if isMacroID source_location then getExpansionLoc source_location
    else source_location in
  let offset := getFileOffset source_location in
  record (AddPropertyNum v offset_id offset).

Definition RecordRange (anchor_name : VName) (range : Range) : M unit :=
  o <- get;;
  proceed <-
    (if negb (deferring_nodes_ o) then ret true
     else
       let '(s, inserted) := list_set_insert range (deferred_anchors_ o) in
       modify (set_deferred_anchors_ s);;; ret inserted);;
  when proceed
    (record (AddNodeKind anchor_name kAnchor);;;
     (if bool_decide (Kind range = Implicit)
      then record (AddPropertyStr anchor_name kSubkind "implicit")
      else
        RecordSourceLocation anchor_name (getBegin (PhysicalRange range))
          kLocationStartOffset;;;
        RecordSourceLocation anchor_name (getEnd (PhysicalRange range))
          kLocationEndOffset);;;
     when (bool_decide (Kind range = Wraith))
       (record (AddEdge anchor_name kChildOfContext
                  (VNameRefFromNodeId (Context range))))).

Definition MetaHookDefines (meta : MetadataFile) (anchor : VName)
    (range_begin range_end : N) (def : VName) : M unit :=
  for_each (equal_range (rules meta) range_begin) (fun rule =>
    when (bool_decide (rule_begin rule = range_begin)
          && bool_decide (rule_end rule = range_end)
          && (bool_decide (edge_in rule = "/kythe/edge/defines")
              || bool_decide (edge_in rule = "/kythe/edge/defines/binding")))
      match of_spelling (edge_out rule) with
      | Some edge_kind =>
          if reverse_edge rule
          then record (AddEdge (rule_vname rule) edge_kind def)
          else record (AddEdge def edge_kind (rule_vname rule))
      | None => diagnose (UnknownEdgeKind (edge_out rule))
      end).

(** [RecordAnchor] with a [NodeId] target. *)
Definition RecordAnchor (source_range : Range) (primary_anchored_to : NodeId)
    (anchor_edge_kind : EdgeKindID) (cl : Claimability) : M unit :=
  o <- get;;
  CHECK (negb (bool_decide (file_stack_ o = []))) "!file_stack_.empty()";;;
  redundant <-
    (if drop_redundant_wraiths_ o then
       let '(s, inserted) :=
         list_set_insert
           (mkRangeEdge (PhysicalRange source_range) anchor_edge_kind
              primary_anchored_to)
           (range_edges_ o) in
       modify (set_range_edges_ s);;; ret (negb inserted)
     else ret false);;
  if redundant : bool then ret tt else
  o <- get;;
  anchor_name <- lift (VNameFromRange o source_range);;
  range_claimed <- lift (claimRange o source_range);;
  cl <-
    (if range_claimed || claimNode primary_anchored_to
     then RecordRange anchor_name source_range;;; ret Unclaimable
     else ret cl);;
  when (bool_decide (cl = Unclaimable))
    (record (AddEdge anchor_name anchor_edge_kind
               (VNameRefFromNodeId primary_anchored_to));;;
     when (bool_decide (Kind source_range = Physical))
       (when (bool_decide (anchor_edge_kind = kDefinesBinding))
          (o <- get;;
           let def_file := getFileID (getBegin (PhysicalRange source_range)) in
           let metas := equal_range (meta_ o) def_file in
           when (negb (bool_decide (metas = [])))
             (let begin := getBegin (PhysicalRange source_range) in
              let begin :=
                if isMacroID begin then getExpansionLoc begin else begin in
              let end_ := getEnd (PhysicalRange source_range) in
              let end_ :=
                if isMacroID end_ then getExpansionLoc end_ else end_ in
              let range_begin := getFileOffset begin in
              let range_end := getFileOffset end_ in
              for_each metas (fun meta =>
                MetaHookDefines meta anchor_name range_begin range_end
                  (VNameRefFromNodeId primary_anchored_to)))))).

(** [RecordAnchor] with a [VName] target. *)
Definition RecordAnchorVName (source_range : Range)
    (primary_anchored_to : VName) (anchor_edge_kind : EdgeKindID)
    (cl : Claimability) : M unit :=
  o <- get;;
  CHECK (negb (bool_decide (file_stack_ o = []))) "!file_stack_.empty()";;;
  anchor_name <- lift (VNameFromRange o source_range);;
  range_claimed <- lift (claimRange o source_range);;
  cl <-
    (if range_claimed : bool
     then RecordRange anchor_name source_range;;; ret Unclaimable
     else ret cl);;
  when (bool_decide (cl = Unclaimable))
    (record (AddEdge anchor_name anchor_edge_kind primary_anchored_to)).

Definition recordExpandsRange (source_range : Range) (macro_id : NodeId)
  : M unit :=
  RecordAnchor source_range macro_id kRefExpands Claimable.

Definition recordIndirectlyExpandsRange (source_range : Range)
    (macro_id : NodeId) : M unit :=
  RecordAnchor source_range macro_id kRefExpandsTransitive Claimable.

Definition recordUndefinesRange (source_range : Range) (macro_id : NodeId)
  : M unit :=
  RecordAnchor source_range macro_id kUndefines Claimable.

Definition recordBoundQueryRange (source_range : Range) (macro_id : NodeId)
  : M unit :=
  RecordAnchor source_range macro_id kRefQueries Claimable.

Definition recordIncludesRange (source_range : Range) (File : FileEntry)
  : M unit :=
  o <- get;;
  RecordAnchorVName source_range (VNameFromFileEntry o File) kRefIncludes
    Claimable.

Definition recordCallEdge (source_range : Range) (caller_id callee_id : NodeId)
  : M unit :=
  RecordAnchor source_range caller_id kChildOf Claimable;;;
  RecordAnchor source_range callee_id kRefCall Unclaimable.

Definition recordDocumentationRange (source_range : Range) (node : NodeId)
  : M unit :=
  RecordAnchor source_range node kDocuments Claimable.

Definition recordFullDefinitionRange (source_range : Range) (node : NodeId)
  : M unit :=
  RecordAnchor source_range node kDefinesFull Claimable.

Definition recordDefinitionBindingRange (binding_range : Range)
    (node : NodeId) : M unit :=
  RecordAnchor binding_range node kDefinesBinding Claimable.

Definition recordDefinitionRangeWithBinding (source_range binding_range : Range)
    (node : NodeId) : M unit :=
  RecordAnchor source_range node kDefinesFull Claimable;;;
  RecordAnchor binding_range node kDefinesBinding Claimable.

Inductive Specificity := Completes | UniquelyCompletes.

Definition recordCompletionRange (source_range : Range) (node : NodeId)
    (spec : Specificity) : M unit :=
  RecordAnchor source_range node
    (match spec with
     | UniquelyCompletes => kUniquelyCompletes
     | Completes => kCompletes
     end)
    Unclaimable.

Definition recordTypeSpellingLocation (type_source_range : Range)
    (type_id : NodeId) (claimability : Claimability) : M unit :=
  RecordAnchor type_source_range type_id kRef claimability.

Definition recordDeclUseLocationInDocumentation (source_range : Range)
    (node : NodeId) : M unit :=
  RecordAnchor source_range node kRefDoc Claimable.

Definition recordDeclUseLocation (source_range : Range) (node : NodeId)
    (claimability : Claimability) : M unit :=
  RecordAnchor source_range node kRef claimability.

(** ** Edges between nodes *)

Definition recordParamEdge (param_of_id : NodeId) (ordinal : N)
    (param_id : NodeId) : M unit :=
  record (AddEdgeOrd (VNameRefFromNodeId param_of_id) kParam
            (VNameRefFromNodeId param_id) ordinal).

Definition recordChildOfEdge (child_id parent_id : NodeId) : M unit :=
  record (AddEdge (VNameRefFromNodeId child_id) kChildOf
            (VNameRefFromNodeId parent_id)).

Definition recordTypeEdge (term_id type_id : NodeId) : M unit :=
  record (AddEdge (VNameRefFromNodeId term_id) kHasType
            (VNameRefFromNodeId type_id)).

Definition recordUpperBoundEdge (TypeNodeId TypeBoundNodeId : NodeId)
  : M unit :=
  record (AddEdge (VNameRefFromNodeId TypeNodeId) kBoundedUpper
            (VNameRefFromNodeId TypeBoundNodeId)).

Definition recordOverridesEdge (overrider base_object : NodeId) : M unit :=
  record (AddEdge (VNameRefFromNodeId overrider) kOverrides
            (VNameRefFromNodeId base_object)).

Definition recordOverridesRootEdge (overrider root_object : NodeId)
  : M unit :=
  record (AddEdge (VNameRefFromNodeId overrider) kOverridesRoot
            (VNameRefFromNodeId root_object)).

(** ** Nodes with an identity derived from their content *)

Definition recordNamespaceNode (node : NodeId)
    (marked_source : option MarkedSource) : M unit :=
  o <- get;;
  let node_vname := VNameRefFromNodeId node in
  let '(s, inserted) :=
    gset_insert (ToClaimedString node) (written_namespaces_ o) in
  modify (set_written_namespaces_ s);;;
  when inserted
    (record (AddNodeKind node_vname kPackage);;;
     record (AddPropertyStr node_vname kSubkind "namespace");;;
     AddMarkedSource node_vname marked_source).

(** [!deferring_nodes_ || written_types_.insert(key).second]: the set is
    touched only when nodes are deferred. *)
Definition claim_written_type (key : string) : M bool :=
  o <- get;;
  if negb (deferring_nodes_ o) then ret true
  else
    let '(s, inserted) := gset_insert key (written_types_ o) in
    modify (set_written_types_ s);;; ret inserted.

Definition nodeIdForNominalTypeNode (o : KytheGraphObserver) (name_id : NameId)
  : NodeId :=
  NodeId_ctor (type_token_ o) (NameId_ToString name_id +:+ "#t").

Definition recordNominalTypeNode (name_id : NameId)
    (marked_source : option MarkedSource) (parent : option NodeId)
  : M NodeId :=
  o <- get;;
  let id_out := nodeIdForNominalTypeNode o name_id in
  emit <- claim_written_type (ToClaimedString id_out);;
  when emit
    (let type_vname := VNameRefFromNodeId id_out in
     AddMarkedSource type_vname marked_source;;;
     record (AddNodeKind type_vname kTNominal);;;
     match parent with
     | Some parent =>
         record (AddEdge type_vname kChildOf (VNameRefFromNodeId parent))
     | None => ret tt
     end);;;
  ret id_out.

(** The loop that writes the claimed strings of [params] to the stream, a
    comma before each but the first. *)
Fixpoint append_params (params : list NodeId) (comma : bool) (ostream : string)
  : string :=
  match params with
  | [] => ostream
  | next_id :: rest =>
      let ostream := if comma then ostream +:+ "," else ostream in
      let ostream := ostream +:+ ToClaimedString next_id in
      append_params rest true ostream
  end.

(** The loop over [param_index] that records one [param] edge per element,
    with ordinal [param_index + shift] in [uint32_t] arithmetic. *)
Fixpoint record_param_edges (from : VName) (params : list NodeId)
    (param_index shift : N) : M unit :=
  match params with
  | [] => ret tt
  | p :: rest =>
      record (AddEdgeOrd from kParam (VNameRefFromNodeId p)
                (wrap unsigned_bits (param_index + shift)));;;
      record_param_edges from rest (param_index + 1) shift
  end.

Definition tapp_identity (tycon_id : NodeId) (params : list NodeId) : string :=
  let ostream := "" in
  let ostream := ostream +:+ ToClaimedString tycon_id in
  let ostream := ostream +:+ "(" in
  let ostream := append_params params false ostream in
  ostream +:+ ")".

Definition recordTappNode (tycon_id : NodeId) (params : list NodeId)
    (FirstDefaultParam : N) : M NodeId :=
  CHECK (FirstDefaultParam <=? N.of_nat (length params))
    "FirstDefaultParam <= params.size()";;;
  o <- get;;
  let id_out := NodeId_ctor (type_token_ o) (tapp_identity tycon_id params) in
  emit <- claim_written_type (ToClaimedString id_out);;
  when emit
    (let tapp_vname := VNameRefFromNodeId id_out in
     record (AddNodeKind tapp_vname kTApp);;;
     when (FirstDefaultParam <? N.of_nat (length params))
       (record (AddPropertyNum tapp_vname kParamDefault FirstDefaultParam));;;
     record (AddEdgeOrd tapp_vname kParam (VNameRefFromNodeId tycon_id) 0);;;
     record_param_edges tapp_vname params 0 1);;;
  ret id_out.

(** The loop that appends a comma and the claimed string of every link. *)
Fixpoint append_links (doc_links : list NodeId) (sig : string) : string :=
  match doc_links with
  | [] => sig
  | link :: rest => append_links rest (sig +:+ "," +:+ ToClaimedString link)
  end.

Definition recordDocumentationText (node : NodeId) (doc_text : string)
    (doc_links : list NodeId) : M unit :=
  o <- get;;
  let sig := append_links doc_links doc_text in
  let doc_id := NodeId_ctor (getToken node) (CompressString sig true) in
  let doc_vname := VNameRefFromNodeId doc_id in
  let '(s, inserted) :=
    gset_insert (ToClaimedString doc_id) (written_docs_ o) in
  modify (set_written_docs_ s);;;
  when inserted
    (record (AddNodeKind doc_vname kDoc);;;
     record (AddPropertyStr doc_vname kText doc_text);;;
     record_param_edges doc_vname doc_links 0 0);;;
  record (AddEdge doc_vname kDocuments (VNameRefFromNodeId node)).


(** ** Builtins *)

(** [EmitBuiltin] takes a pointer to an entry of [builtins_]; the entry is
    named by its key. *)
Definition EmitBuiltin (key : string) : M unit :=
  o <- get;;
  match builtins_ o !! key with
  | Some builtin =>
      modify (set_builtins_
                (<[key := mkBuiltin (node_id builtin) (marked_source builtin)
                            true]> (builtins_ o)));;;
      let ref := VNameRefFromNodeId (node_id builtin) in
      record (AddNodeKind ref kBuiltin);;;
      record (AddMarkedSourceFact ref (marked_source builtin))
  | None => ret tt
  end.

Definition getNodeIdForBuiltinType (spelling : string) : M NodeId :=
  o <- get;;
  match builtins_ o !! spelling with
  | None =>
      (if FLAGS_fail_on_unimplemented_builtin o
       then stop (LogFatal ("Missing builtin " +:+ spelling))
       else ret tt);;;
      diagnose (LogError ("Missing builtin " +:+ spelling));;;
      let sig := identifier_source spelling in
      let new_builtin :=
        mkBuiltin
          (CreateUncompressed (getDefaultClaimToken o)
             (spelling +:+ "#builtin"))
          sig true in
      modify (fun o => set_builtins_ (emplace spelling new_builtin (builtins_ o)) o);;;
      EmitBuiltin spelling;;;
      ret (node_id new_builtin)
  | Some info =>
      when (negb (emitted info)) (EmitBuiltin spelling);;;
      ret (node_id info)
  end.

(** ** The file stack *)

(** A write through [FileState &state = file_stack_.back()]. *)
Fixpoint update_back (f : FileState -> FileState) (stack : list FileState)
  : list FileState :=
  match stack with
  | [] => []
  | [state] => [f state]
  | s :: rest => s :: update_back f rest
  end.

Definition set_state (f : FileState -> FileState) : M unit :=
  modify (fun o => set_file_stack_ (update_back f (file_stack_ o)) o).

(** A read through [state]; the stack is not empty where it is used. *)
Definition get_state : M FileState :=
  o <- get;; ret (default FileState_default (last (file_stack_ o))).

Definition set_context (c : string) (s : FileState) : FileState :=
  mkFileState c (vname s) (base_vname s) (uid s) (claimed s).
Definition set_fs_vname (v : VName) (s : FileState) : FileState :=
  mkFileState (context s) v (base_vname s) (uid s) (claimed s).
Definition set_base_vname (v : VName) (s : FileState) : FileState :=
  mkFileState (context s) (vname s) v (uid s) (claimed s).
Definition set_uid (u : UniqueID) (s : FileState) : FileState :=
  mkFileState (context s) (vname s) (base_vname s) u (claimed s).
Definition set_claimed (b : bool) (s : FileState) : FileState :=
  mkFileState (context s) (vname s) (base_vname s) (uid s) b.

(** The lookup in [path_to_context_data_] by path, context and offset, with
    the warning of the level that misses. *)
Definition lookup_context (previous_uid : UniqueID) (previous_context : string)
    (offset : N) : M unit :=
  o <- get;;
  match path_to_context_data_ o !! previous_uid with
  | Some path_info =>
      match path_info !! previous_context with
      | Some context_info =>
          match context_info !! offset with
          | Some dest => set_state (set_context dest)
          | None =>
              diagnose (MissingSourceOffset
                          (get_debug_uid_string (vfs_ o) previous_uid)
                          previous_context offset)
          end
      | None =>
          diagnose (MissingSourceContext
                      (get_debug_uid_string (vfs_ o) previous_uid)
                      previous_context offset)
      end
  | None =>
      diagnose (MissingSourcePath
                  (get_debug_uid_string (vfs_ o) previous_uid)
                  previous_context offset)
  end.

(** [recorded_files_.insert(entry).second]. *)
Definition insert_recorded_file (entry : FileEntry) : M bool :=
  fun o =>
    let '(s, inserted) := list_set_insert entry (recorded_files_ o) in
    Done inserted (set_recorded_files_ s o).

(** The part of [pushFile] for a location backed by a file entry. *)
Definition pushFile_entry (blame_location source_location : SourceLocation)
    (file : FileID) (entry : FileEntry) (previous_context : string)
    (has_previous_uid : bool) (previous_uid : UniqueID) (in_header : bool)
  : M unit :=
  o <- get;;
  let file_vname := VNameFromFileEntry o entry in
  set_state (set_base_vname file_vname);;;
  set_state (set_fs_vname file_vname);;;
  set_state (set_uid (getUniqueID entry));;;
  when (in_header
        || (has_previous_uid && negb (endswith (getName entry) ".inc")))
    (modify (fun o =>
       set_transitively_reached_through_header_
         ({[getUniqueID entry]} ∪ transitively_reached_through_header_ o) o));;;
  o <- get;;
  (if bool_decide (length (file_stack_ o) = 1%nat) then
     set_state (set_context (starting_context_ o))
   else if has_previous_uid && negb (empty previous_context)
           && isValid blame_location && isFileID blame_location then
     let offset := getFileOffset blame_location in
     lookup_context previous_uid previous_context offset
   else ret tt);;;
  set_state (fun s =>
    set_fs_vname (set_signature (context s +:+ signature (vname s)) (vname s))
      s);;;
  state <- get_state;;
  o <- get;;
  (if Claim (client_ o) (claimant_ o) (vname state) then
     inserted <- insert_recorded_file entry;;
     when inserted
       match getMemoryBufferForFile (SourceManager o) entry with
       | None => ret tt
       | Some buf => record (AddFileContent (base_vname state) buf)
       end
   else set_state (set_claimed false));;;
  state <- get_state;;
  let token := set_rough_claimed (claimed state)
                 (set_vname (vname state) fresh_token) in
  modify (fun o =>
    set_claim_checked_files_ (emplace file token (claim_checked_files_ o)) o);;;
  when (claimed state)
    (let file_token :=
       set_language_independent true
         (set_rough_claimed (claimed state)
            (set_vname (vname state) fresh_token)) in
     modify (fun o =>
       set_claimed_file_specific_tokens_
         (emplace file file_token (claimed_file_specific_tokens_ o)) o));;;
  when (negb has_previous_uid)
    (modify (set_main_source_file_loc_ source_location);;;
     modify (fun o =>
       set_main_source_file_token_ (Some file)
         (set_claim_checked_files_
            (match claim_checked_files_ o !! file with
             | Some _ => claim_checked_files_ o
             | None => <[file := fresh_token]> (claim_checked_files_ o)
             end) o))).

Definition pushFile (blame_location source_location : SourceLocation)
  : M unit :=
  o <- get;;
  let previous_context :=
    match last (file_stack_ o) with
    | None => starting_context_ o
    | Some back => context back
    end in
  let has_previous_uid := negb (bool_decide (file_stack_ o = [])) in
  let previous_uid :=
    match last (file_stack_ o) with
    | Some back => uid back
    | None => (0, 0)
    end in
  let in_header :=
    has_previous_uid
    && bool_decide (previous_uid ∈ transitively_reached_through_header_ o) in
  modify (fun o => set_file_stack_ (file_stack_ o ++ [FileState_default]) o);;;
  set_state (set_claimed true);;;
  when (isValid source_location)
    (let source_location :=
       if isMacroID source_location then getExpansionLoc source_location
       else source_location in
     CHECK (isFileID source_location) "source_location.isFileID()";;;
     let file := getFileID source_location in
     if FileID_isInvalid file then ret tt
     else
       match getFileEntryForID (SourceManager o) file with
       | Some entry =>
           pushFile_entry blame_location source_location file entry
             previous_context has_previous_uid previous_uid in_header
       | None => ret tt
       end).

Definition popFile : M unit :=
  o <- get;;
  CHECK (negb (bool_decide (file_stack_ o = []))) "!file_stack_.empty()";;;
  modify (fun o => set_file_stack_ (removelast (file_stack_ o)) o);;;
  o <- get;;
  when (bool_decide (file_stack_ o = []))
    (modify (set_deferred_anchors_ [])).


(** ** Further member functions *)

Definition isMainSourceFileRelatedLocation (o : KytheGraphObserver)
    (location : SourceLocation) : bool :=
  if negb (isValid location) then true else
  let stop_here :=
    negb (isFileID location)
    && (negb (isValid (getExpansionLoc location))
        || negb (isFileID (getExpansionLoc location))) in
  let location :=
    if negb (isFileID location) then getExpansionLoc location
    else location in
  if stop_here then true else
  let file := getFileID location in
  if FileID_isInvalid file then true else
  match getFileEntryForID (SourceManager o) file with
  | Some entry =>
      bool_decide
        (getUniqueID entry ∉ transitively_reached_through_header_ o)
  | None => true
  end.

(** [getClaimTokenForLocation] returns a pointer to [default_token_] or to an
    entry of [claim_checked_files_]; the token pointed at is returned. *)
Definition getClaimTokenForLocation (o : KytheGraphObserver)
    (source_location : SourceLocation) : Checked KytheClaimToken :=
  if negb (isValid source_location) then inr (default_token_ o) else
  let source_location :=
    if isMacroID source_location then getExpansionLoc source_location
    else source_location in
  if negb (isFileID source_location)
  then inl (CheckFailed "source_location.isFileID()") else
  let file := getFileID source_location in
  if FileID_isInvalid file then inr (default_token_ o) else
  match claim_checked_files_ o !! file with
  | Some token => inr token
  | None => inr (default_token_ o)
  end.

Definition getClaimTokenForRange (o : KytheGraphObserver)
    (range : SourceRange) : Checked KytheClaimToken :=
  getClaimTokenForLocation o (getBegin range).


Definition set_path_to_context_data_
    (x : gmap UniqueID (gmap string (gmap N string)))
    (o : KytheGraphObserver) : KytheGraphObserver :=
  mkObserver
    (SourceManager o) (vfs_ o) (client_ o) (claimant_ o)
    (FLAGS_fail_on_unimplemented_builtin o) (deferring_nodes_ o)
    (drop_redundant_wraiths_ o) (default_token_ o) (type_token_ o)
    (starting_context_ o) (meta_ o) x (file_stack_ o)
    (transitively_reached_through_header_ o) (recorded_files_ o)
    (claim_checked_files_ o) (claimed_file_specific_tokens_ o)
    (main_source_file_loc_ o) (main_source_file_token_ o)
    (deferred_anchors_ o) (range_edges_ o) (written_namespaces_ o)
    (written_types_ o) (written_docs_ o) (builtins_ o) (recorder_ o)
    (stderr_ o).

(** [vfs_->status(path)] is not part of this file: [status] gives the unique
    id of the status it finds, if any.  Each [operator[]] of the chained
    subscript creates the level it misses; the line for an unmapped path goes
    to [stderr] with its text. *)
Definition AddContextInformation (status : string -> option UniqueID)
    (path context : string) (offset : N) (dest_context : string) : M unit :=
  match status path with
  | Some found_file =>
      modify (fun o =>
        let path_info :=
          default ∅ (path_to_context_data_ o !! found_file) in
        let context_info := default ∅ (path_info !! context) in
        set_path_to_context_data_
          (<[found_file :=
               <[context := <[offset := dest_context]> context_info]>
                 path_info]> (path_to_context_data_ o)) o)
  | None =>
      diagnose
        (LogError
           ("WARNING: Path " +:+ path
            +:+ " could not be mapped to a VFS record."))
  end.


(** ** Type nodes for unions and aliases *)

Definition tsigma_identity (params : list NodeId) : string :=
  let ostream := "" in
  let ostream := ostream +:+ "#sigma(" in
  let ostream := append_params params false ostream in
  ostream +:+ ")".

Definition recordTsigmaNode (params : list NodeId) : M NodeId :=
  o <- get;;
  let id_out := NodeId_ctor (type_token_ o) (tsigma_identity params) in
  emit <- claim_written_type (ToClaimedString id_out);;
  when emit
    (let tsigma_vname := VNameRefFromNodeId id_out in
     record (AddNodeKind tsigma_vname kTSigma);;;
     record_param_edges tsigma_vname params 0 0);;;
  ret id_out.

Definition nodeIdForTypeAliasNode (o : KytheGraphObserver)
    (alias_name : NameId) (aliased_type : NodeId) : NodeId :=
  NodeId_ctor (type_token_ o)
    ("talias(" +:+ NameId_ToString alias_name +:+ ","
     +:+ ToClaimedString aliased_type +:+ ")").

Definition recordTypeAliasNode (alias_name : NameId) (aliased_type : NodeId)
    (root_aliased_type : option NodeId) (marked_source : option MarkedSource)
  : M NodeId :=
  o <- get;;
  let type_id := nodeIdForTypeAliasNode o alias_name aliased_type in
  emit <- claim_written_type (ToClaimedString type_id);;
  when emit
    (let type_vname := VNameRefFromNodeId type_id in
     record (AddNodeKind type_vname kTAlias);;;
     AddMarkedSource type_vname marked_source;;;
     let aliased_type_vname := VNameRefFromNodeId aliased_type in
     record (AddEdge type_vname kAliases aliased_type_vname);;;
     match root_aliased_type with
     | Some root =>
         record (AddEdge type_vname kAliasesRoot (VNameRefFromNodeId root))
     | None => ret tt
     end);;;
  ret type_id.

(** ** The builtin registry *)

(** The lambda [RegisterBuiltin] of [RegisterBuiltins]. *)
Definition RegisterBuiltin (name : string) (marked_source : MarkedSource)
  : M unit :=
  modify (fun o =>
    set_builtins_
      (emplace name
         (mkBuiltin
            (CreateUncompressed (getDefaultClaimToken o)
               (name +:+ "#builtin"))
            marked_source false)
         (builtins_ o)) o).

(** The lambda [RegisterTokenBuiltin]. *)
Definition RegisterTokenBuiltin (name token : string) : M unit :=
  let sig := identifier_source token in
  RegisterBuiltin name sig.

(** A default-constructed [MarkedSource] with the children given: its kind
    is the first enumerator and its texts are empty. *)
Definition box_source (children : list MarkedSource) : MarkedSource :=
  mkMarkedSource BOX "" "" "" 0 children.

(** [lhs_tycon_builtin] when the text of [lhs_tycon] is [pre_text]: the
    identifier, then the lookup of the first parameter. *)
Definition lhs_tycon_builtin (pre_text : string) : MarkedSource :=
  box_source [mkMarkedSource IDENTIFIER pre_text "" "" 0 [];
              mkMarkedSource LOOKUP_BY_PARAM "" "" "" 1 []].

(** [rhs_tycon_builtin] when the text of [rhs_tycon] is [pre_text]: the
    lookup of the first parameter, then the identifier. *)
Definition rhs_tycon_builtin (pre_text : string) : MarkedSource :=
  box_source [mkMarkedSource LOOKUP_BY_PARAM "" "" "" 1 [];
              mkMarkedSource IDENTIFIER pre_text "" "" 0 []].

(** [function_tycon_builtin] with the children added after [args]. *)
Definition function_tycon_builtin (more : list MarkedSource) : MarkedSource :=
  box_source ([mkMarkedSource LOOKUP_BY_PARAM "" "" "" 1 [];
               mkMarkedSource PARAMETER_LOOKUP_BY_PARAM "(" ", " ")" 2 []]
              ++ more).

Definition RegisterBuiltins : M unit :=
  RegisterTokenBuiltin "void" "void";;;
  RegisterTokenBuiltin "bool" "bool";;;
  RegisterTokenBuiltin "_Bool" "_Bool";;;
  RegisterTokenBuiltin "signed char" "signed char";;;
  RegisterTokenBuiltin "char" "char";;;
  RegisterTokenBuiltin "char16_t" "char16_t";;;
  RegisterTokenBuiltin "char32_t" "char32_t";;;
  RegisterTokenBuiltin "wchar_t" "wchar_t";;;
  RegisterTokenBuiltin "short" "short";;;
  RegisterTokenBuiltin "int" "int";;;
  RegisterTokenBuiltin "long" "long";;;
  RegisterTokenBuiltin "long long" "long long";;;
  RegisterTokenBuiltin "unsigned char" "unsigned char";;;
  RegisterTokenBuiltin "unsigned short" "unsigned short";;;
  RegisterTokenBuiltin "unsigned int" "unsigned int";;;
  RegisterTokenBuiltin "unsigned long" "unsigned long";;;
  RegisterTokenBuiltin "unsigned long long" "unsigned long long";;;
  RegisterTokenBuiltin "float" "float";;;
  RegisterTokenBuiltin "double" "double";;;
  RegisterTokenBuiltin "long double" "long double";;;
  RegisterTokenBuiltin "nullptr_t" "nullptr_t";;;
  RegisterTokenBuiltin "<dependent type>" "dependent";;;
  RegisterTokenBuiltin "auto" "auto";;;
  RegisterTokenBuiltin "knrfn" "function";;;
  RegisterTokenBuiltin "__int128" "__int128";;;
  RegisterTokenBuiltin "unsigned __int128" "unsigned __int128";;;
  RegisterTokenBuiltin "SEL" "SEL";;;
  RegisterTokenBuiltin "id" "id";;;
  RegisterTokenBuiltin "TypeUnion" "TypeUnion";;;
  RegisterBuiltin "const" (lhs_tycon_builtin "const ");;;
  RegisterBuiltin "volatile" (lhs_tycon_builtin "volatile ");;;
  RegisterBuiltin "restrict" (lhs_tycon_builtin "restrict ");;;
  RegisterBuiltin "ptr" (rhs_tycon_builtin "*");;;
  RegisterBuiltin "lvr" (rhs_tycon_builtin "&");;;
  RegisterBuiltin "rvr" (rhs_tycon_builtin "&&");;;
  RegisterBuiltin "iarr" (rhs_tycon_builtin "[incomplete]");;;
  RegisterBuiltin "carr" (rhs_tycon_builtin "[const]");;;
  RegisterBuiltin "darr" (rhs_tycon_builtin "[dependent]");;;
  RegisterBuiltin "fn" (function_tycon_builtin []);;;
  RegisterBuiltin "fnvararg"
    (function_tycon_builtin [mkMarkedSource IDENTIFIER "vararg" "" "" 0 []]).


(** ** More edges between nodes *)

Inductive Confidence := NonSpeculative | Speculative.

(** [clang::AccessSpecifier]. *)
Inductive AccessSpecifier := AS_public | AS_protected | AS_private | AS_none.

Definition recordSpecEdge (term_id type_id : NodeId) (conf : Confidence)
  : M unit :=
  match conf with
  | NonSpeculative =>
      record (AddEdge (VNameRefFromNodeId term_id) kSpecializes
                (VNameRefFromNodeId type_id))
  | Speculative =>
      record (AddEdge (VNameRefFromNodeId term_id) kSpecializesSpeculative
                (VNameRefFromNodeId type_id))
  end.

Definition recordInstEdge (term_id type_id : NodeId) (conf : Confidence)
  : M unit :=
  match conf with
  | NonSpeculative =>
      record (AddEdge (VNameRefFromNodeId term_id) kInstantiates
                (VNameRefFromNodeId type_id))
  | Speculative =>
      record (AddEdge (VNameRefFromNodeId term_id) kInstantiatesSpeculative
                (VNameRefFromNodeId type_id))
  end.

Definition recordCategoryExtendsEdge (from to : NodeId) : M unit :=
  record (AddEdge (VNameRefFromNodeId from) kExtendsCategory
            (VNameRefFromNodeId to)).

Definition recordExtendsEdge (from to : NodeId) (is_virtual : bool)
    (specifier : AccessSpecifier) : M unit :=
  match specifier with
  | AS_public =>
      record (AddEdge (VNameRefFromNodeId from)
                (if is_virtual then kExtendsPublicVirtual else kExtendsPublic)
                (VNameRefFromNodeId to))
  | AS_protected =>
      record (AddEdge (VNameRefFromNodeId from)
                (if is_virtual then kExtendsProtectedVirtual
                 else kExtendsProtected)
                (VNameRefFromNodeId to))
  | AS_private =>
      record (AddEdge (VNameRefFromNodeId from)
                (if is_virtual then kExtendsPrivateVirtual
                 else kExtendsPrivate)
                (VNameRefFromNodeId to))
  | AS_none =>
      record (AddEdge (VNameRefFromNodeId from)
                (if is_virtual then kExtendsVirtual else kExtends)
                (VNameRefFromNodeId to))
  end.

End Observer.

(** * Properties *)

Lemma getExpansionLoc_isFileID l : isFileID (getExpansionLoc l) = true.
Proof. induction l; simpl; auto. Qed.

Lemma getSpellingLoc_isFileID l : isFileID (getSpellingLoc l) = true.
Proof. induction l; simpl; auto. Qed.

Lemma getExpansionLoc_file l : isMacroID l = false -> getExpansionLoc l = l.
Proof. destruct l; simpl; congruence. Qed.

Lemma getSpellingLoc_file l : isMacroID l = false -> getSpellingLoc l = l.
Proof. destruct l; simpl; congruence. Qed.

Lemma isMacroID_getExpansionLoc l : isMacroID (getExpansionLoc l) = false.
Proof.
  pose proof (getExpansionLoc_isFileID l) as E. unfold isFileID in E.
  destruct (isMacroID _); simpl in E; congruence.
Qed.

Lemma isMacroID_getSpellingLoc l : isMacroID (getSpellingLoc l) = false.
Proof.
  pose proof (getSpellingLoc_isFileID l) as E. unfold isFileID in E.
  destruct (isMacroID _); simpl in E; congruence.
Qed.

(** The location a claim or an offset is taken at: a macro location is
    replaced by its expansion location. *)
Definition resolved (l : SourceLocation) : SourceLocation :=
  if isMacroID l then getExpansionLoc l else l.

Lemma resolved_eq l : resolved l = getExpansionLoc l.
Proof.
  unfold resolved. destruct (isMacroID l) eqn:E; [done|].
  by rewrite getExpansionLoc_file.
Qed.

Lemma resolved_isFileID l : isFileID (resolved l) = true.
Proof. rewrite resolved_eq. apply getExpansionLoc_isFileID. Qed.

(** ** Vocabulary of the statements *)

(** [n] calls of a member function in a row. *)
Fixpoint times (n : nat) (m : M unit) : M unit :=
  match n with
  | O => ret tt
  | S n' => bind m (fun _ => times n' m)
  end.

(** Run from [o], [m] returns and has passed exactly [facts], in this order,
    to the recorder. *)
Definition emits {A} (m : M A) (o : KytheGraphObserver) (facts : list Fact)
  : Prop :=
  exists a o', m o = Done a o' /\ recorder_ o' = recorder_ o ++ facts.

(** The facts that come with a node, unless it was written before. *)
Definition unless (written : Prop) `{!Decision written} (facts : list Fact)
  : list Fact :=
  if decide written then [] else facts.

(** The fact [AddMarkedSource] passes on, if any. *)
Definition marked_source_facts (v : VName) (ms : option MarkedSource)
  : list Fact :=
  match ms with
  | Some m => [AddMarkedSourceFact v m]
  | None => []
  end.


(** ** Strings *)

Lemma string_app_cons c (s t : string) : String c s +:+ t = String c (s +:+ t).
Proof. reflexivity. Qed.

Lemma string_app_nil_l (s : string) : "" +:+ s = s.
Proof. reflexivity. Qed.

Lemma string_app_assoc (s1 s2 s3 : string) :
  (s1 +:+ s2) +:+ s3 = s1 +:+ s2 +:+ s3.
Proof.
  induction s1 as [|c s1 IH]; [done|]. rewrite !string_app_cons. by f_equal.
Qed.

Lemma string_app_nil_r (s : string) : s +:+ "" = s.
Proof.
  induction s as [|c s IH]; [done|]. rewrite string_app_cons. by f_equal.
Qed.

Lemma string_app_inv_head (s t1 t2 : string) :
  s +:+ t1 = s +:+ t2 -> t1 = t2.
Proof.
  induction s as [|c s IH]; [done|]. rewrite !string_app_cons.
  intros [=]. auto.
Qed.

Lemma prefix_app (s t : string) : String.prefix s (s +:+ t) = true.
Proof.
  induction s as [|c s IH]; [by destruct t|].
  rewrite string_app_cons. simpl.
  destruct (Ascii.ascii_dec c c); [done|congruence].
Qed.

(** Two ways of splitting one string: the shorter first part is a prefix of
    the longer one. *)
Lemma string_app_eq_app (x y p q : string) :
  x +:+ p = y +:+ q ->
  (x = y /\ p = q)
  \/ (exists c r, y = x +:+ String c r /\ p = String c r +:+ q)
  \/ (exists c r, x = y +:+ String c r /\ q = String c r +:+ p).
Proof.
  revert y. induction x as [|a x IH]; intros [|b y];
    rewrite ?string_app_cons, ?string_app_nil_l.
  - auto.
  - intros ->. right. left. eauto.
  - intros <-. right. right. eauto.
  - intros [= -> E].
    destruct (IH _ E)
      as [[-> ->]|[(c & r & -> & ->)|(c & r & -> & ->)]].
    + auto.
    + right. left. eauto.
    + right. right. eauto.
Qed.

(** Swapping the two sides of a comma gives the same string only when the
    sides are equal or one of them is the other followed by a comma. *)
Lemma comma_swap (x y : string) :
  x +:+ "," +:+ y = y +:+ "," +:+ x ->
  x = y \/ String.prefix (x +:+ ",") y = true
  \/ String.prefix (y +:+ ",") x = true.
Proof.
  intros E. destruct (string_app_eq_app _ _ _ _ E)
    as [[-> _]|[(c & r & -> & E')|(c & r & -> & E')]].
  - auto.
  - right. left. rewrite !string_app_cons in E'. injection E' as <- _.
    replace (x +:+ String _ r) with ((x +:+ ",") +:+ r)
      by (by rewrite string_app_assoc).
    apply prefix_app.
  - right. right. rewrite !string_app_cons in E'. injection E' as <- _.
    replace (y +:+ String _ r) with ((y +:+ ",") +:+ r)
      by (by rewrite string_app_assoc).
    apply prefix_app.
Qed.

Lemma concat_empty_foldr (l : list string) :
  String.concat "" l = foldr String.append "" l.
Proof.
  induction l as [|x [|y l] IHl]; [done| |].
  - simpl. by rewrite string_app_nil_r.
  - change (String.concat "" (x :: y :: l))
      with (x +:+ "" +:+ String.concat "" (y :: l)).
    rewrite IHl. reflexivity.
Qed.

(** The calls [pushFile(blame, source)] for a list of location pairs, in
    order. *)
Definition push_all `{Externals}
    (locations : list (SourceLocation * SourceLocation)) : M unit :=
  for_each locations (fun l => pushFile (fst l) (snd l)).


Section Properties.
Context `{Externals}.

(** ** The recursive functions, as the source writes them *)

Lemma AppendFullLocationToStream_eq o posted_fileids loc Ostream :
  AppendFullLocationToStream o posted_fileids loc Ostream =
  if negb (isValid loc) then (posted_fileids, Ostream +:+ "invalid")
  else if isFileID loc
  then AppendFileLocationToStream o posted_fileids loc Ostream
  else
    let '(posted_fileids, Ostream) :=
      AppendFullLocationToStream o posted_fileids (getExpansionLoc loc)
        Ostream in
    AppendFullLocationToStream o posted_fileids (getSpellingLoc loc)
      (Ostream +:+ "@").
Proof. destruct loc; reflexivity. Qed.

Lemma SearchForFileEntry_eq loc sm :
  SearchForFileEntry loc sm =
  let file_id := getFileID loc in
  let out :=
    if isFileID loc && isValid loc then getFileEntryForID sm file_id
    else None in
  match out with
  | Some _ => out
  | None =>
      let expansion := getExpansionLoc loc in
      let out :=
        if isValid expansion && bool_decide (expansion ≠ loc)
        then SearchForFileEntry expansion sm else None in
      match out with
      | Some _ => out
      | None =>
          let spelling := getSpellingLoc loc in
          if isValid spelling && bool_decide (spelling ≠ loc)
          then SearchForFileEntry spelling sm else out
      end
  end.
Proof.
  destruct loc as [|f off|f off e s]; simpl.
  - reflexivity.
  - destruct (getFileEntryForID sm f); [reflexivity|].
    rewrite !bool_decide_eq_false_2 by (intros E; by apply E). reflexivity.
  - destruct (isValid (getExpansionLoc e) && _); [|reflexivity].
    destruct (SearchForFileEntry (getExpansionLoc e) sm); reflexivity.
Qed.


(** ** Claim checks on locations *)

Lemma claimLocation_total o loc :
  claimLocation o loc =
  inr (if negb (isValid loc) then true
       else if FileID_isInvalid (getFileID (resolved loc)) then true
       else match claim_checked_files_ o !! getFileID (resolved loc) with
            | Some token => rough_claimed_ token
            | None => false
            end).
Proof.
  unfold claimLocation. fold (resolved loc).
  rewrite resolved_isFileID. simpl.
  destruct (negb (isValid loc)); [done|].
  destruct (FileID_isInvalid _); [done|].
  by destruct (claim_checked_files_ o !! _).
Qed.

(** ** Range names *)

Lemma signature_VNameRefFromNodeId n :
  signature (VNameRefFromNodeId n) = IdentityRef n.
Proof. reflexivity. Qed.

(** C8: the name of an Implicit range is the name of its context node with
    the signature [CompressString (identity ++ "@syntactic")] and the
    indexer's language; it is the same for every observer (hence every source
    manager) and for every physical range the Implicit range may carry. *)
Theorem VNameFromRange_Implicit o range :
  Kind range = Implicit ->
  VNameFromRange o range =
    inr (set_signature
           (CompressString (IdentityRef (Context range) +:+ "@syntactic")
              false)
           (set_language kIndexerLang (VNameRefFromNodeId (Context range))))
  /\ forall o' range',
       Kind range' = Implicit -> Context range' = Context range ->
       VNameFromRange o' range' = VNameFromRange o range.
Proof.
  intros K. split.
  - unfold VNameFromRange. rewrite K. reflexivity.
  - intros o' range' K' C. unfold VNameFromRange. rewrite K, K', C.
    reflexivity.
Qed.

(** The members the range functions read. *)
Definition same_sources (o1 o2 : KytheGraphObserver) : Prop :=
  SourceManager o1 = SourceManager o2 /\ vfs_ o1 = vfs_ o2
  /\ claimant_ o1 = claimant_ o2.

Lemma VNameFromFileEntry_sources o1 o2 fe :
  same_sources o1 o2 -> VNameFromFileEntry o1 fe = VNameFromFileEntry o2 fe.
Proof.
  intros (_ & Ev & Ec). unfold VNameFromFileEntry. by rewrite Ev, Ec.
Qed.

Lemma AppendFileLocationToStream_sources o1 o2 posted loc os :
  same_sources o1 o2 ->
  AppendFileLocationToStream o1 posted loc os =
  AppendFileLocationToStream o2 posted loc os.
Proof.
  intros S. pose proof S as (Es & _ & _).
  unfold AppendFileLocationToStream, AppendFileBufferSliceHashToStream.
  rewrite Es. destruct (getFileEntryForID _ _); [|reflexivity].
  by rewrite (VNameFromFileEntry_sources o1 o2).
Qed.

Lemma AppendFullLocationToStream_file o posted loc os :
  isMacroID loc = false ->
  AppendFullLocationToStream o posted loc os =
  match loc with
  | LocInvalid => (posted, os +:+ "invalid")
  | _ => AppendFileLocationToStream o posted loc os
  end.
Proof. destruct loc; simpl; congruence. Qed.

Lemma AppendFullLocationToStream_sources o1 o2 posted loc os :
  same_sources o1 o2 ->
  AppendFullLocationToStream o1 posted loc os =
  AppendFullLocationToStream o2 posted loc os.
Proof.
  intros S.
  assert (F : forall l p s, isMacroID l = false ->
            AppendFullLocationToStream o1 p l s =
            AppendFullLocationToStream o2 p l s).
  { intros l p s E. rewrite !AppendFullLocationToStream_file by done.
    destruct l; [done| |done].
    by apply AppendFileLocationToStream_sources. }
  destruct loc as [| |f off e s]; try (apply F; reflexivity).
  simpl. rewrite (F (getExpansionLoc e)) by apply isMacroID_getExpansionLoc.
  destruct (AppendFullLocationToStream o2 posted (getExpansionLoc e) os).
  apply F, isMacroID_getSpellingLoc.
Qed.

(** C4 (amended): given the source manager, the file-name table and the
    claimant's corpus, two observers that differ only in their mutable state
    (file stack, deduplication sets, claim tables, builtins, output so far)
    derive the same stream encoding for two ranges of the same kind with the
    same physical bounds and, if they are Wraiths, the same context; they
    derive the same name for them if, in addition, Implicit ranges have the
    same context: the [Context] field counts for the encoding of a Wraith,
    and for the name of a Wraith and of an Implicit range. *)
Theorem range_name_deterministic o1 o2 R1 R2 Ostream :
  same_sources o1 o2 ->
  Kind R1 = Kind R2 ->
  PhysicalRange R1 = PhysicalRange R2 ->
  (Kind R1 = Wraith -> Context R1 = Context R2) ->
  AppendRangeToStream o1 Ostream R1 = AppendRangeToStream o2 Ostream R2
  /\ ((Kind R1 = Implicit -> Context R1 = Context R2) ->
      VNameFromRange o1 R1 = VNameFromRange o2 R2).
Proof.
  intros S K P C. pose proof S as (Es & _ & _). split.
  - unfold AppendRangeToStream. rewrite <- K, <- P.
    rewrite (AppendFullLocationToStream_sources o1 o2) by done.
    destruct (AppendFullLocationToStream o2 _ _ _) as [p s].
    destruct (bool_decide (getEnd _ ≠ _)).
    + rewrite (AppendFullLocationToStream_sources o1 o2) by done.
      destruct (AppendFullLocationToStream o2 _ _ _).
      destruct (decide (Kind R1 = Wraith)) as [KW|KW].
      * by rewrite C.
      * by rewrite !bool_decide_eq_false_2 by done.
    + destruct (decide (Kind R1 = Wraith)) as [KW|KW].
      * by rewrite C.
      * by rewrite !bool_decide_eq_false_2 by done.
  - intros CI. unfold VNameFromRange. rewrite <- K, <- P, Es.
    destruct (decide (Kind R1 = Implicit)) as [KI|KI].
    + rewrite !bool_decide_eq_true_2 by done. by rewrite CI.
    + rewrite !bool_decide_eq_false_2 by done.
      destruct (negb (isValid _)); [done|].
      destruct (SearchForFileEntry _ _).
      * rewrite (VNameFromFileEntry_sources o1 o2) by done.
        destruct (decide (Kind R1 = Wraith)) as [KW|KW].
        -- by rewrite C.
        -- by rewrite !bool_decide_eq_false_2 by done.
      * destruct (decide (Kind R1 = Wraith)) as [KW|KW].
        -- by rewrite C.
        -- by rewrite !bool_decide_eq_false_2 by done.
Qed.


(** ** Reasoning about member functions

    [spec m o Q]: run from [o], [m] returns some [a] in some observer [o']
    with [Q a o']; in particular it does not stop. *)
Definition spec {A} (m : M A) (o : KytheGraphObserver)
    (Q : A -> KytheGraphObserver -> Prop) : Prop :=
  match m o with
  | Done a o' => Q a o'
  | Stopped _ => False
  end.

Lemma spec_done {A} (m : M A) o Q :
  spec m o Q <-> exists a o', m o = Done a o' /\ Q a o'.
Proof.
  unfold spec. split.
  - destruct (m o) as [a o'|]; [eauto|done].
  - intros (a & o' & -> & HQ). done.
Qed.

Lemma spec_mono {A} (m : M A) o (Q Q' : A -> KytheGraphObserver -> Prop) :
  spec m o Q -> (forall a o', Q a o' -> Q' a o') -> spec m o Q'.
Proof. unfold spec. destruct (m o); auto. Qed.

Lemma spec_ret {A} (a : A) o (Q : A -> KytheGraphObserver -> Prop) :
  Q a o -> spec (ret a) o Q.
Proof. done. Qed.

Lemma spec_bind {A B} (m : M A) (k : A -> M B) o Q :
  spec m o (fun a o' => spec (k a) o' Q) -> spec (bind m k) o Q.
Proof. unfold spec, bind. destruct (m o); auto. Qed.

Lemma spec_get o (Q : KytheGraphObserver -> KytheGraphObserver -> Prop) :
  Q o o -> spec get o Q.
Proof. done. Qed.

Lemma spec_modify f o (Q : unit -> KytheGraphObserver -> Prop) :
  Q tt (f o) -> spec (modify f) o Q.
Proof. done. Qed.

Lemma spec_record f o (Q : unit -> KytheGraphObserver -> Prop) :
  Q tt (set_recorder_ (recorder_ o ++ [f]) o) -> spec (record f) o Q.
Proof. done. Qed.

Lemma spec_diagnose d o (Q : unit -> KytheGraphObserver -> Prop) :
  Q tt (set_stderr_ (stderr_ o ++ [d]) o) -> spec (diagnose d) o Q.
Proof. done. Qed.

Lemma spec_CHECK c text o (Q : unit -> KytheGraphObserver -> Prop) :
  c = true -> Q tt o -> spec (CHECK c text) o Q.
Proof. by intros ->. Qed.

Lemma spec_lift {A} (c : Checked A) a o (Q : A -> KytheGraphObserver -> Prop) :
  c = inr a -> Q a o -> spec (lift c) o Q.
Proof. by intros ->. Qed.

Lemma bind_Done {A B} (m : M A) (k : A -> M B) o a o' :
  m o = Done a o' -> bind m k o = k a o'.
Proof. unfold bind. by intros ->. Qed.

(** ** Member functions that keep a relation between observers

    [keeps R m]: from every observer [m] returns, in an observer related to the
    first by the preorder [R]. *)
Definition keeps {A} (R : relation KytheGraphObserver) (m : M A) : Prop :=
  forall o, spec m o (fun _ o' => R o o').

Section Keeps.
Variable R : relation KytheGraphObserver.
Context `{!PreOrder R}.

Lemma keeps_ret {A} (a : A) : keeps R (ret a).
Proof. intros o. apply spec_ret. reflexivity. Qed.

Lemma keeps_get : keeps R get.
Proof. intros o. apply spec_get. reflexivity. Qed.

Lemma keeps_bind {A B} (m : M A) (k : A -> M B) :
  keeps R m -> (forall a, keeps R (k a)) -> keeps R (bind m k).
Proof.
  intros Hm Hk o. apply spec_bind. eapply spec_mono; [apply Hm|].
  intros a o' Ho'. eapply spec_mono; [apply Hk|].
  intros b o'' Ho''. simpl in *. by etrans.
Qed.

Lemma keeps_modify f : (forall o, R o (f o)) -> keeps R (modify f).
Proof. intros Hf o. apply spec_modify, Hf. Qed.

Lemma keeps_when c m : keeps R m -> keeps R (when c m).
Proof. intros Hm. destruct c; [done|]. apply keeps_ret. Qed.

Lemma keeps_for_each {A} (l : list A) body :
  (forall x, keeps R (body x)) -> keeps R (for_each l body).
Proof.
  intros Hb. induction l as [|x l IH]; simpl.
  - apply keeps_ret.
  - apply keeps_bind; [apply Hb|]. intros _. apply IH.
Qed.

End Keeps.



(** One step through the body of a member function, chosen by the shape of
    the program. *)
Ltac spec_auto :=
  lazymatch goal with
  | |- spec (bind _ _) _ _ => apply spec_bind
  | |- spec get _ _ => apply spec_get
  | |- spec (modify _) _ _ => apply spec_modify
  | |- spec (record _) _ _ => apply spec_record
  | |- spec (diagnose _) _ _ => apply spec_diagnose
  | |- spec (ret _) _ _ => apply spec_ret
  | |- spec (when ?c _) _ _ => unfold when at 1
  | |- spec (AddMarkedSource _ _) _ _ => unfold AddMarkedSource at 1
  | |- spec (claim_written_type _) _ _ => unfold claim_written_type at 1
  | |- spec (if ?c then _ else _) _ _ => destruct c eqn:?
  | |- spec (match ?x with _ => _ end) _ _ => destruct x eqn:?
  | |- spec (let '(_, _) := ?x in _) _ _ => destruct x eqn:?
  end.

Ltac spec_run := repeat spec_auto.

(** ** Nominal types *)

Lemma recordNominalTypeNode_returns o name_id ms parent :
  spec (recordNominalTypeNode name_id ms parent) o
    (fun id o' => id = nodeIdForNominalTypeNode o name_id
                  /\ type_token_ o' = type_token_ o).
Proof. unfold recordNominalTypeNode. spec_run; done. Qed.

(** C7: the nominal type node of a name has the type token and the identity
    [CompressString (name ++ "#t")]; completeness is no input of it, and
    recording that node for a forward declaration and for a definition (any
    marked source, any parent, at any two moments of a run) returns this same
    NodeId. *)
Theorem nominal_type_identity_stable o name_id :
  nodeIdForNominalTypeNode o name_id
  = mkNodeId (type_token_ o)
      (CompressString (NameId_ToString name_id +:+ "#t") false)
  /\ forall o1 o2 ms1 parent1 ms2 parent2,
       type_token_ o1 = type_token_ o -> type_token_ o2 = type_token_ o ->
       exists o1' o2',
         recordNominalTypeNode name_id ms1 parent1 o1
         = Done (nodeIdForNominalTypeNode o name_id) o1'
         /\ recordNominalTypeNode name_id ms2 parent2 o2
            = Done (nodeIdForNominalTypeNode o name_id) o2'.
Proof.
  split; [reflexivity|].
  intros o1 o2 ms1 p1 ms2 p2 E1 E2.
  destruct (proj1 (spec_done _ _ _)
              (recordNominalTypeNode_returns o1 name_id ms1 p1))
    as (id1 & o1' & R1 & -> & _).
  destruct (proj1 (spec_done _ _ _)
              (recordNominalTypeNode_returns o2 name_id ms2 p2))
    as (id2 & o2' & R2 & -> & _).
  exists o1', o2'. rewrite R1, R2.
  unfold nodeIdForNominalTypeNode. by rewrite E1, E2.
Qed.


(** ** Builtins *)

Lemma getNodeIdForBuiltinType_strict o spelling :
  builtins_ o !! spelling = None ->
  FLAGS_fail_on_unimplemented_builtin o = true ->
  getNodeIdForBuiltinType spelling o
  = Stopped (LogFatal ("Missing builtin " +:+ spelling)).
Proof.
  intros E F. unfold getNodeIdForBuiltinType, bind, get. rewrite E, F.
  reflexivity.
Qed.

Lemma getNodeIdForBuiltinType_lenient o spelling :
  builtins_ o !! spelling = None ->
  FLAGS_fail_on_unimplemented_builtin o = false ->
  let id := CreateUncompressed (default_token_ o) (spelling +:+ "#builtin") in
  let sig := identifier_source spelling in
  spec (getNodeIdForBuiltinType spelling) o (fun a o' =>
    a = id
    /\ stderr_ o' = stderr_ o ++ [LogError ("Missing builtin " +:+ spelling)]
    /\ recorder_ o'
       = recorder_ o ++ [AddNodeKind (VNameRefFromNodeId id) kBuiltin;
                         AddMarkedSourceFact (VNameRefFromNodeId id) sig]
    /\ builtins_ o' = <[spelling := mkBuiltin id sig true]> (builtins_ o)).
Proof.
  intros E F id sig. unfold getNodeIdForBuiltinType.
  apply spec_bind, spec_get. rewrite E, F.
  do 5 spec_auto. apply spec_bind.
  unfold EmitBuiltin. apply spec_bind, spec_get.
  cbn [builtins_ set_builtins_ set_stderr_]. unfold emplace. rewrite E.
  rewrite lookup_insert_eq. spec_run.
  cbn. rewrite insert_insert_eq, <- app_assoc. done.
Qed.

Lemma getNodeIdForBuiltinType_memoized o spelling b :
  builtins_ o !! spelling = Some b -> emitted b = true ->
  getNodeIdForBuiltinType spelling o = Done (node_id b) o.
Proof.
  intros E F. unfold getNodeIdForBuiltinType, bind, get. rewrite E, F.
  reflexivity.
Qed.

(** An emitted builtin stays in the registry when another spelling is asked
    for. *)
Lemma getNodeIdForBuiltinType_keeps_emitted o spelling other b :
  builtins_ o !! spelling = Some b -> emitted b = true ->
  match getNodeIdForBuiltinType other o with
  | Done _ o' => builtins_ o' !! spelling = Some b
  | Stopped _ => True
  end.
Proof.
  intros E F. unfold getNodeIdForBuiltinType, bind, get.
  destruct (builtins_ o !! other) as [info|] eqn:Eo.
  - destruct (emitted info) eqn:Ei; simpl; [done|].
    unfold EmitBuiltin, bind, get. rewrite Eo. simpl.
    destruct (decide (other = spelling)) as [->|Hne].
    + rewrite E in Eo. injection Eo as <-. congruence.
    + by rewrite lookup_insert_ne.
  - destruct (FLAGS_fail_on_unimplemented_builtin o); simpl; [done|].
    unfold EmitBuiltin, bind, get, emplace. simpl. rewrite Eo.
    rewrite lookup_insert_eq. simpl.
    assert (other <> spelling) by congruence.
    by rewrite !lookup_insert_ne.
Qed.

(** C9: for a spelling absent from [builtins_], strict mode stops the run with
    a fatal log line; lenient mode logs an error, returns the uncompressed
    NodeId [spelling ++ "#builtin"] under the default token, emits its two
    facts once and memoizes it as emitted; every later call with that
    spelling, whatever other spellings were asked for in between, returns the
    same NodeId and leaves the recorder (and the whole observer) as it was. *)
Theorem unknown_builtin_synthesized_once o spelling :
  builtins_ o !! spelling = None ->
  let id := CreateUncompressed (default_token_ o) (spelling +:+ "#builtin") in
  let sig := identifier_source spelling in
  (FLAGS_fail_on_unimplemented_builtin o = true ->
   getNodeIdForBuiltinType spelling o
   = Stopped (LogFatal ("Missing builtin " +:+ spelling)))
  /\ (FLAGS_fail_on_unimplemented_builtin o = false ->
      exists o',
        getNodeIdForBuiltinType spelling o = Done id o'
        /\ IdentityRef id = spelling +:+ "#builtin"
        /\ stderr_ o'
           = stderr_ o ++ [LogError ("Missing builtin " +:+ spelling)]
        /\ recorder_ o'
           = recorder_ o ++ [AddNodeKind (VNameRefFromNodeId id) kBuiltin;
                             AddMarkedSourceFact (VNameRefFromNodeId id) sig]
        /\ builtins_ o' !! spelling = Some (mkBuiltin id sig true)
        /\ getNodeIdForBuiltinType spelling o' = Done id o')
  /\ (forall o2 b,
        builtins_ o2 !! spelling = Some b -> emitted b = true ->
        getNodeIdForBuiltinType spelling o2 = Done (node_id b) o2
        /\ forall other,
             match getNodeIdForBuiltinType other o2 with
             | Done _ o3 => builtins_ o3 !! spelling = Some b
             | Stopped _ => True
             end).
Proof.
  intros E id sig. split; [|split].
  - intros F. by apply getNodeIdForBuiltinType_strict.
  - intros F.
    destruct (proj1 (spec_done _ _ _)
                (getNodeIdForBuiltinType_lenient o spelling E F))
      as (a & o' & Run & -> & Herr & Hrec & Hb).
    exists o'. fold id sig in Herr, Hrec, Hb.
    assert (Hl : builtins_ o' !! spelling = Some (mkBuiltin id sig true)).
    { rewrite Hb. apply lookup_insert_eq. }
    repeat split; try assumption.
    by apply (getNodeIdForBuiltinType_memoized o' spelling _ Hl).
  - intros o2 b Hl He. split.
    + by apply getNodeIdForBuiltinType_memoized.
    + intros other. by apply getNodeIdForBuiltinType_keeps_emitted.
Qed.



(** ** Deduplicated nodes and repeated edges *)

(** The edges [record_param_edges] records. *)
Fixpoint param_edges (from : VName) (params : list NodeId)
    (param_index shift : N) : list Fact :=
  match params with
  | [] => []
  | p :: rest =>
      AddEdgeOrd from kParam (VNameRefFromNodeId p)
        (wrap unsigned_bits (param_index + shift))
      :: param_edges from rest (param_index + 1) shift
  end.

Definition namespace_facts (node : NodeId) (ms : option MarkedSource)
  : list Fact :=
  let v := VNameRefFromNodeId node in
  [AddNodeKind v kPackage; AddPropertyStr v kSubkind "namespace"]
  ++ marked_source_facts v ms.

Definition nominal_facts (id : NodeId) (ms : option MarkedSource)
    (parent : option NodeId) : list Fact :=
  let v := VNameRefFromNodeId id in
  marked_source_facts v ms ++ [AddNodeKind v kTNominal]
  ++ match parent with
     | Some p => [AddEdge v kChildOf (VNameRefFromNodeId p)]
     | None => []
     end.

Definition tapp_facts (id tycon_id : NodeId) (params : list NodeId)
    (FirstDefaultParam : N) : list Fact :=
  let v := VNameRefFromNodeId id in
  [AddNodeKind v kTApp]
  ++ (if FirstDefaultParam <? N.of_nat (length params)
      then [AddPropertyNum v kParamDefault FirstDefaultParam] else [])
  ++ [AddEdgeOrd v kParam (VNameRefFromNodeId tycon_id) 0]
  ++ param_edges v params 0 1.

Definition doc_id_of (node : NodeId) (doc_text : string)
    (doc_links : list NodeId) : NodeId :=
  NodeId_ctor (getToken node)
    (CompressString (append_links doc_links doc_text) true).

Definition doc_facts (doc : NodeId) (doc_text : string)
    (doc_links : list NodeId) : list Fact :=
  let v := VNameRefFromNodeId doc in
  [AddNodeKind v kDoc; AddPropertyStr v kText doc_text]
  ++ param_edges v doc_links 0 0.

Definition documents_edge (doc node : NodeId) : Fact :=
  AddEdge (VNameRefFromNodeId doc) kDocuments (VNameRefFromNodeId node).

(** What a recording function leaves alone: the switches and tokens, and the
    deduplication sets, which only grow. *)
Definition grows (o o' : KytheGraphObserver) : Prop :=
  deferring_nodes_ o' = deferring_nodes_ o
  /\ type_token_ o' = type_token_ o
  /\ written_namespaces_ o ⊆ written_namespaces_ o'
  /\ written_types_ o ⊆ written_types_ o'
  /\ written_docs_ o ⊆ written_docs_ o'.

Lemma record_param_edges_spec from params i shift o :
  spec (record_param_edges from params i shift) o (fun _ o' =>
    o' = set_recorder_ (recorder_ o ++ param_edges from params i shift) o).
Proof.
  revert i o. induction params as [|p rest IH]; intros i o; simpl.
  - apply spec_ret. rewrite app_nil_r. by destruct o.
  - apply spec_bind, spec_record. eapply spec_mono; [apply IH|].
    intros _ o' ->. cbn. by rewrite <- app_assoc.
Qed.

Lemma gset_insert_spec `{Countable A} (x : A) (s : gset A) :
  gset_insert x s
  = (if decide (x ∈ s) then s else {[x]} ∪ s,
     if decide (x ∈ s) then false else true).
Proof. unfold gset_insert. by destruct (decide _). Qed.

Lemma recordNamespaceNode_spec o node ms :
  spec (recordNamespaceNode node ms) o (fun _ o' =>
    recorder_ o'
    = recorder_ o ++ (if decide (ToClaimedString node ∈ written_namespaces_ o)
                      then [] else namespace_facts node ms)
    /\ ToClaimedString node ∈ written_namespaces_ o'
    /\ grows o o').
Proof.
  unfold recordNamespaceNode. apply spec_bind, spec_get.
  rewrite gset_insert_spec. unfold namespace_facts, grows.
  destruct (decide _) as [In|Nin]; spec_run; cbn;
    rewrite <- ?app_assoc, ?app_nil_r; repeat split; try done; set_solver.
Qed.

Lemma claim_written_type_spec key o :
  spec (claim_written_type key) o (fun emit o' =>
    recorder_ o' = recorder_ o /\ grows o o'
    /\ (deferring_nodes_ o = true ->
        key ∈ written_types_ o'
        /\ emit = if decide (key ∈ written_types_ o) then false else true)).
Proof.
  unfold claim_written_type. apply spec_bind, spec_get. unfold grows.
  destruct (deferring_nodes_ o) eqn:D; simpl.
  - rewrite gset_insert_spec.
    destruct (decide _) as [In|Nin]; spec_run; cbn; rewrite ?D;
      repeat split; try done; set_solver.
  - apply spec_ret. repeat split; done.
Qed.


Lemma recordNominalTypeNode_spec o name_id ms parent :
  deferring_nodes_ o = true ->
  let id := nodeIdForNominalTypeNode o name_id in
  spec (recordNominalTypeNode name_id ms parent) o (fun a o' =>
    a = id
    /\ recorder_ o'
       = recorder_ o ++ (if decide (ToClaimedString id ∈ written_types_ o)
                         then [] else nominal_facts id ms parent)
    /\ ToClaimedString id ∈ written_types_ o'
    /\ grows o o').
Proof.
  intros D id. unfold recordNominalTypeNode. apply spec_bind, spec_get.
  fold id. apply spec_bind.
  eapply spec_mono; [apply claim_written_type_spec|].
  intros emit o1 (Rec & G & Hk). destruct (Hk D) as [In ->].
  unfold nominal_facts.
  destruct (decide _) as [Old|New]; spec_run; cbn;
    rewrite ?Rec, <- ?app_assoc, ?app_nil_r; repeat split; try done;
    apply G.
Qed.

Lemma recordTappNode_spec o tycon_id params FirstDefaultParam :
  deferring_nodes_ o = true ->
  (FirstDefaultParam <= N.of_nat (length params))%N ->
  let id := NodeId_ctor (type_token_ o) (tapp_identity tycon_id params) in
  spec (recordTappNode tycon_id params FirstDefaultParam) o (fun a o' =>
    a = id
    /\ recorder_ o'
       = recorder_ o
         ++ (if decide (ToClaimedString id ∈ written_types_ o) then []
             else tapp_facts id tycon_id params FirstDefaultParam)
    /\ ToClaimedString id ∈ written_types_ o'
    /\ grows o o').
Proof.
  intros D Hle id. unfold recordTappNode. apply spec_bind.
  apply spec_CHECK; [by apply N.leb_le|].
  apply spec_bind, spec_get. fold id. apply spec_bind.
  eapply spec_mono; [apply claim_written_type_spec|].
  intros emit o1 (Rec & G & Hk). destruct (Hk D) as [In ->].
  unfold tapp_facts.
  destruct (decide _) as [Old|New].
  { spec_run. rewrite app_nil_r. repeat split; try done; apply G. }
  unfold when. apply spec_bind. apply spec_bind, spec_record.
  apply spec_bind.
  destruct (FirstDefaultParam <? _); [apply spec_record|apply spec_ret];
    (apply spec_bind, spec_record;
     eapply spec_mono; [apply record_param_edges_spec|];
     intros _ o2 ->; apply spec_ret; cbn;
     rewrite ?Rec, <- ?app_assoc; repeat split; try done; apply G).
Qed.

Lemma recordDocumentationText_spec o node doc_text doc_links :
  let doc := doc_id_of node doc_text doc_links in
  spec (recordDocumentationText node doc_text doc_links) o (fun _ o' =>
    recorder_ o'
    = recorder_ o
      ++ (if decide (ToClaimedString doc ∈ written_docs_ o) then []
          else doc_facts doc doc_text doc_links)
      ++ [documents_edge doc node]
    /\ ToClaimedString doc ∈ written_docs_ o'
    /\ grows o o').
Proof.
  intros doc. unfold recordDocumentationText. apply spec_bind, spec_get.
  fold (doc_id_of node doc_text doc_links). fold doc.
  rewrite gset_insert_spec. unfold doc_facts, documents_edge, grows.
  destruct (decide _) as [Old|New].
  { spec_run; cbn; repeat split; try done. }
  unfold when. apply spec_bind, spec_modify. apply spec_bind.
  apply spec_bind, spec_record. apply spec_bind, spec_record.
  eapply spec_mono; [apply record_param_edges_spec|].
  intros _ o2 ->. apply spec_record. cbn.
  rewrite <- ?app_assoc. repeat split; try done; set_solver.
Qed.

Lemma times_record n f o :
  times n (record f) o
  = Done tt (set_recorder_ (recorder_ o ++ replicate n f) o).
Proof.
  revert o. induction n as [|n IH]; intros o; simpl.
  - rewrite app_nil_r. by destruct o.
  - unfold bind, record at 1, modify. rewrite IH. cbn.
    by rewrite <- app_assoc.
Qed.

Lemma emits_twice {A} (m : M A) o facts :
  spec m o (fun _ o1 =>
    recorder_ o1 = recorder_ o ++ facts
    /\ spec m o1 (fun _ o2 => recorder_ o2 = recorder_ o1)) ->
  emits m o facts /\ emits (bind m (fun _ => m)) o facts.
Proof.
  intros S. apply spec_done in S as (a1 & o1 & R1 & Rec1 & S2).
  apply spec_done in S2 as (a2 & o2 & R2 & Rec2).
  split.
  - by exists a1, o1.
  - exists a2, o2. rewrite (bind_Done _ _ _ _ _ R1). split; [done|].
    by rewrite Rec2.
Qed.

Lemma recordDocumentationText_again n o node doc_text doc_links :
  ToClaimedString (doc_id_of node doc_text doc_links) ∈ written_docs_ o ->
  emits (times n (recordDocumentationText node doc_text doc_links)) o
    (replicate n (documents_edge (doc_id_of node doc_text doc_links) node)).
Proof.
  revert o. induction n as [|n IH]; intros o In; simpl.
  - exists tt, o. by rewrite app_nil_r.
  - pose proof (recordDocumentationText_spec o node doc_text doc_links) as S.
    apply spec_done in S as ([] & o1 & R1 & Rec1 & In1 & _).
    rewrite decide_True in Rec1 by done.
    destruct (IH o1 In1) as ([] & o2 & R2 & Rec2).
    exists tt, o2. rewrite (bind_Done _ _ _ _ _ R1). split; [done|].
    rewrite Rec2, Rec1. by rewrite <- app_assoc.
Qed.

(** ** Type applications *)

(** The identity of a type application in the words of its description: the
    claimed string of the constructor, then the comma-joined claimed strings
    of the parameters between parentheses. *)
Definition tapp_identity_joined (tycon_id : NodeId) (params : list NodeId)
  : string :=
  ToClaimedString tycon_id +:+ "("
    +:+ String.concat "," (ToClaimedString <$> params) +:+ ")".

Lemma append_params_true params ostream :
  append_params params true ostream
  = ostream
    +:+ foldr String.append ""
          ((fun p => "," +:+ ToClaimedString p) <$> params).
Proof.
  revert ostream. induction params as [|p rest IH]; intros os.
  - simpl. by rewrite string_app_nil_r.
  - cbn [append_params fmap list_fmap foldr]. rewrite IH.
    by rewrite !string_app_assoc.
Qed.

Lemma comma_joined p rest :
  String.concat "," (ToClaimedString <$> p :: rest)
  = ToClaimedString p
    +:+ foldr String.append ""
          ((fun p => "," +:+ ToClaimedString p) <$> rest).
Proof.
  revert p. induction rest as [|q rest IH]; intros p.
  - simpl. by rewrite string_app_nil_r.
  - change (String.concat "," (ToClaimedString <$> p :: q :: rest))
      with (ToClaimedString p +:+ ","
            +:+ String.concat "," (ToClaimedString <$> q :: rest)).
    rewrite (IH q).
    change ((fun p => "," +:+ ToClaimedString p) <$> q :: rest)
      with (("," +:+ ToClaimedString q)
            :: ((fun p => "," +:+ ToClaimedString p) <$> rest)).
    cbn [foldr]. by rewrite !string_app_assoc.
Qed.

Lemma append_params_joined params ostream :
  append_params params false ostream
  = ostream +:+ String.concat "," (ToClaimedString <$> params).
Proof.
  destruct params as [|p rest]; [simpl; by rewrite string_app_nil_r|].
  cbn [append_params]. rewrite append_params_true, string_app_assoc.
  f_equal. symmetry. apply comma_joined.
Qed.

Lemma tapp_identity_eq tycon_id params :
  tapp_identity tycon_id params = tapp_identity_joined tycon_id params.
Proof.
  unfold tapp_identity, tapp_identity_joined.
  by rewrite append_params_joined, string_app_nil_l, !string_app_assoc.
Qed.

Lemma tapp_identity_swap tycon_id a b :
  tapp_identity tycon_id [a; b] = tapp_identity tycon_id [b; a] ->
  ToClaimedString a +:+ "," +:+ ToClaimedString b
  = ToClaimedString b +:+ "," +:+ ToClaimedString a.
Proof.
  rewrite !tapp_identity_eq. unfold tapp_identity_joined.
  change (String.concat "," (ToClaimedString <$> [a; b]))
    with (ToClaimedString a +:+ "," +:+ ToClaimedString b).
  change (String.concat "," (ToClaimedString <$> [b; a]))
    with (ToClaimedString b +:+ "," +:+ ToClaimedString a).
  intros E. apply string_app_inv_head in E.
  apply (string_app_inv_head "(") in E.
  destruct (string_app_eq_app _ _ _ _ E)
    as [[E' _]|[(c & r & _ & E2)|(c & r & _ & E2)]].
  - exact E'.
  - rewrite string_app_cons in E2. injection E2 as _ E2.
    destruct r; discriminate E2.
  - rewrite string_app_cons in E2. injection E2 as _ E2.
    destruct r; discriminate E2.
Qed.

Lemma record_param_edges_returns from params i shift o
    (Q : unit -> KytheGraphObserver -> Prop) :
  (forall o', Q tt o') -> spec (record_param_edges from params i shift) o Q.
Proof.
  intros HQ. eapply spec_mono; [apply record_param_edges_spec|]. by intros [].
Qed.

Lemma recordTappNode_returns o tycon_id params FirstDefaultParam :
  (FirstDefaultParam <= N.of_nat (length params))%N ->
  spec (recordTappNode tycon_id params FirstDefaultParam) o (fun id _ =>
    id = NodeId_ctor (type_token_ o) (tapp_identity tycon_id params)).
Proof.
  intros Hle. unfold recordTappNode. apply spec_bind.
  apply spec_CHECK; [by apply N.leb_le|].
  apply spec_bind, spec_get. apply spec_bind.
  eapply spec_mono; [apply claim_written_type_spec|].
  intros emit o1 _. apply spec_bind.
  destruct emit; [|by apply spec_ret]. unfold when.
  apply spec_bind, spec_record. apply spec_bind.
  destruct (_ <? _); [apply spec_record|apply spec_ret];
    (apply spec_bind, spec_record; apply record_param_edges_returns;
     intros o'; by apply spec_ret).
Qed.

(** C6 (amended): [recordTappNode] returns the NodeId made of the type token
    and of the claimed string of the constructor followed by the comma-joined
    claimed strings of the parameters between parentheses.  For parameters
    [a] and [b] the identity strings of [f(a,b)] and [f(b,a)] are the same
    exactly when joining the two claimed strings with a comma gives the same
    string in both orders; they differ whenever the claimed strings differ
    and neither begins with the other followed by a comma.  When the identity
    strings differ so do the NodeIds, unless [CompressString] maps the two
    strings to one; when they are the same so are the NodeIds. *)
Theorem tapp_identity_order_sensitive o tycon_id :
  (forall params FirstDefaultParam,
     (FirstDefaultParam <= N.of_nat (length params))%N ->
     exists o',
       recordTappNode tycon_id params FirstDefaultParam o
       = Done (NodeId_ctor (type_token_ o)
                 (tapp_identity_joined tycon_id params)) o')
  /\ (forall a b,
        let ab := tapp_identity_joined tycon_id [a; b] in
        let ba := tapp_identity_joined tycon_id [b; a] in
        (ab = ba
         <-> ToClaimedString a +:+ "," +:+ ToClaimedString b
             = ToClaimedString b +:+ "," +:+ ToClaimedString a)
        /\ (ToClaimedString a <> ToClaimedString b ->
            String.prefix (ToClaimedString a +:+ ",") (ToClaimedString b)
            = false ->
            String.prefix (ToClaimedString b +:+ ",") (ToClaimedString a)
            = false ->
            ab <> ba)
        /\ (ab <> ba ->
            (CompressString ab false = CompressString ba false -> ab = ba) ->
            NodeId_ctor (type_token_ o) ab <> NodeId_ctor (type_token_ o) ba)
        /\ (ab = ba ->
            NodeId_ctor (type_token_ o) ab = NodeId_ctor (type_token_ o) ba)).
Proof.
  split.
  - intros params fdp Hle.
    destruct (proj1 (spec_done _ _ _)
                (recordTappNode_returns o tycon_id params fdp Hle))
      as (id & o' & Run & ->).
    exists o'. by rewrite Run, tapp_identity_eq.
  - intros a b ab ba.
    assert (Swap : ab = ba
                   -> ToClaimedString a +:+ "," +:+ ToClaimedString b
                      = ToClaimedString b +:+ "," +:+ ToClaimedString a).
    { unfold ab, ba. rewrite <- !tapp_identity_eq. apply tapp_identity_swap. }
    split; [|split; [|split]].
    + split; [exact Swap|]. intros E. unfold ab, ba, tapp_identity_joined.
      change (String.concat "," (ToClaimedString <$> [a; b]))
        with (ToClaimedString a +:+ "," +:+ ToClaimedString b).
      change (String.concat "," (ToClaimedString <$> [b; a]))
        with (ToClaimedString b +:+ "," +:+ ToClaimedString a).
      by rewrite E.
    + intros Hne Hab Hba E. apply Swap, comma_swap in E.
      destruct E as [E|[E|E]]; congruence.
    + intros D Inj [= E]. auto.
    + by intros ->.
Qed.



(** ** Anchors and claims *)

Definition is_edge (f : Fact) : Prop :=
  match f with AddEdge _ _ _ => True | _ => False end.

(** The facts that describe an anchor node. *)
Definition anchor_facts (anchor_name : VName) (range : Range) : list Fact :=
  [AddNodeKind anchor_name kAnchor]
  ++ (if bool_decide (Kind range = Implicit)
      then [AddPropertyStr anchor_name kSubkind "implicit"]
      else [AddPropertyNum anchor_name kLocationStartOffset
              (getFileOffset (resolved (getBegin (PhysicalRange range))));
            AddPropertyNum anchor_name kLocationEndOffset
              (getFileOffset (resolved (getEnd (PhysicalRange range))))])
  ++ (if bool_decide (Kind range = Wraith)
      then [AddEdge anchor_name kChildOfContext
              (VNameRefFromNodeId (Context range))]
      else []).

(** What [RecordRange] passes on: the anchor's facts, unless nodes are
    deferred and the range was recorded before. *)
Definition range_facts (o : KytheGraphObserver) (anchor_name : VName)
    (range : Range) : list Fact :=
  if deferring_nodes_ o && bool_decide (range ∈ deferred_anchors_ o)
  then [] else anchor_facts anchor_name range.

Lemma RecordRange_spec o anchor_name range :
  spec (RecordRange anchor_name range) o (fun _ o' =>
    recorder_ o' = recorder_ o ++ range_facts o anchor_name range).
Proof.
  unfold RecordRange, range_facts, anchor_facts, RecordSourceLocation,
    list_set_insert.
  apply spec_bind, spec_get. fold (resolved (getBegin (PhysicalRange range))).
  fold (resolved (getEnd (PhysicalRange range))).
  destruct (deferring_nodes_ o); cbn [negb andb].
  - destruct (decide (range ∈ deferred_anchors_ o)) as [In|Nin].
    + rewrite (bool_decide_eq_true_2 (range ∈ deferred_anchors_ o)) by done.
      spec_run. cbn. by rewrite app_nil_r.
    + rewrite (bool_decide_eq_false_2 (range ∈ deferred_anchors_ o)) by done.
      destruct (bool_decide (Kind range = Implicit)),
        (bool_decide (Kind range = Wraith));
        spec_run; cbn; by rewrite <- ?app_assoc.
  - destruct (bool_decide (Kind range = Implicit)),
      (bool_decide (Kind range = Wraith));
      spec_run; cbn; by rewrite <- ?app_assoc.
Qed.

(** Only edges are added to the recorder. *)
Definition adds_edges (o o' : KytheGraphObserver) : Prop :=
  exists edges, recorder_ o' = recorder_ o ++ edges /\ Forall is_edge edges.

#[local] Instance adds_edges_preorder : PreOrder adds_edges.
Proof.
  split.
  - intros o. exists []. by rewrite app_nil_r.
  - intros o1 o2 o3 (e1 & E1 & F1) (e2 & E2 & F2). exists (e1 ++ e2).
    rewrite E2, E1, app_assoc. split; [done|]. by apply Forall_app.
Qed.

Lemma MetaHookDefines_adds_edges meta anchor range_begin range_end def :
  keeps adds_edges (MetaHookDefines meta anchor range_begin range_end def).
Proof.
  unfold MetaHookDefines. apply keeps_for_each; [apply _|]. intros rule.
  apply keeps_when; [apply _|].
  destruct (of_spelling _).
  - destruct (reverse_edge rule); intros o; apply spec_record;
      (eexists [_]; split; [reflexivity|]; by repeat constructor).
  - intros o. apply spec_diagnose. exists []. by rewrite app_nil_r.
Qed.

(** The part of [RecordAnchor] that follows the anchoring edge. *)
Lemma RecordAnchor_metadata_adds_edges source_range anchor_name
    primary_anchored_to (anchor_edge_kind : EdgeKindID) :
  keeps adds_edges
    (when (bool_decide (Kind source_range = Physical))
       (when (bool_decide (anchor_edge_kind = kDefinesBinding))
          (bind get (fun o =>
           let def_file := getFileID (getBegin (PhysicalRange source_range)) in
           let metas := equal_range (meta_ o) def_file in
           when (negb (bool_decide (metas = [])))
             (let begin := getBegin (PhysicalRange source_range) in
              let begin :=
                if isMacroID begin then getExpansionLoc begin else begin in
              let end_ := getEnd (PhysicalRange source_range) in
              let end_ :=
                if isMacroID end_ then getExpansionLoc end_ else end_ in
              let range_begin := getFileOffset begin in
              let range_end := getFileOffset end_ in
              for_each metas (fun meta =>
                MetaHookDefines meta anchor_name range_begin range_end
                  (VNameRefFromNodeId primary_anchored_to))))))).
Proof.
  do 2 (apply keeps_when; [apply _|]).
  apply keeps_bind; [apply _|apply keeps_get; apply _|]. intros o.
  apply keeps_when; [apply _|]. apply keeps_for_each; [apply _|].
  intros meta. apply MetaHookDefines_adds_edges.
Qed.



Lemma spec_adds_edges {A} (m : M A) o :
  keeps adds_edges m ->
  spec m o (fun _ o' =>
    exists edges, recorder_ o' = recorder_ o ++ edges /\ Forall is_edge edges).
Proof. intros K. apply K. Qed.

(** [RecordAnchor] once the redundancy filter has let the edge through, run
    from an observer [o1] that differs from [o] in [range_edges_] at most. *)
Lemma RecordAnchor_body_spec o o1 source_range primary_anchored_to
    anchor_edge_kind cl anchor_name range_claimed :
  VNameFromRange o1 source_range = inr anchor_name ->
  claimRange o1 source_range = inr range_claimed ->
  recorder_ o1 = recorder_ o ->
  range_facts o1 anchor_name source_range
  = range_facts o anchor_name source_range ->
  let edge :=
    AddEdge anchor_name anchor_edge_kind
      (VNameRefFromNodeId primary_anchored_to) in
  spec
    (bind get (fun o =>
     bind (lift (VNameFromRange o source_range)) (fun anchor_name =>
     bind (lift (claimRange o source_range)) (fun range_claimed =>
     bind (if range_claimed || claimNode primary_anchored_to
           then bind (RecordRange anchor_name source_range)
                  (fun _ => ret Unclaimable)
           else ret cl) (fun cl =>
     when (bool_decide (cl = Unclaimable))
       (bind (record (AddEdge anchor_name anchor_edge_kind
                        (VNameRefFromNodeId primary_anchored_to))) (fun _ =>
        when (bool_decide (Kind source_range = Physical))
          (when (bool_decide (anchor_edge_kind = kDefinesBinding))
             (bind get (fun o =>
              let def_file :=
                getFileID (getBegin (PhysicalRange source_range)) in
              let metas := equal_range (meta_ o) def_file in
              when (negb (bool_decide (metas = [])))
                (let begin := getBegin (PhysicalRange source_range) in
                 let begin :=
                   if isMacroID begin then getExpansionLoc begin
                   else begin in
                 let end_ := getEnd (PhysicalRange source_range) in
                 let end_ :=
                   if isMacroID end_ then getExpansionLoc end_ else end_ in
                 let range_begin := getFileOffset begin in
                 let range_end := getFileOffset end_ in
                 for_each metas (fun meta =>
                   MetaHookDefines meta anchor_name range_begin range_end
                     (VNameRefFromNodeId primary_anchored_to)))))))))))))
    o1
    (fun _ o' =>
       exists metadata_edges,
         Forall is_edge metadata_edges
         /\ recorder_ o'
            = recorder_ o
              ++ (if range_claimed || claimNode primary_anchored_to
                  then range_facts o anchor_name source_range
                       ++ edge :: metadata_edges
                  else match cl with
                       | Claimable => []
                       | Unclaimable => edge :: metadata_edges
                       end)).
Proof.
  intros Hname Hclaim Hrec Hfacts edge.
  apply spec_bind, spec_get. rewrite Hname, Hclaim. apply spec_bind.
  apply (spec_lift _ anchor_name); [done|]. apply spec_bind.
  apply (spec_lift _ range_claimed); [done|].
  assert (Tail : forall o2,
    spec
      (when (bool_decide (Unclaimable = Unclaimable))
         (bind (record edge) (fun _ =>
          when (bool_decide (Kind source_range = Physical))
            (when (bool_decide (anchor_edge_kind = kDefinesBinding))
               (bind get (fun o =>
                let def_file :=
                  getFileID (getBegin (PhysicalRange source_range)) in
                let metas := equal_range (meta_ o) def_file in
                when (negb (bool_decide (metas = [])))
                  (let begin := getBegin (PhysicalRange source_range) in
                   let begin :=
                     if isMacroID begin then getExpansionLoc begin
                     else begin in
                   let end_ := getEnd (PhysicalRange source_range) in
                   let end_ :=
                     if isMacroID end_ then getExpansionLoc end_
                     else end_ in
                   let range_begin := getFileOffset begin in
                   let range_end := getFileOffset end_ in
                   for_each metas (fun meta =>
                     MetaHookDefines meta anchor_name range_begin range_end
                       (VNameRefFromNodeId primary_anchored_to)))))))))
      o2
      (fun _ o' => exists metadata_edges,
         Forall is_edge metadata_edges
         /\ recorder_ o' = recorder_ o2 ++ edge :: metadata_edges)).
  { intros o2. rewrite bool_decide_eq_true_2 by done. unfold when at 1.
    apply spec_bind, spec_record.
    eapply spec_mono;
      [apply (RecordAnchor_metadata_adds_edges source_range anchor_name
                primary_anchored_to anchor_edge_kind)|].
    intros ? o3 (edges & E & F). exists edges. split; [done|].
    rewrite E. cbn. by rewrite <- app_assoc. }
  destruct (range_claimed || claimNode primary_anchored_to).
  - apply spec_bind. apply spec_bind.
    eapply spec_mono; [apply RecordRange_spec|].
    intros ? o2 Rec2. apply spec_ret.
    eapply spec_mono; [apply Tail|].
    intros ? o3 (edges & F & E). exists edges. split; [done|].
    rewrite E, Rec2, Hrec, Hfacts. by rewrite <- app_assoc.
  - apply spec_bind, spec_ret. destruct cl.
    + rewrite bool_decide_eq_false_2 by done. apply spec_ret.
      exists []. split; [done|]. by rewrite app_nil_r.
    + eapply spec_mono; [apply Tail|].
      intros ? o3 (edges & F & E). exists edges. split; [done|].
      by rewrite E, Hrec.
Qed.


Lemma RecordAnchorVName_spec o source_range target anchor_edge_kind cl
    anchor_name range_claimed :
  file_stack_ o <> [] ->
  VNameFromRange o source_range = inr anchor_name ->
  claimRange o source_range = inr range_claimed ->
  let edge := AddEdge anchor_name anchor_edge_kind target in
  emits (RecordAnchorVName source_range target anchor_edge_kind cl) o
    (if range_claimed
     then range_facts o anchor_name source_range ++ [edge]
     else match cl with Claimable => [] | Unclaimable => [edge] end).
Proof.
  intros Hstack Hname Hclaim edge. apply spec_done with (Q := fun _ o' => _).
  unfold RecordAnchorVName. apply spec_bind, spec_get. apply spec_bind.
  apply spec_CHECK.
  { by rewrite bool_decide_eq_false_2. }
  rewrite Hname, Hclaim. apply spec_bind.
  apply (spec_lift _ anchor_name); [done|]. apply spec_bind.
  apply (spec_lift _ range_claimed); [done|]. apply spec_bind.
  destruct range_claimed.
  - apply spec_bind. eapply spec_mono; [apply RecordRange_spec|].
    intros ? o2 Rec2. apply spec_ret.
    rewrite bool_decide_eq_true_2 by done. unfold when.
    apply spec_record. cbn. by rewrite Rec2, <- app_assoc.
  - apply spec_ret. destruct cl.
    + rewrite bool_decide_eq_false_2 by done. apply spec_ret.
      by rewrite app_nil_r.
    + rewrite bool_decide_eq_true_2 by done. by apply spec_record.
Qed.

(** ** The file stack *)

(** The deduplication sets other than [deferred_anchors_] lose no entry. *)
Definition dedup_kept (o o' : KytheGraphObserver) : Prop :=
  range_edges_ o' = range_edges_ o
  /\ written_namespaces_ o' = written_namespaces_ o
  /\ written_types_ o' = written_types_ o
  /\ written_docs_ o' = written_docs_ o
  /\ recorded_files_ o ⊆ recorded_files_ o'.

(** The depth of the stack and the deduplication sets are as before. *)
Definition depth_kept (o o' : KytheGraphObserver) : Prop :=
  length (file_stack_ o') = length (file_stack_ o)
  /\ deferred_anchors_ o' = deferred_anchors_ o
  /\ dedup_kept o o'.

#[local] Instance dedup_kept_preorder : PreOrder dedup_kept.
Proof.
  split.
  - intros o. by repeat split.
  - intros o1 o2 o3 (A1 & B1 & C1 & D1 & E1) (A2 & B2 & C2 & D2 & E2).
    repeat split; try congruence. by etrans.
Qed.

#[local] Instance depth_kept_preorder : PreOrder depth_kept.
Proof.
  split.
  - intros o. by repeat split.
  - intros o1 o2 o3 (A1 & B1 & C1) (A2 & B2 & C2).
    split; [congruence|]. split; [congruence|]. by etrans.
Qed.

Lemma length_update_back f stack :
  length (update_back f stack) = length stack.
Proof.
  induction stack as [|s [|s' rest] IH]; simpl in *; auto.
Qed.

Lemma update_back_snoc f stack s :
  update_back f (stack ++ [s]) = stack ++ [f s].
Proof.
  induction stack as [|s0 rest IH]; [done|].
  simpl. rewrite IH. by destruct rest.
Qed.

Lemma depth_kept_set_state f : keeps depth_kept (set_state f).
Proof.
  apply keeps_modify. intros o. unfold depth_kept, dedup_kept. cbn.
  repeat apply conj; try done. apply length_update_back.
Qed.

Ltac depth_kept_field :=
  intros ?; unfold depth_kept, dedup_kept; cbn; by repeat apply conj.

Ltac keeps_auto :=
  lazymatch goal with
  | |- keeps _ (bind _ _) => apply keeps_bind; [apply _| |intros ?]
  | |- keeps _ (ret _) => apply keeps_ret; apply _
  | |- keeps _ get => apply keeps_get; apply _
  | |- keeps _ get_state => unfold get_state
  | |- keeps _ (set_state _) => apply depth_kept_set_state
  | |- keeps _ (when _ _) => apply keeps_when; [apply _|]
  | |- keeps _ (record _) => apply keeps_modify; depth_kept_field
  | |- keeps _ (diagnose _) => apply keeps_modify; depth_kept_field
  | |- keeps _ (modify _) => apply keeps_modify; depth_kept_field
  | |- keeps _ (if ?c then _ else _) => destruct c
  | |- keeps _ (match ?x with _ => _ end) => destruct x eqn:?
  end.

Lemma lookup_context_depth_kept previous_uid previous_context offset :
  keeps depth_kept (lookup_context previous_uid previous_context offset).
Proof. unfold lookup_context. repeat keeps_auto. Qed.

Lemma insert_recorded_file_depth_kept entry :
  keeps depth_kept (insert_recorded_file entry).
Proof.
  intros o. unfold spec, insert_recorded_file, list_set_insert.
  destruct (decide _); unfold depth_kept, dedup_kept; cbn;
    repeat apply conj; try done. set_solver.
Qed.

Lemma pushFile_entry_depth_kept blame_location source_location file entry
    previous_context has_previous_uid previous_uid in_header :
  keeps depth_kept
    (pushFile_entry blame_location source_location file entry
       previous_context has_previous_uid previous_uid in_header).
Proof.
  unfold pushFile_entry. repeat keeps_auto.
  - apply lookup_context_depth_kept.
  - apply insert_recorded_file_depth_kept.
Qed.


Lemma pushFile_spec blame_location source_location o :
  spec (pushFile blame_location source_location) o (fun _ o' =>
    length (file_stack_ o') = S (length (file_stack_ o))
    /\ deferred_anchors_ o' = deferred_anchors_ o
    /\ dedup_kept o o').
Proof.
  assert (K : forall (m : M unit) o1,
            keeps depth_kept m ->
            deferred_anchors_ o1 = deferred_anchors_ o ->
            dedup_kept o o1 ->
            length (file_stack_ o1) = S (length (file_stack_ o)) ->
            spec m o1 (fun _ o' =>
              length (file_stack_ o') = S (length (file_stack_ o))
              /\ deferred_anchors_ o' = deferred_anchors_ o
              /\ dedup_kept o o')).
  { intros m o1 Km D1 G1 L1. eapply spec_mono; [apply Km|].
    intros ? o2 (L2 & D2 & G2). cbn in *.
    split; [congruence|]. split; [congruence|]. by etrans. }
  unfold pushFile. apply spec_bind, spec_get.
  apply spec_bind, spec_modify. apply spec_bind, spec_modify.
  apply K.
  - apply keeps_when; [apply _|].
    fold (resolved source_location). rewrite resolved_isFileID.
    apply keeps_bind; [apply _|intros o1; by apply spec_ret|intros _].
    destruct (FileID_isInvalid _); [apply keeps_ret; apply _|].
    destruct (getFileEntryForID _ _);
      [apply pushFile_entry_depth_kept|apply keeps_ret; apply _].
  - done.
  - unfold dedup_kept. cbn. by repeat apply conj.
  - cbn. rewrite length_update_back, length_app. simpl. apply Nat.add_1_r.
Qed.

Lemma popFile_spec o :
  file_stack_ o <> [] ->
  spec popFile o (fun _ o' =>
    file_stack_ o' = removelast (file_stack_ o)
    /\ deferred_anchors_ o'
       = (if decide (length (file_stack_ o) = 1%nat) then []
          else deferred_anchors_ o)
    /\ dedup_kept o o').
Proof.
  intros Hne. unfold popFile. apply spec_bind, spec_get. apply spec_bind.
  apply spec_CHECK; [by rewrite bool_decide_eq_false_2|].
  apply spec_bind, spec_modify. apply spec_bind, spec_get.
  cbn [file_stack_ set_file_stack_].
  remember (file_stack_ o) as stack eqn:E.
  destruct stack as [|s [|s' rest]]; [done| |].
  - rewrite bool_decide_eq_true_2 by done. apply spec_modify.
    unfold dedup_kept. by cbn.
  - rewrite bool_decide_eq_false_2 by done. apply spec_ret.
    unfold dedup_kept. by cbn.
Qed.

Lemma popFile_empty o :
  file_stack_ o = [] ->
  popFile o = Stopped (CheckFailed "!file_stack_.empty()").
Proof. intros E. unfold popFile, bind, get. by rewrite E. Qed.

Lemma push_all_spec locations o :
  spec (push_all locations) o (fun _ o' =>
    length (file_stack_ o')
    = (length locations + length (file_stack_ o))%nat
    /\ deferred_anchors_ o' = deferred_anchors_ o
    /\ dedup_kept o o').
Proof.
  revert o. induction locations as [|[b s] rest IH]; intros o.
  - by apply spec_ret.
  - unfold push_all. simpl. apply spec_bind.
    eapply spec_mono; [apply pushFile_spec|].
    intros ? o1 (L1 & D1 & G1). eapply spec_mono; [apply IH|].
    intros ? o2 (L2 & D2 & G2). cbn in *.
    split; [lia|]. split; [congruence|]. by etrans.
Qed.

Lemma length_removelast_pred {A} (l : list A) :
  length (removelast l) = pred (length l).
Proof.
  induction l as [|x [|y l] IH]; [done..|].
  change (removelast (x :: y :: l)) with (x :: removelast (y :: l)).
  cbn [length]. by rewrite IH.
Qed.

Lemma pop_all_spec n o :
  length (file_stack_ o) = n ->
  (n = 0%nat -> deferred_anchors_ o = []) ->
  spec (times n popFile) o (fun _ o' =>
    file_stack_ o' = [] /\ deferred_anchors_ o' = [] /\ dedup_kept o o').
Proof.
  revert o. induction n as [|n IH]; intros o L D.
  - apply spec_ret. split; [by apply nil_length_inv|]. split; [auto|done].
  - simpl. apply spec_bind.
    eapply spec_mono; [apply popFile_spec|].
    { intros E. by rewrite E in L. }
    intros ? o1 (S1 & D1 & G1). cbn. eapply spec_mono; [apply IH|..].
    + by rewrite S1, length_removelast_pred, L.
    + intros ->. rewrite D1, decide_True by done. done.
    + intros ? o2 (S2 & D2 & G2). cbn in *.
      split; [done|]. split; [done|]. by etrans.
Qed.

(** C5: from an empty file stack, [N] calls of [pushFile] (with any
    locations) followed by [N] calls of [popFile] all return and leave the
    stack and [deferred_anchors_] empty; [popFile] empties
    [deferred_anchors_] exactly when it pops the last file and leaves it as it
    is otherwise, and neither function removes an entry of the other
    deduplication sets. *)
Theorem push_pop_nesting o locations :
  file_stack_ o = [] ->
  (locations = [] -> deferred_anchors_ o = []) ->
  (exists o1 o2,
     push_all locations o = Done tt o1
     /\ length (file_stack_ o1) = length locations
     /\ times (length locations) popFile o1 = Done tt o2
     /\ file_stack_ o2 = []
     /\ deferred_anchors_ o2 = []
     /\ dedup_kept o o2)
  /\ (forall o3,
        file_stack_ o3 <> [] ->
        exists o4,
          popFile o3 = Done tt o4
          /\ file_stack_ o4 = removelast (file_stack_ o3)
          /\ deferred_anchors_ o4
             = (if decide (length (file_stack_ o3) = 1%nat) then []
                else deferred_anchors_ o3)
          /\ dedup_kept o3 o4)
  /\ (forall b s o3,
        exists o4,
          pushFile b s o3 = Done tt o4
          /\ length (file_stack_ o4) = S (length (file_stack_ o3))
          /\ deferred_anchors_ o4 = deferred_anchors_ o3
          /\ dedup_kept o3 o4).
Proof.
  intros Hempty Hdef. split; [|split].
  - destruct (proj1 (spec_done _ _ _) (push_all_spec locations o))
      as ([] & o1 & Run1 & L1 & D1 & G1).
    rewrite Hempty, Nat.add_0_r in L1.
    destruct (proj1 (spec_done _ _ _)
                (pop_all_spec (length locations) o1 L1
                   (fun E => eq_trans D1 (Hdef (nil_length_inv _ E)))))
      as ([] & o2 & Run2 & S2 & D2 & G2).
    exists o1, o2. do 5 (split; [done|]). by etrans.
  - intros o3 Hne.
    destruct (proj1 (spec_done _ _ _) (popFile_spec o3 Hne))
      as ([] & o4 & Run & P). by exists o4.
  - intros b s o3.
    destruct (proj1 (spec_done _ _ _) (pushFile_spec b s o3))
      as ([] & o4 & Run & P). by exists o4.
Qed.


(** ** The context of an included file *)

(** The log, the context table and the context of the file on top of the
    stack are as before. *)
Definition context_kept (o o' : KytheGraphObserver) : Prop :=
  stderr_ o' = stderr_ o
  /\ path_to_context_data_ o' = path_to_context_data_ o
  /\ vfs_ o' = vfs_ o
  /\ forall stack state,
       file_stack_ o = stack ++ [state] ->
       exists state',
         file_stack_ o' = stack ++ [state'] /\ context state' = context state.

#[local] Instance context_kept_preorder : PreOrder context_kept.
Proof.
  split.
  - intros o. repeat apply conj; try done. eauto.
  - intros o1 o2 o3 (A1 & B1 & C1 & D1) (A2 & B2 & C2 & D2).
    repeat apply conj; try congruence.
    intros stack st E. destruct (D1 _ _ E) as (st1 & E1 & X1).
    destruct (D2 _ _ E1) as (st2 & E2 & X2). exists st2. split; congruence.
Qed.

Lemma context_kept_set_state f :
  (forall s, context (f s) = context s) -> keeps context_kept (set_state f).
Proof.
  intros Hf. apply keeps_modify. intros o. unfold context_kept. cbn.
  repeat apply conj; try done. intros stack st ->.
  rewrite update_back_snoc. eauto.
Qed.

Ltac context_kept_field :=
  intros ?; unfold context_kept; cbn; repeat apply conj; try done; eauto.

Ltac keeps_context :=
  lazymatch goal with
  | |- keeps _ (bind _ _) => apply keeps_bind; [apply _| |intros ?]
  | |- keeps _ (ret _) => apply keeps_ret; apply _
  | |- keeps _ get => apply keeps_get; apply _
  | |- keeps _ get_state => unfold get_state
  | |- keeps _ (set_state _) => apply context_kept_set_state; by intros []
  | |- keeps _ (when _ _) => apply keeps_when; [apply _|]
  | |- keeps _ (record _) => apply keeps_modify; context_kept_field
  | |- keeps _ (modify _) => apply keeps_modify; context_kept_field
  | |- keeps _ (if ?c then _ else _) => destruct c
  | |- keeps _ (match ?x with _ => _ end) => destruct x eqn:?
  end.

Lemma insert_recorded_file_context_kept entry :
  keeps context_kept (insert_recorded_file entry).
Proof.
  intros o. unfold spec, insert_recorded_file, list_set_insert.
  destruct (decide _); unfold context_kept; cbn;
    repeat apply conj; try done; eauto.
Qed.

Lemma spec_of_keeps {A} R (m : M A) o (Q : A -> KytheGraphObserver -> Prop) :
  keeps R m -> (forall a o', R o o' -> Q a o') -> spec m o Q.
Proof. intros K HQ. eapply spec_mono; [apply K|]. auto. Qed.

(** The destination context recorded for an inclusion at [offset] of the file
    [uid] read under [ctx], if any. *)
Definition context_entry (o : KytheGraphObserver) (uid : UniqueID)
    (ctx : string) (offset : N) : option string :=
  path_info ← path_to_context_data_ o !! uid;
  context_info ← path_info !! ctx;
  context_info !! offset.

(** The warning for the first level of the table that misses. *)
Definition missing_level (o : KytheGraphObserver) (uid : UniqueID)
    (ctx : string) (offset : N) : Diagnostic :=
  let name := get_debug_uid_string (vfs_ o) uid in
  match path_to_context_data_ o !! uid with
  | None => MissingSourcePath name ctx offset
  | Some path_info =>
      match path_info !! ctx with
      | None => MissingSourceContext name ctx offset
      | Some _ => MissingSourceOffset name ctx offset
      end
  end.

Lemma lookup_context_miss o uid ctx offset :
  context_entry o uid ctx offset = None ->
  lookup_context uid ctx offset o
  = Done tt (set_stderr_ (stderr_ o ++ [missing_level o uid ctx offset]) o).
Proof.
  unfold context_entry, lookup_context, missing_level, bind, get.
  destruct (path_to_context_data_ o !! uid) as [pi|]; simpl; [|done].
  destruct (pi !! ctx) as [ci|]; simpl; [|done].
  by intros ->.
Qed.


Lemma spec_keeps_bind R `{!PreOrder R} {A B} (m : M A) (k : A -> M B) o0 o1
    (Q : B -> KytheGraphObserver -> Prop) :
  R o0 o1 -> keeps R m ->
  (forall a o2, R o0 o2 -> spec (k a) o2 Q) ->
  spec (bind m k) o1 Q.
Proof.
  intros R1 Km Hk. apply spec_bind. eapply spec_mono; [apply Km|].
  intros a o2 R2. apply Hk. by etrans.
Qed.

Lemma pushFile_entry_miss o stack parent state blame_location source_location
    file entry previous_context previous_uid in_header :
  file_stack_ o = stack ++ [parent; state] ->
  empty previous_context = false ->
  isValid blame_location = true ->
  isFileID blame_location = true ->
  context_entry o previous_uid previous_context (getFileOffset blame_location)
  = None ->
  spec
    (pushFile_entry blame_location source_location file entry
       previous_context true previous_uid in_header)
    o
    (fun _ o' =>
       stderr_ o'
       = stderr_ o
         ++ [missing_level o previous_uid previous_context
               (getFileOffset blame_location)]
       /\ exists state',
            file_stack_ o' = stack ++ [parent; state']
            /\ context state' = context state).
Proof.
  intros Hstack Hctx Hvalid Hfile Hmiss. unfold pushFile_entry.
  apply spec_bind, spec_get.
  eapply (spec_keeps_bind context_kept _ _ o o);
    [reflexivity|repeat keeps_context|intros ? o1 R1].
  eapply (spec_keeps_bind context_kept _ _ o o1);
    [exact R1|repeat keeps_context|clear o1 R1; intros ? o1 R1].
  eapply (spec_keeps_bind context_kept _ _ o o1);
    [exact R1|repeat keeps_context|clear o1 R1; intros ? o1 R1].
  eapply (spec_keeps_bind context_kept _ _ o o1);
    [exact R1|repeat keeps_context|clear o1 R1; intros ? o1 R1].
  apply spec_bind, spec_get.
  destruct R1 as (E1 & P1 & V1 & S1).
  destruct (S1 (stack ++ [parent]) state) as (st1 & Est1 & Cst1).
  { by rewrite Hstack, <- app_assoc. }
  rewrite bool_decide_eq_false_2.
  2:{ rewrite Est1, !length_app. simpl. lia. }
  rewrite Hctx, Hvalid, Hfile. cbn [negb andb].
  apply spec_bind. unfold spec at 1. rewrite lookup_context_miss.
  2:{ unfold context_entry. by rewrite P1. }
  apply (spec_of_keeps context_kept); [repeat keeps_context|].
  - apply insert_recorded_file_context_kept.
  - intros ? o3 (E3 & P3 & V3 & S3). cbn in E3, S3.
    destruct (S3 _ _ Est1) as (st3 & Est3 & Cst3).
    split.
    + rewrite E3, E1. unfold missing_level. by rewrite P1, V1.
    + exists st3. rewrite Est3, <- app_assoc. split; [done|congruence].
Qed.


(** C2 (amended): when a file is pushed on top of a parent whose context is
    not empty, from a valid file location of the parent, and the context
    table has no entry for (parent, context, offset), [pushFile] returns, logs
    the warning of the level that missed, and leaves the context of the new
    [FileState] empty, as [FileState{}] made it: it is not the parent's
    context. *)
Theorem included_file_context_on_miss o stack parent blame_location
    source_location entry :
  file_stack_ o = stack ++ [parent] ->
  empty (context parent) = false ->
  isValid source_location = true ->
  FileID_isInvalid (getFileID (resolved source_location)) = false ->
  getFileEntryForID (SourceManager o) (getFileID (resolved source_location))
  = Some entry ->
  isValid blame_location = true ->
  isFileID blame_location = true ->
  context_entry o (uid parent) (context parent) (getFileOffset blame_location)
  = None ->
  exists o' state,
    pushFile blame_location source_location o = Done tt o'
    /\ file_stack_ o' = stack ++ [parent; state]
    /\ context state = ""
    /\ context state <> context parent
    /\ stderr_ o'
       = stderr_ o
         ++ [missing_level o (uid parent) (context parent)
               (getFileOffset blame_location)].
Proof.
  intros Hstack Hctx Hsrc Hfid Hentry Hblame Hfile Hmiss.
  assert (S : spec (pushFile blame_location source_location) o (fun _ o' =>
    stderr_ o'
    = stderr_ o
      ++ [missing_level o (uid parent) (context parent)
            (getFileOffset blame_location)]
    /\ exists state',
         file_stack_ o' = stack ++ [parent; state']
         /\ context state' = "")).
  { unfold pushFile. apply spec_bind, spec_get.
    rewrite Hstack, last_snoc.
    rewrite (bool_decide_eq_false_2 (stack ++ [parent] = []))
      by (by destruct stack).
    cbn [negb andb].
    apply spec_bind, spec_modify. apply spec_bind, spec_modify.
    rewrite Hsrc. unfold when. fold (resolved source_location).
    rewrite resolved_isFileID. apply spec_bind.
    apply spec_CHECK; [done|]. rewrite Hfid, Hentry.
    eapply spec_mono.
    - apply (pushFile_entry_miss _ stack parent
               (set_claimed true FileState_default)); try done.
      cbn. rewrite Hstack, update_back_snoc, <- app_assoc. done.
    - intros ? o' (E & st & Est & Cst). split; [done|]. by exists st. }
  apply spec_done in S as ([] & o' & Run & E & st & Est & Cst).
  exists o', st. repeat split; try done.
  rewrite Cst. intros Heq. rewrite <- Heq in Hctx. discriminate Hctx.
Qed.


(** ** More on locations *)

(** The file entry behind a file-level location, if the location is valid. *)
Definition file_entry_at (sm : SourceManagerT) (l : SourceLocation)
  : option FileEntry :=
  if isValid l then getFileEntryForID sm (getFileID l) else None.

Lemma SearchForFileEntry_file loc sm :
  isMacroID loc = false -> SearchForFileEntry loc sm = file_entry_at sm loc.
Proof. destruct loc; simpl; [done..|discriminate]. Qed.

(** The search through the expansion history of a location ends at two
    places only: it returns the file entry of the expansion location if
    there is one, and otherwise the file entry of the spelling location. *)
Theorem SearchForFileEntry_expansion_then_spelling loc sm :
  SearchForFileEntry loc sm
  = match file_entry_at sm (getExpansionLoc loc) with
    | Some entry => Some entry
    | None => file_entry_at sm (getSpellingLoc loc)
    end.
Proof.
  destruct loc as [|f off|f off e s].
  - reflexivity.
  - simpl. unfold file_entry_at. simpl. by destruct (getFileEntryForID sm f).
  - cbn [SearchForFileEntry getExpansionLoc getSpellingLoc].
    assert (Ne : forall l, isMacroID l = false ->
                 bool_decide (l <> LocMacro f off e s) = true).
    { intros l Hl. apply bool_decide_eq_true_2. intros ->. discriminate Hl. }
    rewrite !Ne by (apply isMacroID_getExpansionLoc
                    || apply isMacroID_getSpellingLoc).
    rewrite !andb_true_r.
    rewrite !SearchForFileEntry_file by (apply isMacroID_getExpansionLoc
                                         || apply isMacroID_getSpellingLoc).
    unfold file_entry_at.
    destruct (isValid (getExpansionLoc e)); [|by destruct (isValid _)].
    destruct (getFileEntryForID sm (getFileID (getExpansionLoc e)));
      [done|]. by destruct (isValid _).
Qed.

Lemma find_posted_from file_id posted start :
  match find_posted file_id posted start with
  | Some i =>
      (start <= i)%N
      /\ posted !! N.to_nat (i - start) = Some file_id
      /\ file_id ∉ take (N.to_nat (i - start)) posted
  | None => file_id ∉ posted
  end.
Proof.
  revert start. induction posted as [|f rest IH]; intros start; simpl.
  - apply not_elem_of_nil.
  - destruct (decide (file_id = f)) as [->|Hne].
    + rewrite N.sub_diag. simpl. split; [lia|]. split; [done|].
      apply not_elem_of_nil.
    + specialize (IH (start + 1)%N).
      destruct (find_posted file_id rest (start + 1)) as [i|].
      * destruct IH as (Hle & Hl & Hn). split; [lia|].
        replace (N.to_nat (i - start)) with (S (N.to_nat (i - (start + 1))))
          by lia.
        simpl. split; [done|]. rewrite not_elem_of_cons. done.
      * rewrite not_elem_of_cons. done.
Qed.

Lemma find_posted_missing file_id posted :
  find_posted file_id posted 0 = None -> file_id ∉ posted.
Proof.
  intros E. pose proof (find_posted_from file_id posted 0) as F.
  by rewrite E in F.
Qed.

(** The back-reference [@.N] names a position of the list of file ids posted
    so far: [find_posted] returns the first position that holds the file id,
    and nothing exactly when the file id is not in the list. *)
Theorem find_posted_first_position file_id posted :
  match find_posted file_id posted 0 with
  | Some i =>
      posted !! N.to_nat i = Some file_id
      /\ file_id ∉ take (N.to_nat i) posted
  | None => file_id ∉ posted
  end.
Proof.
  pose proof (find_posted_from file_id posted 0) as F.
  destruct (find_posted file_id posted 0) as [i|]; [|done].
  rewrite N.sub_0_r in F. tauto.
Qed.


(** What one location adds: file ids after the ones posted and text after
    the text of the stream. *)
Definition extends_stream (before after : list FileID * string) : Prop :=
  (exists more, fst after = fst before ++ more)
  /\ (NoDup (fst before) -> NoDup (fst after))
  /\ exists text, snd after = snd before +:+ text.

Lemma extends_stream_refl x : extends_stream x x.
Proof.
  split; [exists []; by rewrite app_nil_r|]. split; [done|].
  exists "". by rewrite string_app_nil_r.
Qed.

Lemma extends_stream_trans x y z :
  extends_stream x y -> extends_stream y z -> extends_stream x z.
Proof.
  intros ([m1 E1] & N1 & [t1 T1]) ([m2 E2] & N2 & [t2 T2]).
  split; [exists (m1 ++ m2); by rewrite E2, E1, app_assoc|].
  split; [auto|]. exists (t1 +:+ t2). by rewrite T2, T1, string_app_assoc.
Qed.

Lemma AppendFileLocationToStream_extends o posted loc os :
  extends_stream (posted, os) (AppendFileLocationToStream o posted loc os).
Proof.
  unfold AppendFileLocationToStream.
  set (os1 := match getFileEntryForID _ _ with
              | Some _ => _
              | None => _
              end).
  assert (T1 : exists text, os1 = os +:+ text).
  { unfold os1, AppendFileBufferSliceHashToStream.
    destruct (getFileEntryForID _ _); [eauto|].
    destruct (getCharacterData _ _); eauto. }
  destruct T1 as [t1 T1].
  pose proof (find_posted_missing (getFileID loc) posted) as F.
  destruct (find_posted (getFileID loc) posted 0) as [i|].
  - split; [exists []; by rewrite app_nil_r|]. split; [done|].
    eexists. simpl. by rewrite T1, string_app_assoc.
  - specialize (F eq_refl).
    assert (N : NoDup posted -> NoDup (posted ++ [getFileID loc])).
    { intros Hn. apply NoDup_app. split; [done|]. split.
      - intros x Hx Hx'. apply list_elem_of_singleton in Hx' as ->. done.
      - apply NoDup_singleton. }
    destruct (getFileEntryForID _ _) as [fe|].
    + split; [by eexists|]. split; [done|]. simpl.
      destruct (negb (empty (corpus _))), (negb (empty (root _)));
        eexists; rewrite T1, ?string_app_assoc; reflexivity.
    + split; [by eexists|]. split; [done|]. by eexists.
Qed.

(** Encoding a location never rewrites the stream and never forgets or
    repeats a posted file id: the stream it returns is the one it was given
    followed by some text, and the list of posted file ids is the one it was
    given followed by new ones, still free of duplicates. *)
Theorem AppendFullLocationToStream_extends o posted loc os :
  extends_stream (posted, os) (AppendFullLocationToStream o posted loc os).
Proof.
  assert (F : forall l p s, isMacroID l = false ->
            extends_stream (p, s) (AppendFullLocationToStream o p l s)).
  { intros l p s Hl. rewrite AppendFullLocationToStream_file by done.
    destruct l; [|apply AppendFileLocationToStream_extends..].
    split; [exists []; by rewrite app_nil_r|]. split; [done|]. by eexists. }
  destruct loc as [| |f off e s]; try (apply F; reflexivity).
  cbn [AppendFullLocationToStream].
  pose proof (F (getExpansionLoc e) posted os (isMacroID_getExpansionLoc e))
    as E1.
  destruct (AppendFullLocationToStream o posted (getExpansionLoc e) os)
    as [p1 s1].
  eapply extends_stream_trans; [exact E1|].
  eapply extends_stream_trans; [|apply F, isMacroID_getSpellingLoc].
  split; [exists []; by rewrite app_nil_r|]. split; [done|]. by eexists.
Qed.

(** The text of a file name in the stream: corpus and root, when not empty,
    each followed by a slash, then the path. *)
Definition file_name_text (v : VName) : string :=
  (if empty (corpus v) then "" else corpus v +:+ "/")
  +:+ (if empty (root v) then "" else root v +:+ "/")
  +:+ path v.

(** A range between two locations of one file with a file entry is encoded
    as the offset of its begin and the name of the file, followed (when the
    end is another location) by the offset of its end and the back-reference
    [@.0], followed for a Wraith by the claimed string of its context. *)
Theorem AppendRangeToStream_same_file o Ostream kind fid b e ctx entry :
  getFileEntryForID (SourceManager o) fid = Some entry ->
  let range :=
    mkRange kind (mkSourceRange (LocFile fid b) (LocFile fid e)) ctx in
  AppendRangeToStream o Ostream range
  = Ostream
    +:+ to_string (wrap unsigned_bits b)
    +:+ file_name_text (VNameFromFileEntry o entry)
    +:+ (if decide (b = e) then ""
         else to_string (wrap unsigned_bits e) +:+ "@.0")
    +:+ (if decide (kind = Wraith) then ToClaimedString ctx else "").
Proof.
  intros He range. unfold AppendRangeToStream, range.
  cbn [PhysicalRange getBegin getEnd Kind AppendFullLocationToStream].
  unfold AppendFileLocationToStream at 1. cbn [getFileID]. rewrite He.
  cbn [find_posted app getFileOffset].
  assert (Name : forall s : string,
    (if negb (empty (root (VNameFromFileEntry o entry)))
     then (if negb (empty (corpus (VNameFromFileEntry o entry)))
           then s +:+ corpus (VNameFromFileEntry o entry) +:+ "/" else s)
          +:+ root (VNameFromFileEntry o entry) +:+ "/"
     else (if negb (empty (corpus (VNameFromFileEntry o entry)))
           then s +:+ corpus (VNameFromFileEntry o entry) +:+ "/" else s))
    +:+ path (VNameFromFileEntry o entry)
    = s +:+ file_name_text (VNameFromFileEntry o entry)).
  { intros s. unfold file_name_text.
    destruct (empty (corpus _)), (empty (root _)); cbn [negb];
      by rewrite ?string_app_assoc, ?string_app_nil_l. }
  rewrite Name.
  destruct (decide (b = e)) as [->|Hbe].
  - rewrite bool_decide_eq_false_2 by (intros X; by apply X).
    destruct (decide (kind = Wraith)) as [->|Hk].
    + rewrite bool_decide_eq_true_2 by done.
      by rewrite !string_app_assoc, string_app_nil_l.
    + rewrite bool_decide_eq_false_2 by done.
      by rewrite !string_app_assoc, !string_app_nil_r.
  - rewrite bool_decide_eq_true_2 by congruence.
    unfold AppendFileLocationToStream. cbn [getFileID]. rewrite He.
    cbn [find_posted getFileOffset]. rewrite decide_True by done.
    destruct (decide (kind = Wraith)) as [->|Hk].
    + rewrite bool_decide_eq_true_2 by done.
      by rewrite !string_app_assoc.
    + rewrite bool_decide_eq_false_2 by done.
      by rewrite !string_app_assoc, !string_app_nil_r.
Qed.


Lemma resolved_idem l : resolved (resolved l) = resolved l.
Proof.
  rewrite !resolved_eq. apply getExpansionLoc_file, isMacroID_getExpansionLoc.
Qed.

Lemma isMacroID_resolved l : isMacroID (resolved l) = false.
Proof. rewrite resolved_eq. apply isMacroID_getExpansionLoc. Qed.

Lemma isValid_resolved l : isValid (resolved l) = true -> isValid l = true.
Proof. destruct l; simpl; auto. Qed.

(** [VNameFromRange] stops in one case only, the failed [CHECK] of a range
    that is not Implicit and begins at an invalid location; it returns a name
    for every other range. *)
Theorem VNameFromRange_stops_iff o range f :
  VNameFromRange o range = inl f
  <-> Kind range <> Implicit
      /\ isValid (getBegin (PhysicalRange range)) = false
      /\ f = CheckFailed "begin.isValid()".
Proof.
  unfold VNameFromRange.
  destruct (decide (Kind range = Implicit)) as [K|K].
  - rewrite bool_decide_eq_true_2 by done. split; [done|]. by intros [? _].
  - rewrite bool_decide_eq_false_2 by done.
    destruct (isValid (getBegin (PhysicalRange range))); simpl.
    + split; [done|]. by intros (_ & ? & _).
    + split; [by intros [= <-]|]. by intros (_ & _ & ->).
Qed.

(** The name of a range is taken at expansion locations: a range whose ends
    resolve to valid locations has the name of the range between these
    resolved locations, so a use inside a macro expansion is named like the
    place of the expansion; and a range with an invalid end has the name of
    the range that ends where it begins. *)
Theorem VNameFromRange_at_expansion o kind b e ctx :
  isValid (resolved b) = true ->
  (isValid (resolved e) = true ->
   VNameFromRange o (mkRange kind (mkSourceRange b e) ctx)
   = VNameFromRange o
       (mkRange kind (mkSourceRange (resolved b) (resolved e)) ctx))
  /\ VNameFromRange o (mkRange kind (mkSourceRange b LocInvalid) ctx)
     = VNameFromRange o (mkRange kind (mkSourceRange b b) ctx).
Proof.
  intros Hb. pose proof (isValid_resolved _ Hb) as Hb'. split.
  - intros He. pose proof (isValid_resolved _ He) as He'.
    unfold VNameFromRange. cbn [Kind PhysicalRange Context getBegin getEnd].
    rewrite Hb, Hb', He, He'. cbn [negb].
    fold (resolved b) (resolved e) (resolved (resolved b))
      (resolved (resolved e)).
    by rewrite !resolved_idem.
  - unfold VNameFromRange. cbn [Kind PhysicalRange Context getBegin getEnd].
    by rewrite Hb'.
Qed.


(** ** More on the file stack *)

(** Projections of updated observers and file states, computed. *)
Ltac obs_norm :=
  cbv beta delta
      [set_file_stack_ set_transitively_reached_through_header_
       set_recorded_files_ set_claim_checked_files_
       set_claimed_file_specific_tokens_ set_main_source_file_loc_
       set_main_source_file_token_ set_deferred_anchors_ set_range_edges_
       set_written_namespaces_ set_written_types_ set_written_docs_
       set_builtins_ set_recorder_ set_stderr_
       set_context set_fs_vname set_base_vname set_uid set_claimed
       FileState_default id
       set_vname set_rough_claimed set_language_independent fresh_token]
    in *;
  cbn [SourceManager vfs_ client_ claimant_
       FLAGS_fail_on_unimplemented_builtin deferring_nodes_
       drop_redundant_wraiths_ default_token_ type_token_ starting_context_
       meta_ path_to_context_data_ file_stack_
       transitively_reached_through_header_ recorded_files_
       claim_checked_files_ claimed_file_specific_tokens_
       main_source_file_loc_ main_source_file_token_ deferred_anchors_
       range_edges_ written_namespaces_ written_types_ written_docs_
       builtins_ recorder_ stderr_
       context vname base_vname uid claimed
       update_back app last default length
       negb andb orb fst snd
       vname_ rough_claimed_ language_independent_] in *.

Ltac stack_norm := obs_norm; rewrite ?update_back_snoc, ?last_snoc; obs_norm.

Ltac spec_modify_step :=
  lazymatch goal with
  | |- spec (bind (set_state _) _) _ _ =>
      apply spec_bind; unfold set_state at 1; apply spec_modify; stack_norm
  | |- spec (bind (modify _) _) _ _ =>
      apply spec_bind, spec_modify; stack_norm
  | |- spec (bind (record _) _) _ _ =>
      apply spec_bind, spec_record; stack_norm
  | |- spec (bind get _) _ _ => apply spec_bind, spec_get; stack_norm
  | |- spec (bind get_state _) _ _ =>
      apply spec_bind; unfold get_state at 1;
      apply spec_bind, spec_get; apply spec_ret; stack_norm
  | |- spec (bind (ret _) _) _ _ => apply spec_bind, spec_ret; stack_norm
  end.

(** The context [pushFile] gives a file with a file entry: the starting
    context for the first file; for an included file the entry of the context
    table for the parent, its context and the offset of the inclusion when
    the parent has a context and the inclusion is at a valid file location;
    empty otherwise. *)
Definition pushed_context (o : KytheGraphObserver)
    (blame_location : SourceLocation) : string :=
  match last (file_stack_ o) with
  | None => starting_context_ o
  | Some parent =>
      if negb (empty (context parent)) && isValid blame_location
         && isFileID blame_location
      then default ""
             (context_entry o (uid parent) (context parent)
                (getFileOffset blame_location))
      else ""
  end.

(** The warning [pushFile] writes, if any. *)
Definition pushed_warnings (o : KytheGraphObserver)
    (blame_location : SourceLocation) : list Diagnostic :=
  match last (file_stack_ o) with
  | None => []
  | Some parent =>
      if negb (empty (context parent)) && isValid blame_location
         && isFileID blame_location
      then match context_entry o (uid parent) (context parent)
                   (getFileOffset blame_location) with
           | Some _ => []
           | None => [missing_level o (uid parent) (context parent)
                        (getFileOffset blame_location)]
           end
      else []
  end.

(** The file state [pushFile] leaves on top of the stack for a file entry. *)
Definition pushed_state (o : KytheGraphObserver)
    (blame_location : SourceLocation) (entry : FileEntry) : FileState :=
  let base := VNameFromFileEntry o entry in
  let ctx := pushed_context o blame_location in
  let v := set_signature (ctx +:+ signature base) base in
  mkFileState ctx v base (getUniqueID entry)
    (Claim (client_ o) (claimant_ o) v).

(** Whether [pushFile] marks the file as reached through a header. *)
Definition pushed_through_header (o : KytheGraphObserver) (entry : FileEntry)
  : bool :=
  match last (file_stack_ o) with
  | None => false
  | Some parent =>
      bool_decide (uid parent ∈ transitively_reached_through_header_ o)
      || negb (endswith (getName entry) ".inc")
  end.

Lemma lookup_context_spec o uid ctx offset stack state :
  file_stack_ o = stack ++ [state] ->
  lookup_context uid ctx offset o
  = Done tt
      match context_entry o uid ctx offset with
      | Some dest => set_file_stack_ (stack ++ [set_context dest state]) o
      | None =>
          set_stderr_ (stderr_ o ++ [missing_level o uid ctx offset]) o
      end.
Proof.
  intros Hs.
  unfold context_entry, lookup_context, missing_level, bind, get, set_state,
    modify.
  destruct (path_to_context_data_ o !! uid) as [pi|]; simpl; [|done].
  destruct (pi !! ctx) as [ci|]; simpl; [|done].
  destruct (ci !! offset); simpl; [|done].
  by rewrite Hs, update_back_snoc.
Qed.

(** The members [pushFile] never assigns. *)
Definition push_frame (o o' : KytheGraphObserver) : Prop :=
  SourceManager o' = SourceManager o
  /\ vfs_ o' = vfs_ o
  /\ client_ o' = client_ o
  /\ claimant_ o' = claimant_ o
  /\ default_token_ o' = default_token_ o
  /\ type_token_ o' = type_token_ o
  /\ starting_context_ o' = starting_context_ o
  /\ meta_ o' = meta_ o
  /\ path_to_context_data_ o' = path_to_context_data_ o
  /\ deferred_anchors_ o' = deferred_anchors_ o
  /\ range_edges_ o' = range_edges_ o
  /\ written_namespaces_ o' = written_namespaces_ o
  /\ written_types_ o' = written_types_ o
  /\ written_docs_ o' = written_docs_ o
  /\ builtins_ o' = builtins_ o
  /\ FLAGS_fail_on_unimplemented_builtin o'
     = FLAGS_fail_on_unimplemented_builtin o
  /\ deferring_nodes_ o' = deferring_nodes_ o
  /\ drop_redundant_wraiths_ o' = drop_redundant_wraiths_ o.

(** What [pushFile] has done when it returns for a file entry, member by
    member. *)
Definition pushed_file (o : KytheGraphObserver)
    (blame_location source_location : SourceLocation) (entry : FileEntry)
    (o' : KytheGraphObserver) : Prop :=
  let file := getFileID (resolved source_location) in
  let state := pushed_state o blame_location entry in
  let fresh_claim :=
    claimed state && bool_decide (entry ∉ recorded_files_ o) in
  file_stack_ o' = file_stack_ o ++ [state]
  /\ stderr_ o' = stderr_ o ++ pushed_warnings o blame_location
  /\ recorder_ o'
     = recorder_ o
       ++ (if fresh_claim
           then match getMemoryBufferForFile (SourceManager o) entry with
                | Some buf => [AddFileContent (base_vname state) buf]
                | None => []
                end
           else [])
  /\ recorded_files_ o'
     = (if fresh_claim then recorded_files_ o ++ [entry]
        else recorded_files_ o)
  /\ claim_checked_files_ o'
     = emplace file (mkClaimToken (vname state) (claimed state) false)
         (claim_checked_files_ o)
  /\ claimed_file_specific_tokens_ o'
     = (if claimed state
        then emplace file (mkClaimToken (vname state) true true)
               (claimed_file_specific_tokens_ o)
        else claimed_file_specific_tokens_ o)
  /\ transitively_reached_through_header_ o'
     = (if pushed_through_header o entry
        then {[getUniqueID entry]} ∪ transitively_reached_through_header_ o
        else transitively_reached_through_header_ o)
  /\ main_source_file_loc_ o'
     = (if decide (file_stack_ o = []) then resolved source_location
        else main_source_file_loc_ o)
  /\ main_source_file_token_ o'
     = (if decide (file_stack_ o = []) then Some file
        else main_source_file_token_ o)
  /\ push_frame o o'.

Lemma emplace_lookup_same `{Countable K} {V} (k : K) (v w : V)
    (m : gmap K V) :
  match emplace k v m !! k with
  | Some _ => emplace k v m
  | None => <[k := w]> (emplace k v m)
  end = emplace k v m.
Proof.
  unfold emplace. destruct (m !! k) eqn:E.
  - by rewrite E.
  - by rewrite lookup_insert_eq.
Qed.

Lemma snoc_not_nil {A} (l : list A) x : l ++ [x] <> [].
Proof. by destruct l. Qed.

Ltac push_claim_phase entry :=
  apply spec_bind;
  lazymatch goal with
  | |- spec (if ?c then _ else _) _ _ =>
      destruct c eqn:?;
      [ apply spec_bind; unfold spec at 1, insert_recorded_file,
          list_set_insert; stack_norm;
        lazymatch goal with
        | |- context [decide (entry ∈ ?r)] =>
            destruct (decide (entry ∈ r)); stack_norm;
            [ apply spec_ret
            | unfold when at 1;
              lazymatch goal with
              | |- spec (match ?b with _ => _ end) _ _ =>
                  destruct b eqn:?; [apply spec_record|apply spec_ret]
              end ]
        end
      | unfold set_state at 1; apply spec_modify ]
  end; stack_norm.

Ltac push_token_phase :=
  spec_modify_step; spec_modify_step;
  unfold when at 1; cbv iota; spec_modify_step;
  unfold when at 1; cbv iota;
  first [ apply spec_bind, spec_modify; stack_norm; apply spec_modify
        | apply spec_ret ];
  stack_norm.

Ltac push_finish :=
  rewrite ?emplace_lookup_same;
  repeat match goal with
         | H : Claim _ _ _ = _ |- _ => rewrite H
         | H : getMemoryBufferForFile _ _ = _ |- _ => rewrite H
         end;
  rewrite ?bool_decide_eq_true_2, ?bool_decide_eq_false_2 by tauto;
  rewrite ?decide_True by done;
  rewrite ?decide_False by apply snoc_not_nil;
  obs_norm; rewrite ?app_nil_r;
  repeat apply conj; reflexivity.

Lemma pushFile_file_spec o blame_location source_location entry :
  isValid source_location = true ->
  FileID_isInvalid (getFileID (resolved source_location)) = false ->
  getFileEntryForID (SourceManager o) (getFileID (resolved source_location))
  = Some entry ->
  spec (pushFile blame_location source_location) o
    (fun _ o' => pushed_file o blame_location source_location entry o').
Proof.
  intros Hsrc Hfid Hentry.
  unfold pushed_file, pushed_state, pushed_context, pushed_warnings,
    pushed_through_header, push_frame.
  pose (fv := VNameFromFileEntry o entry).
  assert (Efv : forall x, vfs_ x = vfs_ o -> claimant_ x = claimant_ o ->
                VNameFromFileEntry x entry = fv).
  { intros x E1 E2. unfold fv, VNameFromFileEntry. by rewrite E1, E2. }
  fold fv. clearbody fv.
  destruct (file_stack_ o) as [|parent stack _] eqn:Hstack using rev_ind.
  - (* the first file *)
    destruct o. obs_norm. subst.
    unfold pushFile. apply spec_bind, spec_get. obs_norm.
    rewrite bool_decide_eq_true_2 by done. obs_norm.
    do 2 spec_modify_step.
    rewrite Hsrc. unfold when at 1. fold (resolved source_location).
    rewrite resolved_isFileID. apply spec_bind. apply spec_CHECK; [done|].
    rewrite Hfid, Hentry. unfold pushFile_entry.
    spec_modify_step. rewrite Efv by done.
    do 3 spec_modify_step.
    unfold when at 1. do 2 spec_modify_step.
    rewrite (bool_decide_eq_true_2 (1%nat = 1%nat)) by done.
    do 4 spec_modify_step.
    push_claim_phase entry; push_token_phase; push_finish.
  - (* an included file *)
    rewrite last_snoc.
    set (offset := getFileOffset blame_location).
    pose (ce := context_entry o (uid parent) (context parent) offset).
    pose (ml := missing_level o (uid parent) (context parent) offset).
    assert (Ece : forall x stack' state',
              path_to_context_data_ x = path_to_context_data_ o ->
              vfs_ x = vfs_ o -> file_stack_ x = stack' ++ [state'] ->
              lookup_context (uid parent) (context parent) offset x
              = Done tt
                  match ce with
                  | Some dest =>
                      set_file_stack_ (stack' ++ [set_context dest state']) x
                  | None => set_stderr_ (stderr_ x ++ [ml]) x
                  end).
    { intros x stack' state' E1 E2 E3.
      rewrite (lookup_context_spec x _ _ _ stack' state' E3).
      unfold ce, ml, context_entry, missing_level. by rewrite E1, E2. }
    fold ce ml. clearbody ce ml.
    destruct o. obs_norm. subst.
    unfold pushFile. apply spec_bind, spec_get. obs_norm.
    rewrite last_snoc.
    rewrite (bool_decide_eq_false_2 (stack ++ [parent] = []))
      by apply snoc_not_nil.
    obs_norm.
    spec_modify_step. spec_modify_step.
    rewrite Hsrc. unfold when at 1. fold (resolved source_location).
    rewrite resolved_isFileID. apply spec_bind. apply spec_CHECK; [done|].
    rewrite Hfid, Hentry. unfold pushFile_entry.
    spec_modify_step. rewrite Efv by done.
    do 3 spec_modify_step.
    destruct (bool_decide _ || negb _) eqn:Hheader; unfold when at 1;
      [spec_modify_step|apply spec_bind, spec_ret].
    all: spec_modify_step.
    all: rewrite bool_decide_eq_false_2
           by (rewrite !length_app; simpl; lia).
    all: destruct (negb (empty (context parent)) && isValid blame_location
                   && isFileID blame_location) eqn:Hcond;
      [ apply spec_bind; unfold spec at 1;
        erewrite (Ece _ (stack ++ [parent])); [|reflexivity..];
        destruct ce; stack_norm
      | apply spec_bind, spec_ret ].
    all: do 3 spec_modify_step.
    all: push_claim_phase entry; push_token_phase; push_finish.
Qed.


Lemma pushFile_no_entry_spec o blame_location source_location :
  isValid source_location = false
  \/ FileID_isInvalid (getFileID (resolved source_location)) = true
  \/ getFileEntryForID (SourceManager o)
       (getFileID (resolved source_location)) = None ->
  pushFile blame_location source_location o
  = Done tt
      (set_file_stack_
         (file_stack_ o ++ [set_claimed true FileState_default]) o).
Proof.
  intros Hcase.
  unfold pushFile. unfold bind at 1, get at 1.
  fold (resolved source_location).
  destruct (isValid source_location) eqn:Hv;
    [rewrite resolved_isFileID;
     destruct (FileID_isInvalid _) eqn:Hf;
     [|destruct Hcase as [?|[?|Hn]]; [done..|]; rewrite Hn]|];
    unfold bind, get, modify, set_state, when, CHECK, ret; cbn;
    rewrite update_back_snoc; by destruct o.
Qed.


Lemma pushFile_file_done o blame_location source_location entry :
  isValid source_location = true ->
  FileID_isInvalid (getFileID (resolved source_location)) = false ->
  getFileEntryForID (SourceManager o) (getFileID (resolved source_location))
  = Some entry ->
  exists o',
    pushFile blame_location source_location o = Done tt o'
    /\ pushed_file o blame_location source_location entry o'.
Proof.
  intros Hsrc Hfid Hentry.
  destruct (proj1 (spec_done _ _ _)
              (pushFile_file_spec o blame_location source_location entry
                 Hsrc Hfid Hentry)) as ([] & o' & Run & P).
  by exists o'.
Qed.

Lemma emplace_lookup `{Countable K} {V} (k : K) (v : V) (m : gmap K V) :
  emplace k v m !! k = Some (default v (m !! k)).
Proof.
  unfold emplace. destruct (m !! k) eqn:E; simpl; [done|].
  by rewrite lookup_insert_eq.
Qed.

Lemma emplace_lookup_ne `{Countable K} {V} (k k' : K) (v : V)
    (m : gmap K V) :
  k <> k' -> emplace k v m !! k' = m !! k'.
Proof.
  intros Hne. unfold emplace. destruct (m !! k); [done|].
  by rewrite lookup_insert_ne.
Qed.

(** After [pushFile] of a file with a file entry, the claim of every valid
    location of that file is the claim kept in the table for the file: the
    one of the first push of the file if it was pushed before, whatever the
    claim client answers now, and otherwise the answer of the claim client
    for the name this push gives the file.  [getClaimTokenForLocation]
    returns the token with that claim, and the claims kept for the other
    files are as before. *)
Theorem pushFile_claim_first_push_wins o blame_location source_location
    entry loc :
  isValid source_location = true ->
  FileID_isInvalid (getFileID (resolved source_location)) = false ->
  getFileEntryForID (SourceManager o) (getFileID (resolved source_location))
  = Some entry ->
  isValid loc = true ->
  exists o' token,
    pushFile blame_location source_location o = Done tt o'
    /\ (getFileID (resolved loc) = getFileID (resolved source_location) ->
        getClaimTokenForLocation o' loc = inr token
        /\ claimLocation o' loc = inr (rough_claimed_ token))
    /\ token
       = match claim_checked_files_ o
               !! getFileID (resolved source_location) with
         | Some first => first
         | None =>
             let v :=
               set_signature
                 (pushed_context o blame_location
                  +:+ signature (VNameFromFileEntry o entry))
                 (VNameFromFileEntry o entry) in
             mkClaimToken v (Claim (client_ o) (claimant_ o) v) false
         end
    /\ (getFileID (resolved loc) <> getFileID (resolved source_location) ->
        getClaimTokenForLocation o' loc = getClaimTokenForLocation o loc
        /\ claimLocation o' loc = claimLocation o loc).
Proof.
  intros Hsrc Hfid Hentry Hloc.
  destruct (pushFile_file_done o blame_location source_location entry
              Hsrc Hfid Hentry)
    as (o' & Run & _ & _ & _ & _ & Hc & _ & _ & _ & _ & F).
  destruct F as (_ & _ & _ & _ & Hd & _).
  eexists o', _. split; [exact Run|].
  assert (G : forall x, getClaimTokenForLocation x loc
              = inr (if FileID_isInvalid (getFileID (resolved loc))
                     then default_token_ x
                     else default (default_token_ x)
                            (claim_checked_files_ x
                               !! getFileID (resolved loc)))).
  { intros x. unfold getClaimTokenForLocation. fold (resolved loc).
    rewrite resolved_isFileID, Hloc. simpl.
    destruct (FileID_isInvalid (getFileID (resolved loc))); [done|].
    by destruct (claim_checked_files_ x !! _). }
  split; [|split].
  - intros E. rewrite G, claimLocation_total, Hloc, E, Hfid, Hc. simpl.
    rewrite emplace_lookup. simpl. split; reflexivity.
  - unfold pushed_state. simpl.
    by destruct (claim_checked_files_ o !! _).
  - intros Hne. rewrite !G, !claimLocation_total, Hc, Hd.
    by rewrite emplace_lookup_ne.
Qed.


(** [pushFile] passes to the recorder the content of the pushed file, under
    its base name, or nothing: the content goes out exactly when the claim
    client grants the claim of the file under the name with its context, the
    file entry is not in [recorded_files_] and the source manager has a
    buffer for it.  A granted claim leaves the entry in [recorded_files_],
    which is only added to and stays free of duplicates, so that a later push
    of any location backed by the same entry passes nothing. *)
Theorem pushFile_file_content_once o blame_location source_location entry :
  isValid source_location = true ->
  FileID_isInvalid (getFileID (resolved source_location)) = false ->
  getFileEntryForID (SourceManager o) (getFileID (resolved source_location))
  = Some entry ->
  let base := VNameFromFileEntry o entry in
  let granted :=
    Claim (client_ o) (claimant_ o)
      (set_signature (pushed_context o blame_location +:+ signature base)
         base) in
  exists o',
    pushFile blame_location source_location o = Done tt o'
    /\ recorder_ o'
       = recorder_ o
         ++ (if granted && bool_decide (entry ∉ recorded_files_ o)
             then match getMemoryBufferForFile (SourceManager o) entry with
                  | Some buf => [AddFileContent base buf]
                  | None => []
                  end
             else [])
    /\ (granted = true -> entry ∈ recorded_files_ o')
    /\ (forall e, e ∈ recorded_files_ o -> e ∈ recorded_files_ o')
    /\ (NoDup (recorded_files_ o) -> NoDup (recorded_files_ o'))
    /\ forall blame_location' source_location',
         isValid source_location' = true ->
         FileID_isInvalid (getFileID (resolved source_location')) = false ->
         getFileEntryForID (SourceManager o)
           (getFileID (resolved source_location')) = Some entry ->
         entry ∈ recorded_files_ o' ->
         exists o'',
           pushFile blame_location' source_location' o' = Done tt o''
           /\ recorder_ o'' = recorder_ o'
           /\ recorded_files_ o'' = recorded_files_ o'.
Proof.
  intros Hsrc Hfid Hentry base granted.
  destruct (pushFile_file_done o blame_location source_location entry
              Hsrc Hfid Hentry)
    as (o' & Run & _ & _ & Hrec & Hfiles & _ & _ & _ & _ & _ & F).
  destruct F as (Hsm & _).
  change (claimed (pushed_state o blame_location entry)) with granted
    in Hrec, Hfiles.
  change (base_vname (pushed_state o blame_location entry)) with base
    in Hrec.
  exists o'. split; [exact Run|]. split; [exact Hrec|].
  assert (Hin : granted = true -> entry ∈ recorded_files_ o').
  { intros Hg. rewrite Hfiles, Hg. simpl.
    destruct (decide (entry ∈ recorded_files_ o)) as [Hi|Hn].
    - by rewrite bool_decide_eq_false_2 by tauto.
    - rewrite bool_decide_eq_true_2 by done. set_solver. }
  split; [exact Hin|]. split; [|split].
  - intros e He. rewrite Hfiles. destruct (granted && _); set_solver.
  - intros Hnd. rewrite Hfiles.
    destruct (decide (entry ∈ recorded_files_ o)) as [Hi|Hn].
    + rewrite (bool_decide_eq_false_2 (entry ∉ recorded_files_ o)) by tauto.
      by rewrite andb_false_r.
    + destruct (granted && _); [|done].
      apply NoDup_app. split; [done|]. split; [|apply NoDup_singleton].
      intros x Hx Hx'. apply list_elem_of_singleton in Hx'. by subst.
  - intros blame_location' source_location' Hsrc' Hfid' Hentry' Hmem.
    rewrite <- Hsm in Hentry'.
    destruct (pushFile_file_done o' blame_location' source_location' entry
                Hsrc' Hfid' Hentry')
      as (o'' & Run' & _ & _ & Hrec' & Hfiles' & _).
    exists o''. split; [exact Run'|].
    rewrite (bool_decide_eq_false_2 (entry ∉ recorded_files_ o')) in *
      by tauto.
    rewrite andb_false_r in *. rewrite app_nil_r in Hrec'. done.
Qed.

(** The first file pushed (the stack is empty) takes the starting context,
    whatever the blame location is: its name is its base name with the
    starting context written before the signature, no warning is written, it
    is not marked as reached through a header, and it becomes the main source
    file, its location being the resolved source location and its token the
    entry of the claim table for its file id. *)
Theorem pushFile_first_file o blame_location source_location entry :
  file_stack_ o = [] ->
  isValid source_location = true ->
  FileID_isInvalid (getFileID (resolved source_location)) = false ->
  getFileEntryForID (SourceManager o) (getFileID (resolved source_location))
  = Some entry ->
  let base := VNameFromFileEntry o entry in
  let v := set_signature (starting_context_ o +:+ signature base) base in
  exists o',
    pushFile blame_location source_location o = Done tt o'
    /\ file_stack_ o'
       = [mkFileState (starting_context_ o) v base (getUniqueID entry)
            (Claim (client_ o) (claimant_ o) v)]
    /\ stderr_ o' = stderr_ o
    /\ transitively_reached_through_header_ o'
       = transitively_reached_through_header_ o
    /\ main_source_file_loc_ o' = resolved source_location
    /\ main_source_file_token_ o' = Some (getFileID (resolved source_location))
    /\ is_Some (claim_checked_files_ o'
                  !! getFileID (resolved source_location)).
Proof.
  intros Hstack Hsrc Hfid Hentry base v.
  destruct (pushFile_file_done o blame_location source_location entry
              Hsrc Hfid Hentry)
    as (o' & Run & Hs & He & _ & _ & Hc & _ & Ht & Hl & Hm & _).
  unfold pushed_state, pushed_context, pushed_warnings,
    pushed_through_header in *.
  rewrite Hstack in *. simpl in *.
  exists o'. rewrite Hs, He, Ht, Hl, Hm, Hc, app_nil_r, emplace_lookup.
  repeat (split; [done|]). by eexists.
Qed.

(** Header marking.  [pushFile] marks the pushed file as reached through a
    header when it is included from a marked file, or included from any file
    under a name that does not end in [.inc]; the first file pushed is not
    marked, marks are never removed, and the valid locations of the pushed
    file relate to the main source file exactly when the file is unmarked
    after the push. *)
Theorem pushFile_header_marking o blame_location source_location entry loc :
  isValid source_location = true ->
  FileID_isInvalid (getFileID (resolved source_location)) = false ->
  getFileEntryForID (SourceManager o) (getFileID (resolved source_location))
  = Some entry ->
  isValid (resolved loc) = true ->
  getFileID (resolved loc) = getFileID (resolved source_location) ->
  exists o',
    pushFile blame_location source_location o = Done tt o'
    /\ (getUniqueID entry ∈ transitively_reached_through_header_ o'
        <-> getUniqueID entry ∈ transitively_reached_through_header_ o
            \/ exists parent,
                 last (file_stack_ o) = Some parent
                 /\ (uid parent ∈ transitively_reached_through_header_ o
                     \/ endswith (getName entry) ".inc" = false))
    /\ transitively_reached_through_header_ o
       ⊆ transitively_reached_through_header_ o'
    /\ isMainSourceFileRelatedLocation o' loc
       = bool_decide
           (getUniqueID entry ∉ transitively_reached_through_header_ o').
Proof.
  intros Hsrc Hfid Hentry Hloc Hsame.
  destruct (pushFile_file_done o blame_location source_location entry
              Hsrc Hfid Hentry)
    as (o' & Run & _ & _ & _ & _ & _ & _ & Ht & _ & _ & F).
  destruct F as (Hsm & _).
  exists o'. split; [exact Run|]. split; [|split].
  - rewrite Ht. unfold pushed_through_header.
    destruct (last (file_stack_ o)) as [parent|].
    + destruct (decide (uid parent
                        ∈ transitively_reached_through_header_ o)) as [Hi|Hn].
      * rewrite bool_decide_eq_true_2 by done. simpl.
        split; [intros _; right; exists parent; tauto|].
        intros _. apply elem_of_union. left. by apply elem_of_singleton.
      * rewrite bool_decide_eq_false_2 by done. simpl.
        destruct (endswith (getName entry) ".inc") eqn:Hinc; simpl.
        -- split; [tauto|]. intros [?|(p & [= <-] & [?|?])]; done.
        -- split; [intros _; right; exists parent; tauto|].
           intros _. apply elem_of_union. left. by apply elem_of_singleton.
    + split; [tauto|]. intros [?|(p & ? & _)]; done.
  - rewrite Ht. destruct (pushed_through_header o entry); [|done].
    apply union_subseteq_r.
  - unfold isMainSourceFileRelatedLocation.
    assert (Hv : isValid loc = true).
    { destruct loc; try done. }
    rewrite Hv. simpl.
    replace (if negb (isFileID loc) then getExpansionLoc loc else loc)
      with (resolved loc)
      by (unfold resolved, isFileID; by destruct (isMacroID loc)).
    assert (Hstop : negb (isFileID loc)
                    && (negb (isValid (getExpansionLoc loc))
                        || negb (isFileID (getExpansionLoc loc))) = false).
    { unfold isFileID. destruct (isMacroID loc) eqn:Hm; [|done]. simpl.
      unfold resolved in Hloc. rewrite Hm in Hloc. rewrite Hloc. simpl.
      pose proof (resolved_isFileID loc) as Hf. unfold resolved in Hf.
      rewrite Hm in Hf. unfold isFileID in Hf. by rewrite Hf. }
    rewrite Hstop, Hsame, Hfid, Hsm, Hentry. done.
Qed.


(** ** The context table *)

Lemma context_entry_insert o o' found ctx offset dest :
  path_to_context_data_ o'
  = <[found :=
        <[ctx := <[offset := dest]>
                   (default ∅ (default ∅ (path_to_context_data_ o !! found)
                                 !! ctx))]>
          (default ∅ (path_to_context_data_ o !! found))]>
      (path_to_context_data_ o) ->
  context_entry o' found ctx offset = Some dest
  /\ forall u c f,
       (u, c, f) <> (found, ctx, offset) ->
       context_entry o' u c f = context_entry o u c f.
Proof.
  intros E. unfold context_entry. rewrite E. split.
  - rewrite lookup_insert_eq. simpl. rewrite lookup_insert_eq. simpl.
    by rewrite lookup_insert_eq.
  - intros u c f Hne.
    destruct (decide (u = found)) as [->|Hu];
      [|by rewrite lookup_insert_ne].
    rewrite lookup_insert_eq. simpl.
    destruct (decide (c = ctx)) as [->|Hc].
    + rewrite lookup_insert_eq. simpl.
      rewrite lookup_insert_ne by congruence.
      destruct (path_to_context_data_ o !! found) as [pi|]; simpl; [|done].
      by destruct (pi !! ctx).
    + rewrite lookup_insert_ne by done.
      by destruct (path_to_context_data_ o !! found).
Qed.

(** [AddContextInformation] for a path the file system maps makes the table
    answer the destination context at the file, context and offset given,
    changes the answer at no other triple, and writes nothing; for a path the
    file system does not map it leaves the table as it is and writes one
    line. *)
Theorem AddContextInformation_entry status path ctx offset dest o :
  exists o',
    AddContextInformation status path ctx offset dest o = Done tt o'
    /\ recorder_ o' = recorder_ o
    /\ file_stack_ o' = file_stack_ o
    /\ match status path with
       | Some found =>
           context_entry o' found ctx offset = Some dest
           /\ (forall u c f,
                 (u, c, f) <> (found, ctx, offset) ->
                 context_entry o' u c f = context_entry o u c f)
           /\ stderr_ o' = stderr_ o
       | None =>
           path_to_context_data_ o' = path_to_context_data_ o
           /\ exists line, stderr_ o' = stderr_ o ++ [line]
       end.
Proof.
  unfold AddContextInformation. destruct (status path) as [found|].
  - eexists. split; [reflexivity|]. do 2 (split; [done|]).
    destruct (context_entry_insert o
                (set_path_to_context_data_
                   (<[found :=
                        <[ctx := <[offset := dest]>
                           (default ∅
                              (default ∅ (path_to_context_data_ o !! found)
                                 !! ctx))]>
                          (default ∅ (path_to_context_data_ o !! found))]>
                      (path_to_context_data_ o)) o)
                found ctx offset dest eq_refl) as [E1 E2].
    split; [exact E1|]. split; [exact E2|done].
  - eexists. split; [reflexivity|]. do 3 (split; [done|]).
    by eexists.
Qed.

Lemma AddContextInformation_found status path ctx offset dest o found :
  status path = Some found ->
  exists o',
    AddContextInformation status path ctx offset dest o = Done tt o'
    /\ context_entry o' found ctx offset = Some dest
    /\ o' = set_path_to_context_data_ (path_to_context_data_ o') o.
Proof.
  intros Hs. unfold AddContextInformation. rewrite Hs.
  eexists. split; [reflexivity|]. split; [|by destruct o].
  eapply context_entry_insert. reflexivity.
Qed.

(** A context given to [AddContextInformation] reaches the file pushed next:
    when the parent on top of the stack has a context and the inclusion is
    blamed on a valid file location, then after registering [dest] for the
    parent, its context and the offset of the blame location, [pushFile]
    gives the included file the context [dest] and the base name with [dest]
    before its signature, leaves the files below as they are and writes no
    warning. *)
Theorem registered_context_reaches_pushFile status path dest o stack parent
    blame_location source_location entry :
  file_stack_ o = stack ++ [parent] ->
  empty (context parent) = false ->
  isValid blame_location = true ->
  isFileID blame_location = true ->
  status path = Some (uid parent) ->
  isValid source_location = true ->
  FileID_isInvalid (getFileID (resolved source_location)) = false ->
  getFileEntryForID (SourceManager o) (getFileID (resolved source_location))
  = Some entry ->
  let base := VNameFromFileEntry o entry in
  let v := set_signature (dest +:+ signature base) base in
  exists o1 o2,
    AddContextInformation status path (context parent)
      (getFileOffset blame_location) dest o = Done tt o1
    /\ pushFile blame_location source_location o1 = Done tt o2
    /\ file_stack_ o2
       = stack ++ [parent;
                   mkFileState dest v base (getUniqueID entry)
                     (Claim (client_ o) (claimant_ o) v)]
    /\ stderr_ o2 = stderr_ o.
Proof.
  intros Hstack Hctx Hbv Hbf Hstatus Hsrc Hfid Hentry base v.
  destruct (AddContextInformation_found status path (context parent)
              (getFileOffset blame_location) dest o (uid parent) Hstatus)
    as (o1 & Run1 & Hfound & Eo1).
  assert (Hentry1 : getFileEntryForID (SourceManager o1)
                      (getFileID (resolved source_location)) = Some entry).
  { by rewrite Eo1. }
  destruct (pushFile_file_done o1 blame_location source_location entry
              Hsrc Hfid Hentry1)
    as (o2 & Run2 & Hs & He & _).
  exists o1, o2. split; [exact Run1|]. split; [exact Run2|].
  assert (Hstack1 : file_stack_ o1 = stack ++ [parent]) by by rewrite Eo1.
  assert (Hbase : VNameFromFileEntry o1 entry = base) by by rewrite Eo1.
  assert (Hcl : client_ o1 = client_ o) by by rewrite Eo1.
  assert (Hcm : claimant_ o1 = claimant_ o) by by rewrite Eo1.
  assert (Herr : stderr_ o1 = stderr_ o) by by rewrite Eo1.
  unfold pushed_state, pushed_context, pushed_warnings in *.
  rewrite Hstack1, last_snoc, Hctx, Hbv, Hbf, Hfound in *. simpl in *.
  rewrite Hs, He, Hbase, Hcl, Hcm, Herr, app_nil_r, <- app_assoc. done.
Qed.

(** ** Pushes that find no file *)

(** A push of an invalid location, of a location whose file id is invalid,
    or of a file id without a file entry still pushes a file state: the
    default one with the claim granted.  No claim is requested and nothing
    else changes, so that nothing is recorded or written, no file becomes the
    main source file or is marked as a header, and its context is empty
    whatever the context of the parent is. *)
Theorem pushFile_without_file_entry o blame_location source_location :
  isValid source_location = false
  \/ FileID_isInvalid (getFileID (resolved source_location)) = true
  \/ getFileEntryForID (SourceManager o)
       (getFileID (resolved source_location)) = None ->
  exists o',
    pushFile blame_location source_location o = Done tt o'
    /\ file_stack_ o'
       = file_stack_ o ++ [mkFileState "" empty_vname empty_vname (0, 0) true]
    /\ o' = set_file_stack_ (file_stack_ o') o.
Proof.
  intros Hcase. eexists. split; [by apply pushFile_no_entry_spec|].
  split; [done|]. by destruct o.
Qed.

(** ** A push undone by a pop *)

Lemma pushFile_pushes o blame_location source_location :
  exists o' state,
    pushFile blame_location source_location o = Done tt o'
    /\ file_stack_ o' = file_stack_ o ++ [state]
    /\ push_frame o o'.
Proof.
  assert (Hnone : isValid source_location = false
                  \/ FileID_isInvalid
                       (getFileID (resolved source_location)) = true
                  \/ getFileEntryForID (SourceManager o)
                       (getFileID (resolved source_location)) = None ->
                  exists o' state,
                    pushFile blame_location source_location o = Done tt o'
                    /\ file_stack_ o' = file_stack_ o ++ [state]
                    /\ push_frame o o').
  { intros Hcase. eexists _, _.
    split; [by apply pushFile_no_entry_spec|]. split; [done|].
    unfold push_frame. by repeat apply conj. }
  destruct (isValid source_location) eqn:Hsrc; [|tauto].
  destruct (FileID_isInvalid (getFileID (resolved source_location)))
    eqn:Hfid; [tauto|].
  destruct (getFileEntryForID (SourceManager o)
              (getFileID (resolved source_location))) as [entry|] eqn:He;
    [|tauto].
  destruct (pushFile_file_done o blame_location source_location entry
              Hsrc Hfid He)
    as (o' & Run & Hs & _ & _ & _ & _ & _ & _ & _ & _ & F).
  by exists o', (pushed_state o blame_location entry).
Qed.

Lemma popFile_snoc o stack state :
  file_stack_ o = stack ++ [state] ->
  popFile o
  = Done tt
      (if decide (stack = [])
       then set_deferred_anchors_ [] (set_file_stack_ stack o)
       else set_file_stack_ stack o).
Proof.
  intros Hs. unfold popFile, bind, get, CHECK, modify, when, ret.
  rewrite Hs.
  rewrite (bool_decide_eq_false_2 (stack ++ [state] = []))
    by apply snoc_not_nil.
  simpl. rewrite Hs, removelast_last.
  destruct (decide (stack = [])) as [E|E].
  - by rewrite bool_decide_eq_true_2 by done.
  - by rewrite bool_decide_eq_false_2 by done.
Qed.

(** [popFile] after [pushFile] always returns and leaves the stack exactly
    as it was before the push, the states of the files below included;
    [deferred_anchors_] is emptied if the stack was empty before the push and
    is as before otherwise. *)
Theorem pushFile_then_popFile o blame_location source_location :
  exists o' o'',
    pushFile blame_location source_location o = Done tt o'
    /\ popFile o' = Done tt o''
    /\ file_stack_ o'' = file_stack_ o
    /\ deferred_anchors_ o''
       = (if decide (file_stack_ o = []) then [] else deferred_anchors_ o)
    /\ recorder_ o'' = recorder_ o'
    /\ stderr_ o'' = stderr_ o'.
Proof.
  destruct (pushFile_pushes o blame_location source_location)
    as (o' & state & Run & Hs & F).
  destruct F as (_ & _ & _ & _ & _ & _ & _ & _ & _ & Hd & _).
  eexists o', _. split; [exact Run|].
  split; [by apply (popFile_snoc o' (file_stack_ o) state)|].
  destruct (decide (file_stack_ o = [])) as [E|E]; by repeat split.
Qed.

(** ** What a member function leaves alone

    [returns_in R m]: whenever [m] returns, it does so in an observer related
    to the first by [R]; runs that stop are not constrained. *)
Definition returns_in {A} (R : relation KytheGraphObserver) (m : M A)
  : Prop :=
  forall o a o', m o = Done a o' -> R o o'.

Section Returns.
Variable R : relation KytheGraphObserver.
Context `{!PreOrder R}.

Lemma returns_in_ret {A} (a : A) : returns_in R (ret a).
Proof. intros o a' o' [= _ <-]. reflexivity. Qed.

Lemma returns_in_get : returns_in R get.
Proof. intros o a' o' [= _ <-]. reflexivity. Qed.

Lemma returns_in_stop {A} f : returns_in R (@stop A f).
Proof. intros o a o' [=]. Qed.

Lemma returns_in_lift {A} (c : Checked A) : returns_in R (lift c).
Proof. destruct c; [apply returns_in_stop|apply returns_in_ret]. Qed.

Lemma returns_in_CHECK c text : returns_in R (CHECK c text).
Proof. destruct c; [apply returns_in_ret|apply returns_in_stop]. Qed.

Lemma returns_in_bind {A B} (m : M A) (k : A -> M B) :
  returns_in R m -> (forall a, returns_in R (k a)) ->
  returns_in R (bind m k).
Proof.
  intros Hm Hk o b o'' Run. unfold bind in Run.
  destruct (m o) as [a o'|] eqn:E; [|done].
  etrans; [by eapply Hm|by eapply Hk].
Qed.

Lemma returns_in_modify f : (forall o, R o (f o)) -> returns_in R (modify f).
Proof. intros Hf o a o' [= _ <-]. apply Hf. Qed.

Lemma returns_in_when c m : returns_in R m -> returns_in R (when c m).
Proof. intros Hm. destruct c; [done|]. apply returns_in_ret. Qed.

Lemma returns_in_for_each {A} (l : list A) body :
  (forall x, returns_in R (body x)) -> returns_in R (for_each l body).
Proof.
  intros Hb. induction l as [|x l IH]; simpl.
  - apply returns_in_ret.
  - apply returns_in_bind; [apply Hb|]. intros _. apply IH.
Qed.

End Returns.

(** Nothing but the two output channels and the set of deferred anchors has
    changed. *)
Definition anchor_frame (o o' : KytheGraphObserver) : Prop :=
  o' = set_recorder_ (recorder_ o')
         (set_stderr_ (stderr_ o')
            (set_deferred_anchors_ (deferred_anchors_ o') o)).

#[local] Instance anchor_frame_preorder : PreOrder anchor_frame.
Proof.
  split.
  - intros o. by destruct o.
  - intros o1 o2 o3 E1 E2. unfold anchor_frame in *.
    rewrite E2. rewrite E1. by destruct o1.
Qed.

Ltac anchor_frame_field :=
  let x := fresh in intros x; destruct x; by repeat split.

Ltac returns_auto :=
  lazymatch goal with
  | |- returns_in _ (bind _ _) => apply returns_in_bind; [apply _| |intros ?]
  | |- returns_in _ (ret _) => apply returns_in_ret; apply _
  | |- returns_in _ get => apply returns_in_get; apply _
  | |- returns_in _ (lift _) => apply returns_in_lift; apply _
  | |- returns_in _ (CHECK _ _) => apply returns_in_CHECK; apply _
  | |- returns_in _ (when _ _) => apply returns_in_when; [apply _|]
  | |- returns_in _ (for_each _ _) =>
      apply returns_in_for_each; [apply _|intros ?]
  | |- returns_in _ (record _) => apply returns_in_modify; anchor_frame_field
  | |- returns_in _ (diagnose _) =>
      apply returns_in_modify; anchor_frame_field
  | |- returns_in _ (modify _) => apply returns_in_modify; anchor_frame_field
  | |- returns_in _ (RecordRange _ _) => unfold RecordRange
  | |- returns_in _ (RecordSourceLocation _ _ _) =>
      unfold RecordSourceLocation
  | |- returns_in _ (MetaHookDefines _ _ _ _ _) => unfold MetaHookDefines
  | |- returns_in _ (if ?c then _ else _) => destruct c
  | |- returns_in _ (match ?x with _ => _ end) => destruct x eqn:?
  | |- returns_in _ (let '(_, _) := ?x in _) => destruct x eqn:?
  end.

Lemma RecordRange_frame anchor_name range :
  returns_in anchor_frame (RecordRange anchor_name range).
Proof. repeat returns_auto. Qed.

(** The edge the redundancy filter of [RecordAnchor] looks up. *)
Definition filtered_edge (source_range : Range)
    (primary_anchored_to : NodeId) (anchor_edge_kind : EdgeKindID)
  : RangeEdge :=
  mkRangeEdge (PhysicalRange source_range) anchor_edge_kind
    primary_anchored_to.

Lemma modify_then_ret {A} f (a : A) o :
  bind (modify f) (fun _ => ret a) o = Done a (f o).
Proof. reflexivity. Qed.

Lemma RecordAnchor_returns o source_range primary_anchored_to
    anchor_edge_kind cl a o' :
  RecordAnchor source_range primary_anchored_to anchor_edge_kind cl o
  = Done a o' ->
  let edge :=
    filtered_edge source_range primary_anchored_to anchor_edge_kind in
  file_stack_ o <> []
  /\ (if drop_redundant_wraiths_ o
      then if decide (edge ∈ range_edges_ o) then o' = o
           else anchor_frame
                  (set_range_edges_ (range_edges_ o ++ [edge]) o) o'
      else anchor_frame o o').
Proof.
  intros Run edge. unfold RecordAnchor in Run.
  unfold bind at 1, get at 1 in Run. unfold bind at 1 in Run.
  destruct (decide (file_stack_ o = [])) as [E|E].
  { rewrite bool_decide_eq_true_2 in Run by done. done. }
  rewrite bool_decide_eq_false_2 in Run by done. cbn [negb CHECK ret] in Run.
  split; [done|]. unfold bind at 1 in Run.
  destruct (drop_redundant_wraiths_ o).
  - unfold list_set_insert in Run. subst edge. unfold filtered_edge.
    destruct (decide (_ ∈ range_edges_ o)).
    + rewrite modify_then_ret in Run. cbn [negb] in Run.
      injection Run as _ <-. by destruct o.
    + rewrite modify_then_ret in Run. cbn [negb] in Run.
      revert Run. generalize (set_range_edges_
                                (range_edges_ o
                                 ++ [mkRangeEdge (PhysicalRange source_range)
                                       anchor_edge_kind primary_anchored_to])
                                o).
      intros o1 Run.
      refine ((_ : returns_in anchor_frame _) _ _ _ Run).
      repeat returns_auto.
  - cbn [ret] in Run.
    refine ((_ : returns_in anchor_frame _) _ _ _ Run).
    repeat returns_auto.
Qed.


Lemma RecordAnchor_passes_filter o source_range primary_anchored_to
    anchor_edge_kind cl a o' :
  RecordAnchor source_range primary_anchored_to anchor_edge_kind cl o
  = Done a o' ->
  let edge :=
    filtered_edge source_range primary_anchored_to anchor_edge_kind in
  file_stack_ o <> []
  /\ o' = set_recorder_ (recorder_ o')
            (set_stderr_ (stderr_ o')
               (set_deferred_anchors_ (deferred_anchors_ o')
                  (set_range_edges_ (range_edges_ o') o)))
  /\ range_edges_ o'
     = (if drop_redundant_wraiths_ o && bool_decide (edge ∉ range_edges_ o)
        then range_edges_ o ++ [edge] else range_edges_ o).
Proof.
  intros Run edge.
  destruct (RecordAnchor_returns _ _ _ _ _ _ _ Run) as [Hs Hcase].
  fold edge in Hcase. split; [exact Hs|].
  destruct (drop_redundant_wraiths_ o); simpl.
  - destruct (decide (edge ∈ range_edges_ o)) as [Hi|Hn].
    + subst o'. rewrite bool_decide_eq_false_2 by tauto.
      split; [by destruct o|done].
    + rewrite bool_decide_eq_true_2 by done. unfold anchor_frame in Hcase.
      rewrite Hcase. by destruct o.
  - unfold anchor_frame in Hcase. rewrite Hcase. by destruct o.
Qed.

(** The redundancy filter.  With [drop_redundant_wraiths_] set, a call of
    [RecordAnchor] that returns leaves its edge in [range_edges_], and a later
    call for the same source positions, edge kind and target returns at once
    and changes nothing: whatever the kind and the context of its range are
    and whatever claimability is asked for, and without naming the range or
    checking any claim. *)
Theorem RecordAnchor_redundant_edge_dropped o o' range1 range2 target kind
    cl1 cl2 :
  drop_redundant_wraiths_ o = true ->
  RecordAnchor range1 target kind cl1 o = Done tt o' ->
  PhysicalRange range2 = PhysicalRange range1 ->
  filtered_edge range1 target kind ∈ range_edges_ o'
  /\ RecordAnchor range2 target kind cl2 o' = Done tt o'.
Proof.
  intros Hdrop Run Hsame.
  destruct (RecordAnchor_passes_filter _ _ _ _ _ _ _ Run)
    as (Hs & Ho' & He).
  rewrite Hdrop in He. simpl in He.
  assert (Hin : filtered_edge range1 target kind ∈ range_edges_ o').
  { rewrite He.
    destruct (decide (filtered_edge range1 target kind ∈ range_edges_ o)).
    - by rewrite bool_decide_eq_false_2 by tauto.
    - rewrite bool_decide_eq_true_2 by done. set_solver. }
  split; [exact Hin|].
  assert (Hs' : file_stack_ o' = file_stack_ o) by by rewrite Ho'.
  assert (Hdrop' : drop_redundant_wraiths_ o' = true)
    by by rewrite Ho'.
  unfold RecordAnchor. unfold bind at 1, get at 1. unfold bind at 1.
  rewrite Hs', bool_decide_eq_false_2 by done. cbn [negb CHECK ret].
  unfold bind at 1. rewrite Hdrop'. unfold list_set_insert.
  rewrite Hsame. unfold filtered_edge in Hin.
  rewrite decide_True by done. rewrite modify_then_ret. cbn [negb].
  unfold ret. by destruct o'.
Qed.

(** [RecordAnchor], with a node or with a name for target, stops when no
    file is on the stack; when it returns, nothing but the recorder, [stderr],
    the deferred anchors and the edges of the redundancy filter has changed:
    the file stack, the claim tables and the sets of written nodes are as
    before.  The edges of the filter change only by the one edge of the call,
    added when the flag is set and the edge is new; the overload with a name
    for target leaves them alone. *)
Theorem RecordAnchor_frame o source_range primary_anchored_to target
    anchor_edge_kind cl :
  (file_stack_ o = [] ->
   RecordAnchor source_range primary_anchored_to anchor_edge_kind cl o
   = Stopped (CheckFailed "!file_stack_.empty()")
   /\ RecordAnchorVName source_range target anchor_edge_kind cl o
      = Stopped (CheckFailed "!file_stack_.empty()"))
  /\ (forall o',
        RecordAnchor source_range primary_anchored_to anchor_edge_kind cl o
        = Done tt o' ->
        o' = set_recorder_ (recorder_ o')
               (set_stderr_ (stderr_ o')
                  (set_deferred_anchors_ (deferred_anchors_ o')
                     (set_range_edges_ (range_edges_ o') o)))
        /\ range_edges_ o'
           = (if drop_redundant_wraiths_ o
                 && bool_decide
                      (filtered_edge source_range primary_anchored_to
                         anchor_edge_kind ∉ range_edges_ o)
              then range_edges_ o
                   ++ [filtered_edge source_range primary_anchored_to
                         anchor_edge_kind]
              else range_edges_ o))
  /\ (forall o',
        RecordAnchorVName source_range target anchor_edge_kind cl o
        = Done tt o' ->
        o' = set_recorder_ (recorder_ o')
               (set_stderr_ (stderr_ o')
                  (set_deferred_anchors_ (deferred_anchors_ o') o))).
Proof.
  split; [|split].
  - intros E. unfold RecordAnchor, RecordAnchorVName, bind, get.
    by rewrite E.
  - intros o' Run.
    by destruct (RecordAnchor_passes_filter _ _ _ _ _ _ _ Run) as (_ & ? & ?).
  - intros o' Run.
    refine ((_ : returns_in anchor_frame _) _ _ _ Run).
    unfold RecordAnchorVName. repeat returns_auto.
Qed.

(** ** Deferred anchors *)

Lemma RecordRange_deferred o anchor_name range :
  deferring_nodes_ o = true ->
  exists o',
    RecordRange anchor_name range o = Done tt o'
    /\ recorder_ o' = recorder_ o ++ range_facts o anchor_name range
    /\ range ∈ deferred_anchors_ o'
    /\ deferring_nodes_ o' = true
    /\ file_stack_ o' = file_stack_ o
    /\ (range ∈ deferred_anchors_ o -> o' = o).
Proof.
  intros D.
  assert (S : spec (RecordRange anchor_name range) o (fun _ o' =>
            recorder_ o' = recorder_ o ++ range_facts o anchor_name range
            /\ range ∈ deferred_anchors_ o'
            /\ deferring_nodes_ o' = true
            /\ file_stack_ o' = file_stack_ o
            /\ (range ∈ deferred_anchors_ o -> o' = o))).
  { unfold RecordRange, range_facts, anchor_facts, RecordSourceLocation,
      list_set_insert.
    apply spec_bind, spec_get. rewrite D. cbn [negb andb].
    fold (resolved (getBegin (PhysicalRange range))).
    fold (resolved (getEnd (PhysicalRange range))).
    destruct (decide (range ∈ deferred_anchors_ o)) as [In|Nin].
    - rewrite (bool_decide_eq_true_2 (range ∈ deferred_anchors_ o)) by done.
      spec_run. cbn. rewrite app_nil_r. repeat split; try done.
      intros _. by destruct o.
    - rewrite (bool_decide_eq_false_2 (range ∈ deferred_anchors_ o)) by done.
      destruct (bool_decide (Kind range = Implicit)),
        (bool_decide (Kind range = Wraith));
        spec_run; cbn; rewrite <- ?app_assoc;
        (repeat split; try done; set_solver). }
  apply spec_done in S as ([] & o' & Run & P). by exists o'.
Qed.

(** With deferred nodes an anchor is recorded once for as long as the main
    source file stays on the stack.  After [RecordRange] has run for a range,
    running it again changes nothing, also after other files were pushed and
    popped in between; but once the last file is popped the deferred anchors
    are forgotten, and after the next push the facts of the anchor are
    passed to the recorder again. *)
Theorem deferred_anchor_recorded_once_per_main_file o anchor_name range
    blame_location source_location :
  deferring_nodes_ o = true ->
  file_stack_ o <> [] ->
  exists o1,
    RecordRange anchor_name range o = Done tt o1
    /\ RecordRange anchor_name range o1 = Done tt o1
    /\ (exists o2 o3,
          pushFile blame_location source_location o1 = Done tt o2
          /\ popFile o2 = Done tt o3
          /\ RecordRange anchor_name range o3 = Done tt o3)
    /\ (length (file_stack_ o) = 1%nat ->
        exists o2 o3 o4,
          popFile o1 = Done tt o2
          /\ pushFile blame_location source_location o2 = Done tt o3
          /\ RecordRange anchor_name range o3 = Done tt o4
          /\ recorder_ o4 = recorder_ o3 ++ anchor_facts anchor_name range).
Proof.
  intros D Hne.
  destruct (RecordRange_deferred o anchor_name range D)
    as (o1 & Run1 & _ & In1 & D1 & S1 & _).
  exists o1. split; [exact Run1|].
  assert (Again : forall x,
            deferring_nodes_ x = true -> range ∈ deferred_anchors_ x ->
            RecordRange anchor_name range x = Done tt x).
  { intros x Dx Inx.
    destruct (RecordRange_deferred x anchor_name range Dx)
      as (x' & Run & _ & _ & _ & _ & Same).
    by rewrite Run, (Same Inx). }
  split; [by apply Again|]. split.
  - destruct (pushFile_pushes o1 blame_location source_location)
      as (o2 & state & Run2 & S2 & F).
    destruct F as (_ & _ & _ & _ & _ & _ & _ & _ & _ & A2 & F).
    destruct F as (_ & _ & _ & _ & _ & _ & D2 & _).
    eexists o2, _. split; [exact Run2|].
    split; [by apply (popFile_snoc o2 (file_stack_ o1) state)|].
    rewrite decide_False by congruence.
    apply Again; cbn; congruence.
  - intros Hone.
    destruct (file_stack_ o) as [|st [|]] eqn:Es; try done.
    pose proof (popFile_snoc o1 [] st S1) as Run2.
    rewrite decide_True in Run2 by done.
    destruct (pushFile_pushes
                (set_deferred_anchors_ [] (set_file_stack_ [] o1))
                blame_location source_location)
      as (o3 & state & Run3 & _ & F).
    destruct F as (_ & _ & _ & _ & _ & _ & _ & _ & _ & A3 & F).
    destruct F as (_ & _ & _ & _ & _ & _ & D3 & _).
    cbn in A3, D3.
    destruct (RecordRange_deferred o3 anchor_name range)
      as (o4 & Run4 & R4 & _); [congruence|].
    eexists _, o3, o4. split; [exact Run2|]. split; [exact Run3|].
    split; [exact Run4|]. rewrite R4. unfold range_facts.
    rewrite A3. rewrite (bool_decide_eq_false_2 (range ∈ [])) by set_solver.
    by rewrite andb_false_r.
Qed.


(** ** Builtins that are registered *)

(** A registered builtin that was not emitted yet is emitted by the first
    call that asks for it, also in strict mode: the call returns the
    registered node id, passes the kind and the marked source of the node to
    the recorder, logs nothing and marks the entry as emitted.  The next call
    returns the same node id and changes nothing. *)
Theorem registered_builtin_emitted_on_first_use o spelling b :
  builtins_ o !! spelling = Some b ->
  emitted b = false ->
  let ref := VNameRefFromNodeId (node_id b) in
  exists o1,
    getNodeIdForBuiltinType spelling o = Done (node_id b) o1
    /\ o1 = set_recorder_
              (recorder_ o
               ++ [AddNodeKind ref kBuiltin;
                   AddMarkedSourceFact ref (marked_source b)])
              (set_builtins_
                 (<[spelling := mkBuiltin (node_id b) (marked_source b) true]>
                    (builtins_ o)) o)
    /\ getNodeIdForBuiltinType spelling o1 = Done (node_id b) o1.
Proof.
  intros E F ref. eexists. split; [|split; [reflexivity|]].
  - unfold getNodeIdForBuiltinType, bind, get. rewrite E, F. simpl.
    unfold EmitBuiltin, bind, get. rewrite E. simpl.
    rewrite <- app_assoc. reflexivity.
  - unfold getNodeIdForBuiltinType, bind, get. simpl.
    by rewrite lookup_insert_eq.
Qed.

(** Registration adds entries and touches nothing else: every entry of
    before is kept as it is, and a new entry is an unemitted builtin whose
    node id is the uncompressed [name#builtin] under the default token. *)
Definition registry_grows (o o' : KytheGraphObserver) : Prop :=
  o' = set_builtins_ (builtins_ o') o
  /\ (forall name b,
        builtins_ o !! name = Some b -> builtins_ o' !! name = Some b)
  /\ (forall name b,
        builtins_ o' !! name = Some b ->
        builtins_ o !! name = Some b
        \/ (node_id b
            = CreateUncompressed (default_token_ o) (name +:+ "#builtin")
            /\ emitted b = false)).

#[local] Instance registry_grows_preorder : PreOrder registry_grows.
Proof.
  split.
  - intros o. split; [by destruct o|]. split; [done|]. intros. by left.
  - intros o1 o2 o3 (E1 & K1 & N1) (E2 & K2 & N2).
    split; [rewrite E2, E1; by destruct o1|]. split; [by auto|].
    intros name b Hb. destruct (N2 name b Hb) as [Hold|Hnew]; [by auto|].
    right. rewrite E1 in Hnew. by destruct o1.
Qed.

Lemma RegisterBuiltin_grows name marked_source :
  keeps registry_grows (RegisterBuiltin name marked_source).
Proof.
  apply keeps_modify. intros o. split; [by destruct o|].
  cbn [builtins_ set_builtins_]. unfold emplace.
  destruct (builtins_ o !! name) as [old|] eqn:E.
  - split; [done|]. intros. by left.
  - split.
    + intros name' b Hb. rewrite lookup_insert_ne; [done|]. congruence.
    + intros name' b. destruct (decide (name = name')) as [<-|Hne].
      * rewrite lookup_insert_eq. intros [= <-]. by right.
      * rewrite lookup_insert_ne by done. by left.
Qed.

Lemma RegisterBuiltins_grows : keeps registry_grows RegisterBuiltins.
Proof.
  unfold RegisterBuiltins, RegisterTokenBuiltin.
  repeat (apply keeps_bind; [apply _|apply RegisterBuiltin_grows|intros _]).
  apply RegisterBuiltin_grows.
Qed.

(** The spellings [RegisterBuiltins] registers. *)
Definition builtin_spellings : list string :=
  ["void"; "bool"; "_Bool"; "signed char"; "char"; "char16_t"; "char32_t";
   "wchar_t"; "short"; "int"; "long"; "long long"; "unsigned char";
   "unsigned short"; "unsigned int"; "unsigned long"; "unsigned long long";
   "float"; "double"; "long double"; "nullptr_t"; "<dependent type>"; "auto";
   "knrfn"; "__int128"; "unsigned __int128"; "SEL"; "id"; "TypeUnion";
   "const"; "volatile"; "restrict"; "ptr"; "lvr"; "rvr"; "iarr"; "carr";
   "darr"; "fn"; "fnvararg"].

Lemma emplace_is_Some `{Countable K} {V} (k : K) (v : V) (m : gmap K V) :
  is_Some (emplace k v m !! k).
Proof. rewrite emplace_lookup. by eexists. Qed.

Lemma emplace_keeps_is_Some `{Countable K} {V} (k k' : K) (v : V)
    (m : gmap K V) :
  is_Some (m !! k') -> is_Some (emplace k v m !! k').
Proof.
  intros [x Hx]. unfold emplace. destruct (m !! k) eqn:E; [by eexists|].
  destruct (decide (k = k')) as [->|Hne]; [congruence|].
  rewrite lookup_insert_ne by done. by eexists.
Qed.

Lemma emplace_present `{Countable K} {V} (k : K) (v : V) (m : gmap K V) :
  is_Some (m !! k) -> emplace k v m = m.
Proof. intros [x Hx]. unfold emplace. by rewrite Hx. Qed.

Ltac registry_norm :=
  cbv beta iota zeta delta
      [RegisterBuiltins RegisterTokenBuiltin RegisterBuiltin bind modify
       set_builtins_ builtins_ getDefaultClaimToken default_token_
       SourceManager vfs_ client_ claimant_
       FLAGS_fail_on_unimplemented_builtin deferring_nodes_
       drop_redundant_wraiths_ type_token_ starting_context_ meta_
       path_to_context_data_ file_stack_
       transitively_reached_through_header_ recorded_files_
       claim_checked_files_ claimed_file_specific_tokens_
       main_source_file_loc_ main_source_file_token_ deferred_anchors_
       range_edges_ written_namespaces_ written_types_ written_docs_
       recorder_ stderr_].

Lemma RegisterBuiltins_registered o :
  spec RegisterBuiltins o (fun _ o' =>
    Forall (fun name => is_Some (builtins_ o' !! name)) builtin_spellings).
Proof.
  destruct o. unfold spec. registry_norm. unfold builtin_spellings.
  repeat (apply Forall_cons; split;
          [repeat first [apply emplace_is_Some
                        |apply emplace_keeps_is_Some]|]).
  constructor.
Qed.

Lemma RegisterBuiltins_again o :
  Forall (fun name => is_Some (builtins_ o !! name)) builtin_spellings ->
  RegisterBuiltins o = Done tt o.
Proof.
  intros Hall. destruct o. unfold builtin_spellings in Hall.
  repeat match type of Hall with
         | Forall _ (_ :: _) =>
             apply Forall_cons in Hall; destruct Hall as [? Hall]
         end.
  clear Hall. cbn [builtins_] in *. registry_norm.
  repeat match goal with
         | Hk : is_Some (?m !! ?k) |- context [emplace ?k ?v ?m] =>
             rewrite (emplace_present k v m Hk)
         end.
  reflexivity.
Qed.


Lemma RegisterBuiltins_lookup_other o name :
  name ∉ builtin_spellings ->
  spec RegisterBuiltins o (fun _ o' =>
    builtins_ o' !! name = builtins_ o !! name).
Proof.
  intros Hnot. destruct o. unfold spec. registry_norm.
  unfold builtin_spellings in Hnot.
  repeat (rewrite emplace_lookup_ne;
          [|intros <-; apply Hnot;
            repeat first [apply list_elem_of_here
                         |apply list_elem_of_further]]).
  reflexivity.
Qed.

(** [RegisterBuiltins] changes the registry alone, and only by adding to it:
    an entry of before is kept as it is, its [emitted] mark included; each of
    the forty spellings is registered afterwards, a new one as an unemitted
    builtin whose node id is the uncompressed [spelling#builtin] under the
    default token; no other spelling is added; and registering a second time
    changes nothing. *)
Theorem RegisterBuiltins_registry o :
  exists o',
    RegisterBuiltins o = Done tt o'
    /\ o' = set_builtins_ (builtins_ o') o
    /\ (forall name b,
          builtins_ o !! name = Some b -> builtins_ o' !! name = Some b)
    /\ (forall name,
          name ∈ builtin_spellings ->
          exists b,
            builtins_ o' !! name = Some b
            /\ (builtins_ o !! name = None ->
                node_id b
                = CreateUncompressed (default_token_ o)
                    (name +:+ "#builtin")
                /\ emitted b = false))
    /\ (forall name,
          name ∉ builtin_spellings ->
          builtins_ o' !! name = builtins_ o !! name)
    /\ RegisterBuiltins o' = Done tt o'.
Proof.
  destruct (proj1 (spec_done _ _ _) (RegisterBuiltins_grows o))
    as ([] & o' & Run & Eo' & Kept & New).
  destruct (proj1 (spec_done _ _ _) (RegisterBuiltins_registered o))
    as ([] & o_ & Run_ & Hall).
  rewrite Run in Run_. injection Run_ as <-.
  exists o'. split; [exact Run|]. split; [exact Eo'|].
  split; [exact Kept|]. split; [|split].
  - intros name Hname.
    destruct (proj1 (Forall_forall _ _) Hall name Hname) as [b Hb].
    exists b. split; [exact Hb|]. intros Hnone.
    destruct (New name b Hb) as [Hold|Hnew]; [congruence|exact Hnew].
  - intros name Hname.
    destruct (proj1 (spec_done _ _ _)
                (RegisterBuiltins_lookup_other o name Hname))
      as ([] & o_ & Run_ & Hother).
    rewrite Run in Run_. injection Run_ as <-. exact Hother.
  - apply RegisterBuiltins_again. exact Hall.
Qed.




(** ** Union types and type aliases *)

Definition tsigma_facts (id : NodeId) (params : list NodeId) : list Fact :=
  let v := VNameRefFromNodeId id in
  [AddNodeKind v kTSigma] ++ param_edges v params 0 0.

Definition alias_facts (id aliased_type : NodeId)
    (root_aliased_type : option NodeId) (ms : option MarkedSource)
  : list Fact :=
  let v := VNameRefFromNodeId id in
  [AddNodeKind v kTAlias] ++ marked_source_facts v ms
  ++ [AddEdge v kAliases (VNameRefFromNodeId aliased_type)]
  ++ match root_aliased_type with
     | Some root => [AddEdge v kAliasesRoot (VNameRefFromNodeId root)]
     | None => []
     end.

(** Whether the node with the claimed string [key] is written now: always
    without deferred nodes, and when the string is new with them. *)
Definition written_now (o : KytheGraphObserver) (key : string) : bool :=
  negb (deferring_nodes_ o) || bool_decide (key ∉ written_types_ o).

Lemma claim_written_type_now key o :
  spec (claim_written_type key) o (fun emit o' =>
    emit = written_now o key
    /\ o' = set_written_types_
              (if deferring_nodes_ o then {[key]} ∪ written_types_ o
               else written_types_ o) o).
Proof.
  unfold claim_written_type, written_now. apply spec_bind, spec_get.
  destruct (deferring_nodes_ o) eqn:D; simpl.
  - rewrite gset_insert_spec.
    destruct (decide (key ∈ written_types_ o)) as [In|Nin].
    + rewrite bool_decide_eq_false_2 by tauto. spec_run.
      split; [done|]. f_equal. symmetry. apply subseteq_union_1_L.
      by apply singleton_subseteq_l.
    + rewrite bool_decide_eq_true_2 by done. spec_run. done.
  - apply spec_ret. split; [done|]. by destruct o.
Qed.

Lemma written_now_again o key facts :
  written_now
    (set_recorder_ facts
       (set_written_types_
          (if deferring_nodes_ o then {[key]} ∪ written_types_ o
           else written_types_ o) o))
    key
  = negb (deferring_nodes_ o).
Proof.
  unfold written_now. destruct o; cbn. destruct deferring_nodes_0; cbn.
  - rewrite bool_decide_eq_false_2; [done|]. intros Hn. apply Hn.
    apply elem_of_union. left. by apply elem_of_singleton.
  - done.
Qed.

Lemma recordTsigmaNode_spec o params :
  let id := NodeId_ctor (type_token_ o) (tsigma_identity params) in
  spec (recordTsigmaNode params) o (fun a o' =>
    a = id
    /\ o' = set_recorder_
              (recorder_ o
               ++ (if written_now o (ToClaimedString id)
                   then tsigma_facts id params else []))
              (set_written_types_
                 (if deferring_nodes_ o
                  then {[ToClaimedString id]} ∪ written_types_ o
                  else written_types_ o) o)).
Proof.
  intros id. unfold recordTsigmaNode. apply spec_bind, spec_get. fold id.
  apply spec_bind. eapply spec_mono; [apply claim_written_type_now|].
  intros emit o1 (-> & ->). unfold tsigma_facts.
  destruct (written_now o (ToClaimedString id)); unfold when.
  - apply spec_bind. apply spec_bind, spec_record.
    eapply spec_mono; [apply record_param_edges_spec|].
    intros _ o2 ->. apply spec_ret. split; [done|].
    destruct o; cbn. by rewrite <- app_assoc.
  - apply spec_bind, spec_ret. apply spec_ret. split; [done|].
    destruct o; cbn. by rewrite app_nil_r.
Qed.

Lemma param_edges_lookup from params start shift i p :
  params !! i = Some p ->
  AddEdgeOrd from kParam (VNameRefFromNodeId p)
    (wrap unsigned_bits (start + N.of_nat i + shift))
  ∈ param_edges from params start shift.
Proof.
  revert start i. induction params as [|q rest IH]; intros start i Hi.
  - done.
  - destruct i as [|i]; cbn [param_edges lookup list_lookup] in *.
    + injection Hi as ->. change (N.of_nat 0) with 0%N.
      rewrite N.add_0_r. apply list_elem_of_here.
    + apply list_elem_of_further.
      replace (start + N.of_nat (S i))%N
        with (start + 1 + N.of_nat i)%N by lia.
      by apply IH.
Qed.

(** [recordTsigmaNode] returns the node of the type token whose identity is
    [#sigma(], the comma-joined claimed strings of the parameters and [)]:
    the identity a type application of the same parameters has when the
    claimed string of its constructor is [#sigma].  The node is written as
    its kind followed by one [param] edge per parameter, the parameter at
    position [i] with ordinal [i]; with deferred nodes it is written by the
    first call for its claimed string only, without them by every call. *)
Theorem recordTsigmaNode_facts o params :
  let id := NodeId_ctor (type_token_ o) (tsigma_identity params) in
  let first :=
    if written_now o (ToClaimedString id) then tsigma_facts id params
    else [] in
  let again := if deferring_nodes_ o then [] else tsigma_facts id params in
  (exists o1 o2,
     recordTsigmaNode params o = Done id o1
     /\ recorder_ o1 = recorder_ o ++ first
     /\ recordTsigmaNode params o1 = Done id o2
     /\ recorder_ o2 = recorder_ o1 ++ again)
  /\ tsigma_identity params
     = "#sigma(" +:+ String.concat "," (ToClaimedString <$> params) +:+ ")"
  /\ (forall tycon_id,
        ToClaimedString tycon_id = "#sigma" ->
        tapp_identity tycon_id params = tsigma_identity params)
  /\ length (tsigma_facts id params) = S (length params)
  /\ forall i p,
       params !! i = Some p ->
       AddEdgeOrd (VNameRefFromNodeId id) kParam (VNameRefFromNodeId p)
         (wrap unsigned_bits (N.of_nat i))
       ∈ tsigma_facts id params.
Proof.
  intros id first again. split; [|split; [|split; [|split]]].
  - destruct (proj1 (spec_done _ _ _) (recordTsigmaNode_spec o params))
      as (a & o1 & Run1 & -> & Eo1).
    fold id in Eo1.
    destruct (proj1 (spec_done _ _ _) (recordTsigmaNode_spec o1 params))
      as (a & o2 & Run2 & -> & Eo2).
    assert (Et : type_token_ o1 = type_token_ o) by (rewrite Eo1; by destruct o).
    rewrite Et in Run2, Eo2. fold id in Run2, Eo2.
    exists o1, o2. split; [exact Run1|]. split; [by rewrite Eo1|].
    split; [exact Run2|]. rewrite Eo2. cbn [recorder_ set_recorder_].
    f_equal. rewrite Eo1 at 1. rewrite written_now_again.
    unfold again. by destruct (deferring_nodes_ o).
  - unfold tsigma_identity.
    by rewrite append_params_joined, string_app_nil_l, !string_app_assoc.
  - intros tycon_id Ht. unfold tapp_identity, tsigma_identity.
    rewrite Ht, !string_app_nil_l. reflexivity.
  - unfold tsigma_facts. simpl. f_equal.
    generalize 0%N at 1. generalize (VNameRefFromNodeId id).
    induction params as [|p rest IH]; intros v n; simpl; [done|].
    by rewrite IH.
  - intros i p Hi. unfold tsigma_facts. apply list_elem_of_further.
    pose proof (param_edges_lookup (VNameRefFromNodeId id) params 0 0 i p Hi)
      as Hin.
    by rewrite N.add_0_l, N.add_0_r in Hin.
Qed.


Lemma recordTypeAliasNode_spec o alias_name aliased_type root ms :
  let id := nodeIdForTypeAliasNode o alias_name aliased_type in
  spec (recordTypeAliasNode alias_name aliased_type root ms) o (fun a o' =>
    a = id
    /\ o' = set_recorder_
              (recorder_ o
               ++ (if written_now o (ToClaimedString id)
                   then alias_facts id aliased_type root ms else []))
              (set_written_types_
                 (if deferring_nodes_ o
                  then {[ToClaimedString id]} ∪ written_types_ o
                  else written_types_ o) o)).
Proof.
  intros id. unfold recordTypeAliasNode. apply spec_bind, spec_get. fold id.
  apply spec_bind. eapply spec_mono; [apply claim_written_type_now|].
  intros emit o1 (-> & ->). unfold alias_facts, marked_source_facts.
  destruct (written_now o (ToClaimedString id)); unfold when.
  - destruct ms, root; spec_run; (split; [done|]); destruct o; cbn;
      by rewrite <- ?app_assoc.
  - spec_run. split; [done|]. destruct o; cbn. by rewrite app_nil_r.
Qed.

(** The node of a type alias is named by the alias and the aliased type
    alone, so that with deferred nodes the first call for an alias settles
    what is written: a later call for the same alias and aliased type returns
    the same node id and writes nothing, whatever root type and marked source
    it is given (the [aliases/root] edge of a later call is never written).
    Without deferred nodes every call writes its own facts. *)
Theorem recordTypeAliasNode_first_call_wins o alias_name aliased_type
    root1 ms1 root2 ms2 :
  let id := nodeIdForTypeAliasNode o alias_name aliased_type in
  exists o1 o2,
    recordTypeAliasNode alias_name aliased_type root1 ms1 o = Done id o1
    /\ recorder_ o1
       = recorder_ o
         ++ (if written_now o (ToClaimedString id)
             then alias_facts id aliased_type root1 ms1 else [])
    /\ recordTypeAliasNode alias_name aliased_type root2 ms2 o1 = Done id o2
    /\ recorder_ o2
       = recorder_ o1
         ++ (if deferring_nodes_ o then []
             else alias_facts id aliased_type root2 ms2).
Proof.
  intros id.
  destruct (proj1 (spec_done _ _ _)
              (recordTypeAliasNode_spec o alias_name aliased_type root1 ms1))
    as (a & o1 & Run1 & -> & Eo1).
  fold id in Eo1.
  destruct (proj1 (spec_done _ _ _)
              (recordTypeAliasNode_spec o1 alias_name aliased_type root2 ms2))
    as (a & o2 & Run2 & -> & Eo2).
  assert (Ei : nodeIdForTypeAliasNode o1 alias_name aliased_type = id).
  { unfold id, nodeIdForTypeAliasNode. rewrite Eo1. by destruct o. }
  rewrite Ei in Run2, Eo2.
  exists o1, o2. split; [exact Run1|]. split; [by rewrite Eo1|].
  split; [exact Run2|]. rewrite Eo2. cbn [recorder_ set_recorder_].
  f_equal. rewrite Eo1 at 1. rewrite written_now_again.
  by destruct (deferring_nodes_ o).
Qed.


(** ** Anchors and metadata *)

(** Nothing is written to [stderr] and the metadata is as before. *)
Definition quiet (o o' : KytheGraphObserver) : Prop :=
  stderr_ o' = stderr_ o /\ meta_ o' = meta_ o.

#[local] Instance quiet_preorder : PreOrder quiet.
Proof.
  split.
  - intros o. by split.
  - intros o1 o2 o3 [A1 B1] [A2 B2]. split; congruence.
Qed.

Lemma RecordRange_quiet anchor_name range :
  returns_in quiet (RecordRange anchor_name range).
Proof. repeat returns_auto. Qed.

Lemma RecordRange_spec_frame o anchor_name range :
  spec (RecordRange anchor_name range) o (fun _ o' =>
    recorder_ o' = recorder_ o ++ range_facts o anchor_name range
    /\ stderr_ o' = stderr_ o /\ meta_ o' = meta_ o).
Proof.
  pose proof (RecordRange_spec o anchor_name range) as S.
  apply spec_done in S as (a & o' & Run & Rec).
  apply spec_done. exists a, o'. split; [exact Run|]. split; [exact Rec|].
  exact (RecordRange_quiet anchor_name range o a o' Run).
Qed.

(** The part of [RecordAnchor] after the anchoring edge, when no metadata
    applies. *)
Ltac anchor_tail Hno Hmeta :=
  rewrite (bool_decide_eq_true_2 (Unclaimable = Unclaimable)) by done;
  unfold when at 1; apply spec_bind, spec_record;
  lazymatch goal with
  | |- spec (when (bool_decide (Kind ?r = Physical)) _) _ _ =>
      destruct (decide (Kind r = Physical));
      [rewrite (bool_decide_eq_true_2 (Kind r = Physical)) by done
      |rewrite (bool_decide_eq_false_2 (Kind r = Physical)) by done];
      unfold when at 1; [|apply spec_ret]
  end;
  [lazymatch goal with
   | |- spec (when (bool_decide (?k = kDefinesBinding)) _) _ _ =>
       destruct (decide (k = kDefinesBinding));
       [rewrite (bool_decide_eq_true_2 (k = kDefinesBinding)) by done
       |rewrite (bool_decide_eq_false_2 (k = kDefinesBinding)) by done];
       unfold when at 1; [|apply spec_ret]
   end;
   [apply spec_bind, spec_get; cbn [meta_ set_recorder_];
    rewrite ?Hmeta;
    destruct Hno as [Hno|[Hno|Hno]]; [done|done|];
    rewrite Hno, bool_decide_eq_true_2 by done;
    apply spec_ret|]|].

(** Metadata is consulted for definition bindings only.  When the edge kind
    is not [defines/binding], or the range is not Physical, or no metadata
    file is loaded for the file id of the begin of the range, [RecordAnchor]
    passes to the recorder the facts of the anchor (if the range or the target
    is claimed, and subject to deferral) and the anchoring edge, or the edge
    alone for an unclaimed [Unclaimable] anchor, or nothing; and it writes no
    line. *)
Theorem RecordAnchor_without_metadata o source_range primary_anchored_to
    anchor_edge_kind cl anchor_name range_claimed :
  file_stack_ o <> [] ->
  (drop_redundant_wraiths_ o = true ->
   filtered_edge source_range primary_anchored_to anchor_edge_kind
   ∉ range_edges_ o) ->
  VNameFromRange o source_range = inr anchor_name ->
  claimRange o source_range = inr range_claimed ->
  anchor_edge_kind <> kDefinesBinding
  \/ Kind source_range <> Physical
  \/ equal_range (meta_ o) (getFileID (getBegin (PhysicalRange source_range)))
     = [] ->
  let edge :=
    AddEdge anchor_name anchor_edge_kind
      (VNameRefFromNodeId primary_anchored_to) in
  exists o',
    RecordAnchor source_range primary_anchored_to anchor_edge_kind cl o
    = Done tt o'
    /\ recorder_ o'
       = recorder_ o
         ++ (if range_claimed || claimNode primary_anchored_to
             then range_facts o anchor_name source_range ++ [edge]
             else match cl with Claimable => [] | Unclaimable => [edge] end)
    /\ stderr_ o' = stderr_ o.
Proof.
  intros Hstack Hnew Hname Hclaim Hno edge.
  assert (S : spec
            (RecordAnchor source_range primary_anchored_to anchor_edge_kind
               cl) o
            (fun _ o' =>
               recorder_ o'
               = recorder_ o
                 ++ (if range_claimed || claimNode primary_anchored_to
                     then range_facts o anchor_name source_range ++ [edge]
                     else match cl with
                          | Claimable => []
                          | Unclaimable => [edge]
                          end)
               /\ stderr_ o' = stderr_ o)).
  { unfold RecordAnchor. apply spec_bind, spec_get. apply spec_bind.
    apply spec_CHECK; [by rewrite bool_decide_eq_false_2|].
    apply spec_bind. unfold filtered_edge in Hnew.
    destruct (drop_redundant_wraiths_ o) eqn:Drop;
      [unfold list_set_insert; rewrite decide_False by auto;
       apply spec_bind, spec_modify; apply spec_ret; cbn [negb];
       lazymatch goal with
       | |- spec _ ?x _ => set (o1 := x)
       end
      |apply spec_ret; pose (o1 := o);
       lazymatch goal with
       | |- spec ?m o ?Q => change (spec m o1 Q)
       end].
    all: assert (E : VNameFromRange o1 source_range
                     = VNameFromRange o source_range
                     /\ claimRange o1 source_range
                        = claimRange o source_range
                     /\ recorder_ o1 = recorder_ o
                     /\ stderr_ o1 = stderr_ o
                     /\ meta_ o1 = meta_ o
                     /\ range_facts o1 anchor_name source_range
                        = range_facts o anchor_name source_range)
           by (subst o1; by destruct o).
    all: destruct E as (E1 & E2 & E3 & E4 & E5 & E6); clearbody o1.
    all: apply spec_bind, spec_get; rewrite E1, E2, Hname, Hclaim.
    all: apply spec_bind; apply (spec_lift _ anchor_name); [done|].
    all: apply spec_bind; apply (spec_lift _ range_claimed); [done|].
    all: apply spec_bind.
    all: destruct (range_claimed || claimNode primary_anchored_to);
      [apply spec_bind; eapply spec_mono; [apply RecordRange_spec_frame|];
       intros ? o2 (Rec2 & Err2 & Meta2); apply spec_ret;
       rewrite E5 in Meta2;
       anchor_tail Hno Meta2; cbn; rewrite Rec2, Err2, E3, E4, E6;
       by rewrite <- ?app_assoc
      |apply spec_ret; destruct cl;
       [rewrite bool_decide_eq_false_2 by done; apply spec_ret;
        by rewrite app_nil_r, E3, E4
       |anchor_tail Hno E5; cbn; by rewrite E3, E4]]. }
  apply spec_done in S as ([] & o' & Run & P). by exists o'.
Qed.


(** The rules of a metadata file that fire for a binding between two
    offsets: filed under the begin offset, with that begin and that end, and
    with a [defines] or [defines/binding] edge to match. *)
Definition fired_rules (meta : MetadataFile) (range_begin range_end : N)
  : list Rule :=
  filter (fun rule =>
            rule_begin rule = range_begin /\ rule_end rule = range_end
            /\ (edge_in rule = "/kythe/edge/defines"
                \/ edge_in rule = "/kythe/edge/defines/binding"))
    (equal_range (rules meta) range_begin).

(** The edge a fired rule stands for, if its edge kind is known. *)
Definition rule_edge (def : VName) (rule : Rule) : option Fact :=
  edge_kind ← of_spelling (edge_out rule);
  Some (if reverse_edge rule then AddEdge (rule_vname rule) edge_kind def
        else AddEdge def edge_kind (rule_vname rule)).

(** The line written for a fired rule whose edge kind is not known. *)
Definition rule_line (rule : Rule) : option Diagnostic :=
  match of_spelling (edge_out rule) with
  | Some _ => None
  | None => Some (UnknownEdgeKind (edge_out rule))
  end.

Lemma MetaHookDefines_loop (l : list Rule) range_begin range_end def o :
  let fired :=
    filter (fun rule =>
              rule_begin rule = range_begin /\ rule_end rule = range_end
              /\ (edge_in rule = "/kythe/edge/defines"
                  \/ edge_in rule = "/kythe/edge/defines/binding")) l in
  for_each l (fun rule =>
    when (bool_decide (rule_begin rule = range_begin)
          && bool_decide (rule_end rule = range_end)
          && (bool_decide (edge_in rule = "/kythe/edge/defines")
              || bool_decide (edge_in rule = "/kythe/edge/defines/binding")))
      match of_spelling (edge_out rule) with
      | Some edge_kind =>
          if reverse_edge rule
          then record (AddEdge (rule_vname rule) edge_kind def)
          else record (AddEdge def edge_kind (rule_vname rule))
      | None => diagnose (UnknownEdgeKind (edge_out rule))
      end) o
  = Done tt
      (set_recorder_ (recorder_ o ++ omap (rule_edge def) fired)
         (set_stderr_ (stderr_ o ++ omap rule_line fired) o)).
Proof.
  revert o. induction l as [|rule rest IH]; intros o.
  - simpl. rewrite !app_nil_r. by destruct o.
  - cbn [for_each]. unfold bind at 1. rewrite filter_cons.
    destruct (decide (rule_begin rule = range_begin
                      /\ rule_end rule = range_end
                      /\ (edge_in rule = "/kythe/edge/defines"
                          \/ edge_in rule = "/kythe/edge/defines/binding")))
      as [Hfire|Hno].
    + destruct Hfire as (Hb & He & Hin).
      rewrite (bool_decide_eq_true_2 _ Hb), (bool_decide_eq_true_2 _ He).
      assert (Hor : bool_decide (edge_in rule = "/kythe/edge/defines")
                    || bool_decide
                         (edge_in rule = "/kythe/edge/defines/binding")
                    = true).
      { destruct Hin as [Hin|Hin]; rewrite (bool_decide_eq_true_2 _ Hin);
          [done|by rewrite orb_true_r]. }
      rewrite Hor. cbn [andb when omap list_omap].
      unfold rule_edge at 1, rule_line at 1.
      destruct (of_spelling (edge_out rule)) as [edge_kind|]; simpl.
      * destruct (reverse_edge rule); unfold record, modify; rewrite IH;
          destruct o; cbn; by rewrite <- app_assoc.
      * unfold diagnose, modify. rewrite IH. destruct o; cbn.
        by rewrite <- app_assoc.
    + assert (Hcond : bool_decide (rule_begin rule = range_begin)
                      && bool_decide (rule_end rule = range_end)
                      && (bool_decide (edge_in rule = "/kythe/edge/defines")
                          || bool_decide
                               (edge_in rule
                                = "/kythe/edge/defines/binding"))
                      = false).
      { apply not_true_is_false. intros Ht. apply Hno.
        apply andb_prop in Ht as [Ht Hor]. apply andb_prop in Ht as [Hb He].
        apply bool_decide_eq_true_1 in Hb, He. split; [done|].
        split; [done|]. apply orb_prop in Hor as [Hi|Hi];
          apply bool_decide_eq_true_1 in Hi; tauto. }
      rewrite Hcond. cbn [when ret]. apply IH.
Qed.

(** [MetaHookDefines] goes through the rules filed under the begin offset in
    their order and acts on those that fire: a rule with a known edge kind
    gives one edge between the defined node and the name of the rule, from
    the name when the rule is reversed and to it otherwise; a rule with an
    unknown edge kind gives one line and no edge.  The anchor it is given
    plays no part, and nothing else changes. *)
Theorem MetaHookDefines_rules meta anchor range_begin range_end def o :
  let fired := fired_rules meta range_begin range_end in
  exists o',
    MetaHookDefines meta anchor range_begin range_end def o = Done tt o'
    /\ o' = set_recorder_ (recorder_ o ++ omap (rule_edge def) fired)
              (set_stderr_ (stderr_ o ++ omap rule_line fired) o)
    /\ (length (omap (rule_edge def) fired)
        + length (omap rule_line fired))%nat
       = length fired
    /\ forall anchor',
         MetaHookDefines meta anchor' range_begin range_end def o
         = Done tt o'.
Proof.
  intros fired. eexists. split; [|split; [reflexivity|split]].
  - unfold MetaHookDefines. apply MetaHookDefines_loop.
  - clear. induction fired as [|rule rest IH]; [done|].
    cbn [omap list_omap]. unfold rule_edge at 1, rule_line at 1.
    destruct (of_spelling (edge_out rule)); simpl in *; lia.
  - intros anchor'. unfold MetaHookDefines. apply MetaHookDefines_loop.
Qed.


(** ** What [RecordAnchor] passes to the recorder *)

(** The edges of the metadata rules that fire for an anchor: none unless the
    range is Physical and the edge is a definition binding; otherwise, for
    each metadata file loaded for the file id of the begin of the range, in
    order, the edges of its rules that fire between the offsets of the
    resolved begin and end. *)
Definition metadata_edges (o : KytheGraphObserver) (source_range : Range)
    (primary_anchored_to : NodeId) (anchor_edge_kind : EdgeKindID)
  : list Fact :=
  if bool_decide (Kind source_range = Physical)
     && bool_decide (anchor_edge_kind = kDefinesBinding)
  then
    flat_map
      (fun meta =>
         omap (rule_edge (VNameRefFromNodeId primary_anchored_to))
           (fired_rules meta
              (getFileOffset (resolved (getBegin (PhysicalRange source_range))))
              (getFileOffset (resolved (getEnd (PhysicalRange source_range))))))
      (equal_range (meta_ o)
         (getFileID (getBegin (PhysicalRange source_range))))
  else [].

Lemma rule_edge_is_edge def rules :
  Forall is_edge (omap (rule_edge def) rules).
Proof.
  induction rules as [|rule rest IH]; [constructor|].
  cbn [omap list_omap]. unfold rule_edge at 1.
  destruct (of_spelling (edge_out rule)); simpl; [|exact IH].
  constructor; [|exact IH]. by destruct (reverse_edge rule).
Qed.

Lemma metadata_edges_are_edges o source_range primary_anchored_to
    anchor_edge_kind :
  Forall is_edge
    (metadata_edges o source_range primary_anchored_to anchor_edge_kind).
Proof.
  unfold metadata_edges. destruct (_ && _); [|constructor].
  induction (equal_range _ _) as [|meta rest IH]; [constructor|].
  simpl. apply Forall_app. split; [apply rule_edge_is_edge|exact IH].
Qed.

Lemma metadata_hooks_spec o anchor range_begin range_end def
    (metas : list MetadataFile) :
  spec
    (when (negb (bool_decide (metas = [])))
       (for_each metas (fun meta =>
          MetaHookDefines meta anchor range_begin range_end def)))
    o
    (fun _ o' =>
       recorder_ o'
       = recorder_ o
         ++ flat_map
              (fun meta =>
                 omap (rule_edge def)
                   (fired_rules meta range_begin range_end)) metas).
Proof.
  assert (Loop : forall o,
            spec
              (for_each metas (fun meta =>
                 MetaHookDefines meta anchor range_begin range_end def))
              o
              (fun _ o' =>
                 recorder_ o'
                 = recorder_ o
                   ++ flat_map
                        (fun meta =>
                           omap (rule_edge def)
                             (fired_rules meta range_begin range_end))
                        metas)).
  { induction metas as [|meta rest IH]; intros o0.
    - apply spec_ret. by rewrite app_nil_r.
    - cbn [for_each flat_map]. apply spec_bind. unfold spec at 1.
      unfold MetaHookDefines at 1. rewrite MetaHookDefines_loop.
      eapply spec_mono; [apply IH|]. intros _ o2 ->.
      cbn [recorder_ set_recorder_ set_stderr_]. unfold fired_rules.
      destruct o0; cbn. by rewrite <- app_assoc. }
  destruct metas as [|meta rest].
  - rewrite bool_decide_eq_true_2 by done. apply spec_ret.
    by rewrite app_nil_r.
  - rewrite bool_decide_eq_false_2 by done. apply Loop.
Qed.

(** What [RecordAnchor] passes to the recorder once the filter has let the
    edge through and the range has a name. *)
Definition anchor_output (o : KytheGraphObserver) (source_range : Range)
    (primary_anchored_to : NodeId) (anchor_edge_kind : EdgeKindID)
    (cl : Claimability) (anchor_name : VName) (range_claimed : bool)
  : list Fact :=
  let edge :=
    AddEdge anchor_name anchor_edge_kind
      (VNameRefFromNodeId primary_anchored_to) in
  let edges :=
    edge :: metadata_edges o source_range primary_anchored_to
              anchor_edge_kind in
  if range_claimed || claimNode primary_anchored_to
  then range_facts o anchor_name source_range ++ edges
  else match cl with Claimable => [] | Unclaimable => edges end.

(** The part of [RecordAnchor] after the anchoring edge. *)
Ltac anchor_metadata Hmeta :=
  rewrite (bool_decide_eq_true_2 (Unclaimable = Unclaimable)) by done;
  unfold when at 1; apply spec_bind, spec_record;
  unfold metadata_edges;
  lazymatch goal with
  | |- spec (when (bool_decide (Kind ?r = Physical)) _) _ _ =>
      destruct (decide (Kind r = Physical));
      [rewrite !(bool_decide_eq_true_2 (Kind r = Physical)) by done
      |rewrite !(bool_decide_eq_false_2 (Kind r = Physical)) by done];
      unfold when at 1; [|apply spec_ret]
  end;
  [lazymatch goal with
   | |- spec (when (bool_decide (?k = kDefinesBinding)) _) _ _ =>
       destruct (decide (k = kDefinesBinding));
       [rewrite !(bool_decide_eq_true_2 (k = kDefinesBinding)) by done
       |rewrite !(bool_decide_eq_false_2 (k = kDefinesBinding)) by done];
       unfold when at 1; [|apply spec_ret]
   end;
   [apply spec_bind, spec_get; cbn [meta_ set_recorder_];
    rewrite ?Hmeta;
    eapply spec_mono; [apply metadata_hooks_spec|];
    intros ? ? ->|]|];
  cbn [andb].

Lemma RecordAnchor_exact o source_range primary_anchored_to anchor_edge_kind
    cl anchor_name range_claimed :
  file_stack_ o <> [] ->
  (drop_redundant_wraiths_ o = true ->
   filtered_edge source_range primary_anchored_to anchor_edge_kind
   ∉ range_edges_ o) ->
  VNameFromRange o source_range = inr anchor_name ->
  claimRange o source_range = inr range_claimed ->
  emits (RecordAnchor source_range primary_anchored_to anchor_edge_kind cl) o
    (anchor_output o source_range primary_anchored_to anchor_edge_kind cl
       anchor_name range_claimed).
Proof.
  intros Hstack Hnew Hname Hclaim.
  apply spec_done with (Q := fun _ o' => _).
  unfold RecordAnchor, anchor_output. apply spec_bind, spec_get.
  apply spec_bind.
  apply spec_CHECK; [by rewrite bool_decide_eq_false_2|].
  apply spec_bind. unfold filtered_edge in Hnew.
  destruct (drop_redundant_wraiths_ o) eqn:Drop;
    [unfold list_set_insert; rewrite decide_False by auto;
     apply spec_bind, spec_modify; apply spec_ret; cbn [negb];
     lazymatch goal with
     | |- spec _ ?x _ => set (o1 := x)
     end
    |apply spec_ret; pose (o1 := o);
     lazymatch goal with
     | |- spec ?m o ?Q => change (spec m o1 Q)
     end].
  all: assert (E : VNameFromRange o1 source_range
                   = VNameFromRange o source_range
                   /\ claimRange o1 source_range = claimRange o source_range
                   /\ recorder_ o1 = recorder_ o
                   /\ meta_ o1 = meta_ o
                   /\ range_facts o1 anchor_name source_range
                      = range_facts o anchor_name source_range)
         by (subst o1; by destruct o).
  all: destruct E as (E1 & E2 & E3 & E5 & E6); clearbody o1.
  all: apply spec_bind, spec_get; rewrite E1, E2, Hname, Hclaim.
  all: apply spec_bind; apply (spec_lift _ anchor_name); [done|].
  all: apply spec_bind; apply (spec_lift _ range_claimed); [done|].
  all: apply spec_bind.
  all: fold (resolved (getBegin (PhysicalRange source_range)));
    fold (resolved (getEnd (PhysicalRange source_range))).
  all: destruct (range_claimed || claimNode primary_anchored_to);
    [apply spec_bind; eapply spec_mono; [apply RecordRange_spec_frame|];
     intros ? o2 (Rec2 & Err2 & Meta2); apply spec_ret;
     rewrite E5 in Meta2;
     anchor_metadata Meta2; cbn; rewrite ?Rec2, ?E3, ?E6;
     rewrite <- ?app_assoc; try done
    |apply spec_ret; destruct cl;
     [rewrite bool_decide_eq_false_2 by done; apply spec_ret;
      by rewrite app_nil_r, E3
     |anchor_metadata E5; cbn; rewrite ?E3; rewrite <- ?app_assoc;
      try done]].
Qed.


Lemma RecordAnchor_dropped o source_range primary_anchored_to
    anchor_edge_kind cl :
  file_stack_ o <> [] ->
  drop_redundant_wraiths_ o = true ->
  filtered_edge source_range primary_anchored_to anchor_edge_kind
  ∈ range_edges_ o ->
  RecordAnchor source_range primary_anchored_to anchor_edge_kind cl o
  = Done tt o.
Proof.
  intros Hstack Hdrop Hin. unfold filtered_edge in Hin.
  unfold RecordAnchor. unfold bind at 1, get at 1. unfold bind at 1.
  rewrite bool_decide_eq_false_2 by done. cbn [negb CHECK ret].
  unfold bind at 1. rewrite Hdrop. unfold list_set_insert.
  rewrite decide_True by done. rewrite modify_then_ret. cbn [negb].
  unfold ret. by destruct o.
Qed.

Lemma RecordAnchor_nameless o source_range primary_anchored_to
    anchor_edge_kind cl f :
  file_stack_ o <> [] ->
  (drop_redundant_wraiths_ o = true ->
   filtered_edge source_range primary_anchored_to anchor_edge_kind
   ∉ range_edges_ o) ->
  VNameFromRange o source_range = inl f ->
  RecordAnchor source_range primary_anchored_to anchor_edge_kind cl o
  = Stopped f.
Proof.
  intros Hstack Hnew Hname. unfold filtered_edge in Hnew.
  unfold RecordAnchor. unfold bind at 1, get at 1. unfold bind at 1.
  rewrite bool_decide_eq_false_2 by done. cbn [negb CHECK ret].
  unfold bind at 1.
  destruct (drop_redundant_wraiths_ o) eqn:Drop.
  - unfold list_set_insert. rewrite decide_False by auto.
    rewrite modify_then_ret. cbn [negb]. unfold bind at 1, get at 1.
    replace (VNameFromRange (set_range_edges_ _ o) source_range)
      with (VNameFromRange o source_range) by by destruct o.
    rewrite Hname. reflexivity.
  - cbn [ret]. unfold bind at 1, get at 1. rewrite Hname. reflexivity.
Qed.

Lemma RecordAnchorVName_nameless o source_range target anchor_edge_kind cl
    f :
  file_stack_ o <> [] ->
  VNameFromRange o source_range = inl f ->
  RecordAnchorVName source_range target anchor_edge_kind cl o = Stopped f.
Proof.
  intros Hstack Hname.
  unfold RecordAnchorVName. unfold bind at 1, get at 1. unfold bind at 1.
  rewrite bool_decide_eq_false_2 by done. cbn [negb CHECK ret].
  unfold bind at 1. rewrite Hname. reflexivity.
Qed.

Lemma claimRange_returns o range :
  exists range_claimed, claimRange o range = inr range_claimed.
Proof.
  unfold claimRange. destruct (_ && _); [by eexists|].
  rewrite claimLocation_total. by eexists.
Qed.

Lemma VNameFromRange_named o range :
  Kind range = Implicit \/ isValid (getBegin (PhysicalRange range)) = true ->
  exists anchor_name, VNameFromRange o range = inr anchor_name.
Proof.
  intros Hcase. unfold VNameFromRange.
  destruct (bool_decide (Kind range = Implicit)) eqn:K; [by eexists|].
  apply bool_decide_eq_false_1 in K. destruct Hcase as [?|Hv]; [done|].
  rewrite Hv. simpl. by eexists.
Qed.

Lemma VNameFromRange_invalid_begin o range :
  Kind range <> Implicit ->
  isValid (getBegin (PhysicalRange range)) = false ->
  VNameFromRange o range = inl (CheckFailed "begin.isValid()").
Proof.
  intros K Hv. unfold VNameFromRange.
  rewrite bool_decide_eq_false_2 by done. by rewrite Hv.
Qed.

(** C1 (amended): [RecordAnchor], called with a file on the stack.  A call
    that the redundancy filter drops (the flag is set and the edge of the
    same source positions, kind and target was seen before) changes nothing.
    Otherwise a range without a name stops the run, and for a range with a
    name the recorder is passed
    - nothing, when the range and the target node are unclaimed and the
      caller asked for a [Claimable] anchor;
    - the anchoring edge followed by the edges of the metadata rules that
      fire, and no fact of the anchor node, when both are unclaimed and the
      caller asked for an [Unclaimable] anchor;
    - the facts of the anchor node (unless deferred and recorded before),
      then the anchoring edge and the metadata edges, when the range or the
      target node is claimed.
    The metadata edges are edges between the target and the names of the
    rules, and there are none unless the range is Physical and the edge a
    definition binding.  The overload with a name for target is not
    filtered, has no metadata edges and looks at the claim of the range
    alone. *)
Theorem anchor_claim_gating o source_range primary_anchored_to
    anchor_edge_kind cl :
  file_stack_ o <> [] ->
  let metadata :=
    metadata_edges o source_range primary_anchored_to anchor_edge_kind in
  exists range_claimed,
    claimRange o source_range = inr range_claimed
    /\ (if drop_redundant_wraiths_ o
           && bool_decide
                (filtered_edge source_range primary_anchored_to
                   anchor_edge_kind ∈ range_edges_ o)
        then RecordAnchor source_range primary_anchored_to anchor_edge_kind
               cl o
             = Done tt o
        else match VNameFromRange o source_range with
             | inl f =>
                 RecordAnchor source_range primary_anchored_to
                   anchor_edge_kind cl o
                 = Stopped f
             | inr anchor_name =>
                 let edge :=
                   AddEdge anchor_name anchor_edge_kind
                     (VNameRefFromNodeId primary_anchored_to) in
                 emits
                   (RecordAnchor source_range primary_anchored_to
                      anchor_edge_kind cl) o
                   (if range_claimed || claimNode primary_anchored_to
                    then range_facts o anchor_name source_range
                         ++ edge :: metadata
                    else match cl with
                         | Claimable => []
                         | Unclaimable => edge :: metadata
                         end)
             end)
    /\ (forall target,
          match VNameFromRange o source_range with
          | inl f =>
              RecordAnchorVName source_range target anchor_edge_kind cl o
              = Stopped f
          | inr anchor_name =>
              let edge := AddEdge anchor_name anchor_edge_kind target in
              emits
                (RecordAnchorVName source_range target anchor_edge_kind cl) o
                (if range_claimed
                 then range_facts o anchor_name source_range ++ [edge]
                 else match cl with
                      | Claimable => []
                      | Unclaimable => [edge]
                      end)
          end)
    /\ Forall is_edge metadata
    /\ (Kind source_range <> Physical
        \/ anchor_edge_kind <> kDefinesBinding ->
        metadata = []).
Proof.
  intros Hstack metadata.
  destruct (claimRange_returns o source_range) as [range_claimed Hclaim].
  exists range_claimed. split; [exact Hclaim|].
  split; [|split; [|split]].
  - destruct (drop_redundant_wraiths_ o) eqn:Drop; cbn [andb].
    + destruct (decide (filtered_edge source_range primary_anchored_to
                          anchor_edge_kind ∈ range_edges_ o)) as [Hin|Hnew].
      * rewrite bool_decide_eq_true_2 by done.
        by apply RecordAnchor_dropped.
      * rewrite bool_decide_eq_false_2 by done.
        destruct (VNameFromRange o source_range) as [f|anchor_name] eqn:Hname.
        -- apply RecordAnchor_nameless; auto.
        -- apply (RecordAnchor_exact o source_range primary_anchored_to
                    anchor_edge_kind cl anchor_name range_claimed); auto.
    + destruct (VNameFromRange o source_range) as [f|anchor_name] eqn:Hname.
      * apply RecordAnchor_nameless; [done|by rewrite Drop|done].
      * apply (RecordAnchor_exact o source_range primary_anchored_to
                 anchor_edge_kind cl anchor_name range_claimed);
          [done|by rewrite Drop|done|done].
  - intros target.
    destruct (VNameFromRange o source_range) as [f|anchor_name] eqn:Hname.
    + by apply RecordAnchorVName_nameless.
    + by apply RecordAnchorVName_spec.
  - apply metadata_edges_are_edges.
  - intros Hno. unfold metadata, metadata_edges.
    destruct Hno as [Hno|Hno]; rewrite (bool_decide_eq_false_2 _ Hno);
      [done|by rewrite andb_false_r].
Qed.


(** C10 (amended): [claimLocation] answers true for an invalid location and
    for a location whose resolved file id is invalid, and false for a valid
    location in a valid file that is absent from [claim_checked_files_];
    [claimRange] follows it, but for a Wraith with a claimed context.  For an
    anchor that [RecordAnchor] is given with a file on the stack and that the
    redundancy filter lets through, this means:
    - a range that begins at an invalid location stops the run at the check
      of its begin, unless it is Implicit;
    - an Implicit range that begins at an invalid location, and any range
      that begins at a valid location whose resolved file id is invalid,
      passes the gate: the facts of the anchor and the anchoring edge are
      recorded whatever the claim of the target and the claimability asked
      for;
    - a range that begins in a file never pushed is unclaimed unless it is a
      Wraith with a claimed context: its anchor is recorded if that context
      or the target node is claimed, its edge alone if the caller asked for
      an [Unclaimable] anchor, and nothing otherwise. *)
Theorem claimLocation_unresolved_and_unvisited o loc :
  (isValid loc = false -> claimLocation o loc = inr true)
  /\ (FileID_isInvalid (getFileID (resolved loc)) = true ->
      claimLocation o loc = inr true)
  /\ (isValid loc = true ->
      FileID_isInvalid (getFileID (resolved loc)) = false ->
      claim_checked_files_ o !! getFileID (resolved loc) = None ->
      claimLocation o loc = inr false)
  /\ (forall range, getBegin (PhysicalRange range) = loc ->
      isValid loc = false
      \/ FileID_isInvalid (getFileID (resolved loc)) = true ->
      claimRange o range = inr true)
  /\ (forall range, getBegin (PhysicalRange range) = loc ->
      isValid loc = true ->
      FileID_isInvalid (getFileID (resolved loc)) = false ->
      claim_checked_files_ o !! getFileID (resolved loc) = None ->
      claimRange o range =
      inr (bool_decide (Kind range = Wraith) && claimNode (Context range)))
  /\ (forall range target kind cl,
        getBegin (PhysicalRange range) = loc ->
        file_stack_ o <> [] ->
        (drop_redundant_wraiths_ o = true ->
         filtered_edge range target kind ∉ range_edges_ o) ->
        let edges anchor_name :=
          AddEdge anchor_name kind (VNameRefFromNodeId target)
          :: metadata_edges o range target kind in
        (isValid loc = false -> Kind range <> Implicit ->
         RecordAnchor range target kind cl o
         = Stopped (CheckFailed "begin.isValid()"))
        /\ ((isValid loc = false /\ Kind range = Implicit)
            \/ (isValid loc = true
                /\ FileID_isInvalid (getFileID (resolved loc)) = true) ->
            exists anchor_name,
              VNameFromRange o range = inr anchor_name
              /\ emits (RecordAnchor range target kind cl) o
                   (range_facts o anchor_name range ++ edges anchor_name))
        /\ (isValid loc = true ->
            FileID_isInvalid (getFileID (resolved loc)) = false ->
            claim_checked_files_ o !! getFileID (resolved loc) = None ->
            exists anchor_name,
              VNameFromRange o range = inr anchor_name
              /\ emits (RecordAnchor range target kind cl) o
                   (if bool_decide (Kind range = Wraith)
                       && claimNode (Context range)
                       || claimNode target
                    then range_facts o anchor_name range
                         ++ edges anchor_name
                    else match cl with
                         | Claimable => []
                         | Unclaimable => edges anchor_name
                         end))).
Proof.
  assert (A : isValid loc = false -> claimLocation o loc = inr true).
  { intros E. rewrite claimLocation_total, E. done. }
  assert (B : FileID_isInvalid (getFileID (resolved loc)) = true ->
              claimLocation o loc = inr true).
  { intros E. rewrite claimLocation_total, E. by destruct (negb _). }
  assert (C : isValid loc = true ->
              FileID_isInvalid (getFileID (resolved loc)) = false ->
              claim_checked_files_ o !! getFileID (resolved loc) = None ->
              claimLocation o loc = inr false).
  { intros E1 E2 E3. rewrite claimLocation_total, E1, E2, E3. done. }
  assert (D : forall range, getBegin (PhysicalRange range) = loc ->
              isValid loc = false
              \/ FileID_isInvalid (getFileID (resolved loc)) = true ->
              claimRange o range = inr true).
  { intros range <- Hloc. unfold claimRange.
    destruct (_ && _); [done|]. destruct Hloc; auto. }
  assert (E : forall range, getBegin (PhysicalRange range) = loc ->
              isValid loc = true ->
              FileID_isInvalid (getFileID (resolved loc)) = false ->
              claim_checked_files_ o !! getFileID (resolved loc) = None ->
              claimRange o range =
              inr (bool_decide (Kind range = Wraith)
                   && claimNode (Context range))).
  { intros range <- E1 E2 E3. unfold claimRange.
    destruct (_ && _); [done|]. auto. }
  do 5 (split; [assumption|]).
  intros range target kind cl Hbegin Hstack Hnew edges.
  split; [|split].
  - intros Hv K. apply RecordAnchor_nameless; [done..|].
    apply VNameFromRange_invalid_begin; [done|]. by rewrite Hbegin.
  - intros Hcase.
    destruct (VNameFromRange_named o range) as [anchor_name Hname].
    { rewrite Hbegin. destruct Hcase as [[_ ?]|[? _]]; auto. }
    exists anchor_name. split; [exact Hname|].
    pose proof (RecordAnchor_exact o range target kind cl anchor_name true
                  Hstack Hnew Hname) as Hemit.
    unfold anchor_output in Hemit. cbn [orb] in Hemit. apply Hemit.
    apply D; [done|]. destruct Hcase as [[? _]|[_ ?]]; auto.
  - intros E1 E2 E3.
    destruct (VNameFromRange_named o range) as [anchor_name Hname].
    { rewrite Hbegin. auto. }
    exists anchor_name. split; [exact Hname|].
    apply (RecordAnchor_exact o range target kind cl anchor_name
             (bool_decide (Kind range = Wraith) && claimNode (Context range))
             Hstack Hnew Hname).
    by apply E.
Qed.

Lemma emits_then {A B} (m1 : M A) (m2 : M B) o facts :
  spec m1 o (fun _ o1 =>
    recorder_ o1 = recorder_ o ++ facts
    /\ spec m2 o1 (fun _ o2 => recorder_ o2 = recorder_ o1)) ->
  emits m1 o facts /\ emits (bind m1 (fun _ => m2)) o facts.
Proof.
  intros S. apply spec_done in S as (a1 & o1 & R1 & Rec1 & S2).
  apply spec_done in S2 as (a2 & o2 & R2 & Rec2).
  split.
  - by exists a1, o1.
  - exists a2, o2. rewrite (bind_Done _ _ _ _ _ R1). split; [done|].
    by rewrite Rec2.
Qed.

(** C3 (amended): with deferred nodes, the facts that come with a
    namespace, nominal type or type application node are passed to the
    recorder by the first call for its claimed string and by no later call:
    one call, and one call followed by a second with another marked source,
    parent or number of defaults, pass the same facts (none when the node was
    written before).  These facts include the edges written with the node,
    the child-of edge of a nominal type and the param edges of a type
    application, which are therefore those of the first call.
    [recordDocumentationText] called [n + 1] times passes the facts of the
    documentation node once and its [documents] edge [n + 1] times, and [n]
    calls of a function that records one edge between two nodes pass [n]
    edges.  An anchoring edge repeated for the same source positions, kind
    and target is dropped when [drop_redundant_wraiths_] is set. *)
Theorem node_facts_once_edges_each_time
    o node ms ms' name_id nominal_ms nominal_ms' parent parent' tycon_id
    params FirstDefaultParam FirstDefaultParam' documented doc_text doc_links
    from to ordinal conf is_virtual specifier n :
  deferring_nodes_ o = true ->
  (FirstDefaultParam <= N.of_nat (length params))%N ->
  (FirstDefaultParam' <= N.of_nat (length params))%N ->
  let nominal := nodeIdForNominalTypeNode o name_id in
  let tapp := NodeId_ctor (type_token_ o) (tapp_identity tycon_id params) in
  let doc := doc_id_of documented doc_text doc_links in
  let namespace_defs :=
    unless (ToClaimedString node ∈ written_namespaces_ o)
      (namespace_facts node ms) in
  let nominal_defs :=
    unless (ToClaimedString nominal ∈ written_types_ o)
      (nominal_facts nominal nominal_ms parent) in
  let tapp_defs :=
    unless (ToClaimedString tapp ∈ written_types_ o)
      (tapp_facts tapp tycon_id params FirstDefaultParam) in
  let doc_defs :=
    unless (ToClaimedString doc ∈ written_docs_ o)
      (doc_facts doc doc_text doc_links) in
  let edge kind := AddEdge (VNameRefFromNodeId from) kind
                     (VNameRefFromNodeId to) in
  (emits (recordNamespaceNode node ms) o namespace_defs
   /\ emits (bind (recordNamespaceNode node ms)
               (fun _ => recordNamespaceNode node ms')) o namespace_defs)
  /\ (emits (recordNominalTypeNode name_id nominal_ms parent) o nominal_defs
      /\ emits (bind (recordNominalTypeNode name_id nominal_ms parent)
                  (fun _ =>
                     recordNominalTypeNode name_id nominal_ms' parent'))
           o nominal_defs)
  /\ (emits (recordTappNode tycon_id params FirstDefaultParam) o tapp_defs
      /\ emits (bind (recordTappNode tycon_id params FirstDefaultParam)
                  (fun _ =>
                     recordTappNode tycon_id params FirstDefaultParam'))
           o tapp_defs)
  /\ emits (times (S n) (recordDocumentationText documented doc_text doc_links))
       o (doc_defs ++ replicate (S n) (documents_edge doc documented))
  /\ emits (times n (recordParamEdge from ordinal to)) o
       (replicate n (AddEdgeOrd (VNameRefFromNodeId from) kParam
                       (VNameRefFromNodeId to) ordinal))
  /\ emits (times n (recordChildOfEdge from to)) o
       (replicate n (edge kChildOf))
  /\ emits (times n (recordTypeEdge from to)) o (replicate n (edge kHasType))
  /\ emits (times n (recordUpperBoundEdge from to)) o
       (replicate n (edge kBoundedUpper))
  /\ emits (times n (recordSpecEdge from to conf)) o
       (replicate n (edge match conf with
                          | NonSpeculative => kSpecializes
                          | Speculative => kSpecializesSpeculative
                          end))
  /\ emits (times n (recordInstEdge from to conf)) o
       (replicate n (edge match conf with
                          | NonSpeculative => kInstantiates
                          | Speculative => kInstantiatesSpeculative
                          end))
  /\ emits (times n (recordOverridesEdge from to)) o
       (replicate n (edge kOverrides))
  /\ emits (times n (recordOverridesRootEdge from to)) o
       (replicate n (edge kOverridesRoot))
  /\ emits (times n (recordCategoryExtendsEdge from to)) o
       (replicate n (edge kExtendsCategory))
  /\ emits (times n (recordExtendsEdge from to is_virtual specifier)) o
       (replicate n
          (edge match specifier, is_virtual with
                | AS_public, true => kExtendsPublicVirtual
                | AS_public, false => kExtendsPublic
                | AS_protected, true => kExtendsProtectedVirtual
                | AS_protected, false => kExtendsProtected
                | AS_private, true => kExtendsPrivateVirtual
                | AS_private, false => kExtendsPrivate
                | AS_none, true => kExtendsVirtual
                | AS_none, false => kExtends
                end))
  /\ (forall source_range anchor_edge_kind cl1 cl2 o1,
        drop_redundant_wraiths_ o = true ->
        RecordAnchor source_range to anchor_edge_kind cl1 o = Done tt o1 ->
        RecordAnchor source_range to anchor_edge_kind cl2 o1 = Done tt o1).
Proof.
  intros D Hle Hle' nominal tapp doc. unfold unless. cbv zeta.
  split; [|split; [|split;
    [|repeat (match goal with |- _ /\ _ => split end)]]].
  - apply emits_then.
    eapply spec_mono; [apply recordNamespaceNode_spec|].
    intros _ o1 (Rec & In & G). split; [done|].
    eapply spec_mono; [apply recordNamespaceNode_spec|].
    intros _ o2 (Rec2 & _). rewrite decide_True in Rec2 by done.
    by rewrite app_nil_r in Rec2.
  - apply emits_then.
    pose proof (recordNominalTypeNode_spec o name_id nominal_ms parent D) as S.
    cbv zeta in S. eapply spec_mono; [exact S|]. clear S.
    intros _ o1 (_ & Rec & In & G). split; [done|].
    destruct G as (D1 & T1 & _). rewrite D in D1.
    pose proof (recordNominalTypeNode_spec o1 name_id nominal_ms' parent' D1)
      as S.
    cbv zeta in S. unfold nodeIdForNominalTypeNode in S. rewrite T1 in S.
    eapply spec_mono; [exact S|]. clear S.
    intros _ o2 (_ & Rec2 & _).
    unfold nominal, nodeIdForNominalTypeNode in In.
    rewrite decide_True in Rec2 by done.
    by rewrite app_nil_r in Rec2.
  - apply emits_then.
    pose proof (recordTappNode_spec o tycon_id params FirstDefaultParam D Hle)
      as S.
    cbv zeta in S. eapply spec_mono; [exact S|]. clear S.
    intros _ o1 (_ & Rec & In & G). split; [done|].
    destruct G as (D1 & T1 & _). rewrite D in D1.
    pose proof (recordTappNode_spec o1 tycon_id params FirstDefaultParam' D1
                  Hle') as S.
    cbv zeta in S. rewrite T1 in S.
    eapply spec_mono; [exact S|]. clear S.
    intros _ o2 (_ & Rec2 & _). unfold tapp in In.
    rewrite decide_True in Rec2 by done.
    by rewrite app_nil_r in Rec2.
  - pose proof (recordDocumentationText_spec o documented doc_text doc_links)
      as S.
    apply spec_done in S as ([] & o1 & R1 & Rec1 & In1 & _).
    destruct (recordDocumentationText_again n o1 documented doc_text
                doc_links In1) as ([] & o2 & R2 & Rec2).
    exists tt, o2. simpl. rewrite (bind_Done _ _ _ _ _ R1). split; [done|].
    rewrite Rec2, Rec1. by rewrite <- !app_assoc.
  - eexists tt, _. split; [apply times_record|]. reflexivity.
  - eexists tt, _. split; [apply times_record|]. reflexivity.
  - eexists tt, _. split; [apply times_record|]. reflexivity.
  - eexists tt, _. split; [apply times_record|]. reflexivity.
  - destruct conf; eexists tt, _; (split; [apply times_record|reflexivity]).
  - destruct conf; eexists tt, _; (split; [apply times_record|reflexivity]).
  - eexists tt, _. split; [apply times_record|]. reflexivity.
  - eexists tt, _. split; [apply times_record|]. reflexivity.
  - eexists tt, _. split; [apply times_record|]. reflexivity.
  - destruct specifier, is_virtual; eexists tt, _;
      (split; [apply times_record|reflexivity]).
  - intros source_range anchor_edge_kind cl1 cl2 o1 Hdrop Run.
    destruct (RecordAnchor_passes_filter _ _ _ _ _ _ _ Run)
      as (Hs & Ho1 & He).
    rewrite Hdrop in He. cbn [andb] in He.
    apply RecordAnchor_dropped.
    + rewrite Ho1. by destruct o.
    + rewrite Ho1. by destruct o.
    + rewrite He.
      destruct (decide (filtered_edge source_range to anchor_edge_kind
                        ∈ range_edges_ o)).
      * by rewrite bool_decide_eq_false_2 by tauto.
      * rewrite bool_decide_eq_true_2 by done.
        apply elem_of_app. right. apply list_elem_of_here.
Qed.

End Properties.

(** * A sample run

    A small compilation: a shard that owns [main.cc] only indexes [main.cc],
    which includes [lib.h] at offset 20.  The statements above are applied to
    it, and the run shows what the observer does where it departs from the
    written description. *)
Module Sample.

(** The collaborators, in the plainest form that has the right shape: a
    signature longer than 42 characters (or a forced one) is replaced by a
    stand-in digest, a token's identity is [#] and the path of its name. *)
#[local] Instance externals : Externals :=
  {| CompressString s force :=
       if force || (42 <? String.length s)%nat
       then "h" +:+ to_string (N.of_nat (String.length s)) else s;
     token_identity t := "#" +:+ path (vname_ t);
     DecorateVName t v :=
       mkVName (signature v) (corpus (vname_ t)) (root (vname_ t))
         (path (vname_ t)) (language v);
     NameId_ToString n :=
       Path n +:+ "#"
       +:+ match NameEq n with
           | EqNone => "n" | EqUnion => "u" | EqClass => "c" | EqMacro => "m"
           end;
     hash_value s := N.of_nat (String.length s);
     HashToString n := to_string n;
     RelativizePath name dir :=
       String.substring (S (String.length dir))
         (String.length name - S (String.length dir)) name;
     of_spelling s :=
       if bool_decide (s = "/kythe/edge/generates") then Some kGenerates
       else None;
     kIndexerLang := "c++" |}.

Definition main_cc : FileEntry := mkFileEntry "/src/main.cc" (1, 10).
Definition lib_h : FileEntry := mkFileEntry "/src/lib.h" (1, 11).

Definition source_manager : SourceManagerT :=
  {| getFileEntryForID f :=
       if bool_decide (f = 1) then Some main_cc
       else if bool_decide (f = 2) then Some lib_h else None;
     getCharacterData _ := Some "token";
     getLocForEndOfToken l :=
       match l with
       | LocFile f o => LocFile f (o + 5)
       | _ => l
       end;
     getMemoryBufferForFile _ := Some "class C;" |}.

Definition vfs : VFS :=
  {| get_vname _ := None;
     working_directory := "/src";
     get_debug_uid_string u := to_string (snd u) |}.

(** This shard owns [main.cc], under any context. *)
Definition client : ClaimClient :=
  {| Claim _ v := bool_decide (path v = "main.cc") |}.

Definition type_token : KytheClaimToken :=
  mkClaimToken (mkVName "" "corpus" "" "" "") true false.

(** An observer before the first file, working under the context [debug]. *)
Definition initial : KytheGraphObserver :=
  {| SourceManager := source_manager; vfs_ := vfs; client_ := client;
     claimant_ := mkVName "" "corpus" "" "claimant" "";
     FLAGS_fail_on_unimplemented_builtin := false;
     deferring_nodes_ := true; drop_redundant_wraiths_ := false;
     default_token_ := mkClaimToken (mkVName "" "corpus" "" "" "") true false;
     type_token_ := type_token;
     starting_context_ := "debug";
     meta_ := []; path_to_context_data_ := ∅; file_stack_ := [];
     transitively_reached_through_header_ := ∅; recorded_files_ := [];
     claim_checked_files_ := ∅; claimed_file_specific_tokens_ := ∅;
     main_source_file_loc_ := LocInvalid; main_source_file_token_ := None;
     deferred_anchors_ := []; range_edges_ := [];
     written_namespaces_ := ∅; written_types_ := ∅; written_docs_ := ∅;
     builtins_ := ∅; recorder_ := []; stderr_ := [] |}.

(** The observer a member function leaves, or the one it started from when
    the run stops. *)
Definition after {A} (m : M A) (o : KytheGraphObserver) : KytheGraphObserver :=
  match m o with
  | Done _ o' => o'
  | Stopped _ => o
  end.

Definition include_at : SourceLocation := LocFile 1 20.

(** Inside [main.cc], then inside [lib.h] included from it. *)
Definition in_main : KytheGraphObserver :=
  after (pushFile LocInvalid (LocFile 1 0)) initial.
Definition in_header : KytheGraphObserver :=
  after (pushFile include_at (LocFile 2 0)) in_main.

(** A class declared in [lib.h], which another shard owns. *)
Definition header_token : KytheClaimToken :=
  mkClaimToken (mkVName "" "corpus" "" "lib.h" "") false false.
Definition class_C : NodeId := mkNodeId header_token "C#c".
Definition use_of_C : Range :=
  mkRange Physical (mkSourceRange (LocFile 2 6) (LocFile 2 7)) class_C.
Definition anchor_of_use : VName :=
  mkVName "@6:7" "corpus" "" "lib.h" "c++".

(** A use of the same class in [main.cc]. *)
Definition use_in_main : Range :=
  mkRange Physical (mkSourceRange (LocFile 1 30) (LocFile 1 31)) class_C.

(** Two type parameters, the claimed string of the second being the one of
    the first, a comma, and the one of the first again. *)
Definition param_x : NodeId := mkNodeId type_token "x".
Definition param_xx : NodeId := mkNodeId type_token "x#,x".
Definition tycon_f : NodeId := mkNodeId type_token "f".
Definition param_y : NodeId := mkNodeId type_token "y".


Definition main_state : FileState :=
  {| context := "debug";
     vname := mkVName "debug" "corpus" "" "main.cc" "";
     base_vname := mkVName "" "corpus" "" "main.cc" "";
     uid := (1, 10);
     claimed := true |}.

Definition implicit_range : Range :=
  mkRange Implicit (mkSourceRange LocInvalid LocInvalid) class_C.

Definition namespace_std : NodeId := mkNodeId type_token "std#n".

Definition two_pushes : list (SourceLocation * SourceLocation) :=
  [(LocInvalid, LocFile 1 0); (include_at, LocFile 2 0)].

(** The use of [C] in [lib.h] is unclaimed on both counts, and a reference
    recorded as Claimable passes nothing to the recorder. *)
Lemma anchor_claim_gating_witness :
  emits (recordDeclUseLocation use_of_C class_C Claimable) in_header [].
Proof.
  assert (Hs : file_stack_ in_header <> []) by (vm_compute; discriminate).
  destruct (anchor_claim_gating in_header use_of_C class_C kRef Claimable Hs)
    as (range_claimed & Hc & Hmain & _).
  assert (Hrc : range_claimed = false).
  { vm_compute in Hc. by injection Hc as <-. }
  subst range_claimed.
  replace (drop_redundant_wraiths_ in_header) with false in Hmain
    by (vm_compute; reflexivity).
  replace (VNameFromRange in_header use_of_C)
    with (inr anchor_of_use : Checked VName) in Hmain
    by (vm_compute; reflexivity).
  exact Hmain.
Defined.

(** The same use recorded as a completion: the range and the node are
    unclaimed, and the anchoring edge reaches the recorder all the same. *)
Lemma unclaimable_edge_is_emitted :
  claimRange in_header use_of_C = inr false
  /\ claimNode class_C = false
  /\ emits (recordCompletionRange use_of_C class_C Completes) in_header
       [AddEdge anchor_of_use kCompletes (VNameRefFromNodeId class_C)].
Proof.
  split; [|split].
  - vm_compute. reflexivity.
  - reflexivity.
  - eexists tt, _. split; vm_compute; reflexivity.
Qed.

Lemma included_file_context_on_miss_witness :
  exists o' state,
    pushFile include_at (LocFile 2 0) in_main = Done tt o'
    /\ file_stack_ o' = [main_state; state]
    /\ context state = ""
    /\ context state <> context main_state
    /\ stderr_ o' = stderr_ in_main ++ [MissingSourcePath "10" "debug" 20].
Proof.
  apply (included_file_context_on_miss in_main [] main_state include_at
           (LocFile 2 0) lib_h); vm_compute; reflexivity.
Defined.

(** [lib.h] is included from [main.cc], read under the context [debug], and
    the context table has no entry for the inclusion: the context of the new
    file state is empty, not [debug]. *)
Lemma context_on_miss_is_not_the_parent's :
  exists o' parent state,
    pushFile include_at (LocFile 2 0) in_main = Done tt o'
    /\ file_stack_ o' = [parent; state]
    /\ context_entry in_main (uid parent) (context parent)
         (getFileOffset include_at) = None
    /\ context parent = "debug"
    /\ context state = "".
Proof.
  eexists _, _, _. split; [vm_compute; reflexivity|].
  split; [reflexivity|]. split; [|split]; vm_compute; reflexivity.
Qed.

Lemma node_facts_once_edges_each_time_witness :
  emits (bind (recordNamespaceNode namespace_std None)
           (fun _ => recordNamespaceNode namespace_std None))
    in_main
    (unless (ToClaimedString namespace_std ∈ written_namespaces_ in_main)
       (namespace_facts namespace_std None)).
Proof.
  destruct (node_facts_once_edges_each_time in_main namespace_std None None
              (mkNameId "C" EqClass) None None None None tycon_f
              [param_x; param_y] 0 0 class_C "doc" [] param_x param_y 0
              NonSpeculative false AS_public 3) as [[_ E] _].
  - reflexivity.
  - vm_compute. discriminate.
  - vm_compute. discriminate.
  - exact E.
Defined.

Definition nominal_C : VName := mkVName "C#c#t" "corpus" "" "" "c++".

(** Two calls that each write a child-of edge from the nominal type [C] to
    the namespace [std] leave one such edge, and a forward declaration
    followed by the definition with its parent leaves none: an edge written
    with a node is written with the first call for the node or not at all. *)
Lemma nominal_child_edge_written_once :
  emits (bind (recordNominalTypeNode (mkNameId "C" EqClass) None
                 (Some namespace_std))
           (fun _ =>
              recordNominalTypeNode (mkNameId "C" EqClass) None
                (Some namespace_std)))
    in_main
    [AddNodeKind nominal_C kTNominal;
     AddEdge nominal_C kChildOf (VNameRefFromNodeId namespace_std)]
  /\ emits (bind (recordNominalTypeNode (mkNameId "C" EqClass) None None)
              (fun _ =>
                 recordNominalTypeNode (mkNameId "C" EqClass) None
                   (Some namespace_std)))
       in_main
       [AddNodeKind nominal_C kTNominal].
Proof.
  split; eexists _, _; split; vm_compute; reflexivity.
Qed.

Lemma range_name_deterministic_witness :
  AppendRangeToStream in_main "" use_of_C
  = AppendRangeToStream in_header ""
      (mkRange Physical (PhysicalRange use_of_C) param_x)
  /\ VNameFromRange in_main use_of_C
     = VNameFromRange in_header
         (mkRange Physical (PhysicalRange use_of_C) param_x).
Proof.
  destruct (range_name_deterministic in_main in_header use_of_C
              (mkRange Physical (PhysicalRange use_of_C) param_x) "")
    as [E1 E2].
  - vm_compute. repeat split; reflexivity.
  - reflexivity.
  - reflexivity.
  - intros D. discriminate D.
  - split; [exact E1|]. apply E2. intros D. discriminate D.
Defined.

(** Two Implicit ranges of the same kind with the same physical bounds,
    neither of them a Wraith, and with different names: the context counts
    for the name of an Implicit range. *)
Lemma implicit_names_differ_by_context :
  Kind implicit_range
  = Kind (mkRange Implicit (PhysicalRange implicit_range) param_x)
  /\ PhysicalRange implicit_range
     = PhysicalRange (mkRange Implicit (PhysicalRange implicit_range) param_x)
  /\ Kind implicit_range <> Wraith
  /\ VNameFromRange in_main implicit_range
     = inr (mkVName "C#c@syntactic" "corpus" "" "lib.h" "c++")
  /\ VNameFromRange in_main
       (mkRange Implicit (PhysicalRange implicit_range) param_x)
     = inr (mkVName "x@syntactic" "corpus" "" "" "c++").
Proof.
  split; [reflexivity|]. split; [reflexivity|]. split; [discriminate|].
  split; vm_compute; reflexivity.
Qed.

Lemma push_pop_nesting_witness :
  exists o1 o2,
    push_all two_pushes initial = Done tt o1
    /\ length (file_stack_ o1) = length two_pushes
    /\ times (length two_pushes) popFile o1 = Done tt o2
    /\ file_stack_ o2 = []
    /\ deferred_anchors_ o2 = []
    /\ dedup_kept initial o2.
Proof.
  destruct (push_pop_nesting initial two_pushes) as [E _].
  - reflexivity.
  - discriminate.
  - exact E.
Defined.

Lemma tapp_identity_order_sensitive_witness :
  tapp_identity_joined tycon_f [param_x; param_y]
  <> tapp_identity_joined tycon_f [param_y; param_x]
  /\ NodeId_ctor (type_token_ in_main)
       (tapp_identity_joined tycon_f [param_x; param_y])
     <> NodeId_ctor (type_token_ in_main)
          (tapp_identity_joined tycon_f [param_y; param_x])
  /\ tapp_identity_joined tycon_f [param_x; param_xx]
     = tapp_identity_joined tycon_f [param_xx; param_x].
Proof.
  destruct (tapp_identity_order_sensitive in_main tycon_f) as [_ E].
  destruct (E param_x param_y) as (_ & D & N & _).
  destruct (E param_x param_xx) as ([_ Same] & _).
  assert (Hd : tapp_identity_joined tycon_f [param_x; param_y]
               <> tapp_identity_joined tycon_f [param_y; param_x]).
  { apply D.
    - vm_compute. discriminate.
    - vm_compute. reflexivity.
    - vm_compute. reflexivity. }
  split; [exact Hd|]. split.
  - apply N; [exact Hd|]. vm_compute. intros X. exact X.
  - apply Same. vm_compute. reflexivity.
Defined.

(** The claimed strings [x#] and [x#,x#] differ, and [f(x#,x#,x#)] is the
    type application of [f] to them in either order. *)
Lemma tapp_swap_same_NodeId :
  IdentityRef param_x <> IdentityRef param_xx
  /\ ToClaimedString param_x <> ToClaimedString param_xx
  /\ exists id o1 o2,
       recordTappNode tycon_f [param_x; param_xx] 0 in_main = Done id o1
       /\ recordTappNode tycon_f [param_xx; param_x] 0 in_main = Done id o2
       /\ IdentityRef id = "f#(x#,x#,x#)".
Proof.
  split; [vm_compute; discriminate|]. split; [vm_compute; discriminate|].
  eexists _, _, _. split; [vm_compute; reflexivity|].
  split; vm_compute; reflexivity.
Qed.

Lemma nominal_type_identity_stable_witness :
  exists o1' o2',
    recordNominalTypeNode (mkNameId "C" EqClass) None None in_main
    = Done (nodeIdForNominalTypeNode initial (mkNameId "C" EqClass)) o1'
    /\ recordNominalTypeNode (mkNameId "C" EqClass)
         (Some (identifier_source "C")) (Some namespace_std) in_header
       = Done (nodeIdForNominalTypeNode initial (mkNameId "C" EqClass)) o2'.
Proof.
  destruct (nominal_type_identity_stable initial (mkNameId "C" EqClass))
    as [_ E].
  apply E; reflexivity.
Defined.

Lemma VNameFromRange_Implicit_witness :
  VNameFromRange in_header implicit_range
  = inr (mkVName "C#c@syntactic" "corpus" "" "lib.h" "c++").
Proof.
  destruct (VNameFromRange_Implicit in_header implicit_range) as [E _].
  - reflexivity.
  - rewrite E. vm_compute. reflexivity.
Defined.

Lemma unknown_builtin_synthesized_once_witness :
  exists o',
    getNodeIdForBuiltinType "__fp16" initial
    = Done (mkNodeId (default_token_ initial) "__fp16#builtin") o'
    /\ getNodeIdForBuiltinType "__fp16" o'
       = Done (mkNodeId (default_token_ initial) "__fp16#builtin") o'.
Proof.
  destruct (unknown_builtin_synthesized_once initial "__fp16") as (_ & E & _).
  - reflexivity.
  - destruct E as (o' & R1 & _ & _ & _ & _ & R2); [reflexivity|].
    exists o'. split; [exact R1|exact R2].
Defined.

Lemma claimLocation_unresolved_and_unvisited_witness :
  claimLocation in_main LocInvalid = inr true
  /\ claimLocation in_main (LocFile 2 0) = inr false
  /\ exists anchor_name,
       VNameFromRange in_main implicit_range = inr anchor_name
       /\ emits (RecordAnchor implicit_range class_C kRef Claimable) in_main
            (range_facts in_main anchor_name implicit_range
             ++ [AddEdge anchor_name kRef (VNameRefFromNodeId class_C)]).
Proof.
  split; [|split].
  - apply (claimLocation_unresolved_and_unvisited in_main LocInvalid).
    reflexivity.
  - apply (claimLocation_unresolved_and_unvisited in_main (LocFile 2 0));
      vm_compute; reflexivity.
  - destruct (claimLocation_unresolved_and_unvisited in_main LocInvalid)
      as (_ & _ & _ & _ & _ & Gate).
    destruct (Gate implicit_range class_C kRef Claimable) as (_ & Pass & _).
    + reflexivity.
    + vm_compute. discriminate.
    + intros Drop. vm_compute in Drop. discriminate Drop.
    + destruct Pass as (anchor_name & Hname & Hemit).
      * left. split; reflexivity.
      * exists anchor_name. split; [exact Hname|exact Hemit].
Defined.

(** A Physical range between invalid locations. *)
Definition nowhere : Range :=
  mkRange Physical (mkSourceRange LocInvalid LocInvalid) class_C.

(** [claimLocation] grants the invalid location, yet an anchor there never
    reaches the gate: the run stops where the range is named.  And an anchor
    in [lib.h], which was not pushed, is recorded when its target is
    claimed. *)
Lemma anchor_at_invalid_location_stops :
  claimLocation in_main LocInvalid = inr true
  /\ claimRange in_main nowhere = inr true
  /\ RecordAnchor nowhere class_C kRef Claimable in_main
     = Stopped (CheckFailed "begin.isValid()")
  /\ claim_checked_files_ in_main !! 2 = None
  /\ claimRange in_main use_of_C = inr false
  /\ emits (RecordAnchor use_of_C param_x kRef Claimable) in_main
       [AddNodeKind anchor_of_use kAnchor;
        AddPropertyNum anchor_of_use kLocationStartOffset 6;
        AddPropertyNum anchor_of_use kLocationEndOffset 7;
        AddEdge anchor_of_use kRef (VNameRefFromNodeId param_x)].
Proof.
  do 5 (split; [vm_compute; reflexivity|]).
  eexists _, _. split; vm_compute; reflexivity.
Qed.

(** ** Further sample runs *)

(** A use spelled inside a macro that is expanded at the use in [main.cc]. *)
Definition in_macro : SourceLocation :=
  LocMacro 3 5 (LocFile 1 30) (LocFile 2 6).

(** The observer [o] with the redundancy filter switched on. *)
Definition with_filter (o : KytheGraphObserver) : KytheGraphObserver :=
  mkObserver
    (SourceManager o) (vfs_ o) (client_ o) (claimant_ o)
    (FLAGS_fail_on_unimplemented_builtin o) (deferring_nodes_ o) true
    (default_token_ o) (type_token_ o) (starting_context_ o) (meta_ o)
    (path_to_context_data_ o) (file_stack_ o)
    (transitively_reached_through_header_ o) (recorded_files_ o)
    (claim_checked_files_ o) (claimed_file_specific_tokens_ o)
    (main_source_file_loc_ o) (main_source_file_token_ o)
    (deferred_anchors_ o) (range_edges_ o) (written_namespaces_ o)
    (written_types_ o) (written_docs_ o) (builtins_ o) (recorder_ o)
    (stderr_ o).

Definition filtering : KytheGraphObserver := with_filter in_main.

(** The same positions as [use_in_main], as a Wraith in another context. *)
Definition wraith_in_main : Range :=
  mkRange Wraith (PhysicalRange use_in_main) param_x.

(** The file system knows [main.cc] by its path. *)
Definition status (path : string) : option UniqueID :=
  if bool_decide (path = "/src/main.cc") then Some (1, 10) else None.

Definition builtin_int : Builtin :=
  mkBuiltin (mkNodeId (default_token_ initial) "int#builtin")
    (identifier_source "int") false.

Lemma AppendRangeToStream_same_file_witness :
  AppendRangeToStream in_main "" use_in_main = "30corpus/main.cc31@.0".
Proof.
  etrans.
  - apply (AppendRangeToStream_same_file in_main "" Physical 1 30 31 class_C
             main_cc).
    reflexivity.
  - vm_compute. reflexivity.
Defined.


Lemma VNameFromRange_at_expansion_witness :
  VNameFromRange in_main
    (mkRange Physical (mkSourceRange in_macro (LocFile 1 31)) class_C)
  = VNameFromRange in_main use_in_main.
Proof.
  destruct (VNameFromRange_at_expansion in_main Physical in_macro
              (LocFile 1 31) class_C) as [E _].
  - reflexivity.
  - apply E. reflexivity.
Defined.


Lemma pushFile_claim_first_push_wins_witness :
  exists o',
    pushFile include_at (LocFile 2 0) in_main = Done tt o'
    /\ claimLocation o' (LocFile 2 6) = inr false
    /\ claimLocation o' (LocFile 1 30) = claimLocation in_main (LocFile 1 30).
Proof.
  destruct (pushFile_claim_first_push_wins in_main include_at (LocFile 2 0)
              lib_h (LocFile 2 6))
    as (o' & token & Run & Same & Etoken & _); try reflexivity.
  destruct (pushFile_claim_first_push_wins in_main include_at (LocFile 2 0)
              lib_h (LocFile 1 30))
    as (o'' & token' & Run' & _ & _ & Other); try reflexivity.
  rewrite Run in Run'. injection Run' as <-.
  exists o'. split; [exact Run|]. split.
  - destruct (Same eq_refl) as [_ ->]. rewrite Etoken. vm_compute.
    reflexivity.
  - apply Other. vm_compute. discriminate.
Defined.


Lemma pushFile_file_content_once_witness :
  exists o',
    pushFile LocInvalid (LocFile 1 0) initial = Done tt o'
    /\ recorder_ o'
       = [AddFileContent (mkVName "" "corpus" "" "main.cc" "") "class C;"]
    /\ exists o'',
         pushFile include_at (LocFile 1 40) o' = Done tt o''
         /\ recorder_ o'' = recorder_ o'.
Proof.
  destruct (pushFile_file_content_once initial LocInvalid (LocFile 1 0)
              main_cc)
    as (o' & Run & Rec & In & _ & _ & Again); try reflexivity.
  exists o'. split; [exact Run|]. split.
  - rewrite Rec. vm_compute. reflexivity.
  - destruct (Again include_at (LocFile 1 40)) as (o'' & Run' & Rec' & _);
      try reflexivity.
    + apply In. vm_compute. reflexivity.
    + by exists o''.
Defined.


Lemma pushFile_first_file_witness :
  exists o',
    pushFile LocInvalid (LocFile 1 0) initial = Done tt o'
    /\ file_stack_ o' = [main_state]
    /\ main_source_file_loc_ o' = LocFile 1 0
    /\ main_source_file_token_ o' = Some 1.
Proof.
  destruct (pushFile_first_file initial LocInvalid (LocFile 1 0) main_cc)
    as (o' & Run & Stack & _ & _ & Loc & Tok & _); try reflexivity.
  exists o'. split; [exact Run|]. split; [|split; [exact Loc|exact Tok]].
  rewrite Stack. vm_compute. reflexivity.
Defined.


Lemma pushFile_header_marking_witness :
  exists o',
    pushFile include_at (LocFile 2 0) in_main = Done tt o'
    /\ getUniqueID lib_h ∈ transitively_reached_through_header_ o'
    /\ isMainSourceFileRelatedLocation o' (LocFile 2 6) = false
    /\ isMainSourceFileRelatedLocation in_main (LocFile 2 6) = true.
Proof.
  destruct (pushFile_header_marking in_main include_at (LocFile 2 0) lib_h
              (LocFile 2 6))
    as (o' & Run & Mark & _ & Rel); try reflexivity.
  assert (In : getUniqueID lib_h ∈ transitively_reached_through_header_ o').
  { apply Mark. right. exists main_state. split; [vm_compute; reflexivity|].
    right. vm_compute. reflexivity. }
  exists o'. split; [exact Run|]. split; [exact In|]. split.
  - rewrite Rel. apply bool_decide_eq_false_2. intros Hn. by apply Hn.
  - vm_compute. reflexivity.
Defined.


Lemma registered_context_reaches_pushFile_witness :
  exists o1 o2 state,
    AddContextInformation status "/src/main.cc" "debug" 20 "release" in_main
    = Done tt o1
    /\ pushFile include_at (LocFile 2 0) o1 = Done tt o2
    /\ file_stack_ o2 = [main_state; state]
    /\ context state = "release"
    /\ vname state = mkVName "release" "corpus" "" "lib.h" ""
    /\ stderr_ o2 = stderr_ in_main.
Proof.
  destruct (registered_context_reaches_pushFile status "/src/main.cc"
              "release" in_main [] main_state include_at (LocFile 2 0) lib_h)
    as (o1 & o2 & Run1 & Run2 & Stack & Err); try reflexivity.
  eexists o1, o2, _. split; [exact Run1|]. split; [exact Run2|].
  split; [exact Stack|]. split; [reflexivity|].
  split; [vm_compute; reflexivity|exact Err].
Defined.


Lemma pushFile_without_file_entry_witness :
  exists o',
    pushFile include_at (LocFile 7 0) in_main = Done tt o'
    /\ file_stack_ o'
       = file_stack_ in_main
         ++ [mkFileState "" empty_vname empty_vname (0, 0) true]
    /\ o' = set_file_stack_ (file_stack_ o') in_main.
Proof.
  apply (pushFile_without_file_entry in_main include_at (LocFile 7 0)).
  right. right. vm_compute. reflexivity.
Defined.

Lemma RecordAnchor_redundant_edge_dropped_witness :
  RecordAnchor wraith_in_main class_C kRef Unclaimable
    (after (RecordAnchor use_in_main class_C kRef Claimable) filtering)
  = Done tt (after (RecordAnchor use_in_main class_C kRef Claimable) filtering).
Proof.
  apply (RecordAnchor_redundant_edge_dropped filtering
           (after (RecordAnchor use_in_main class_C kRef Claimable) filtering)
           use_in_main wraith_in_main class_C kRef Claimable Unclaimable).
  - reflexivity.
  - vm_compute. reflexivity.
  - reflexivity.
Defined.

Lemma deferred_anchor_recorded_once_per_main_file_witness :
  exists o1,
    RecordRange anchor_of_use use_of_C in_main = Done tt o1
    /\ RecordRange anchor_of_use use_of_C o1 = Done tt o1
    /\ exists o2 o3 o4,
         popFile o1 = Done tt o2
         /\ pushFile LocInvalid (LocFile 1 0) o2 = Done tt o3
         /\ RecordRange anchor_of_use use_of_C o3 = Done tt o4
         /\ recorder_ o4
            = recorder_ o3 ++ anchor_facts anchor_of_use use_of_C.
Proof.
  destruct (deferred_anchor_recorded_once_per_main_file in_main anchor_of_use
              use_of_C LocInvalid (LocFile 1 0))
    as (o1 & Run & Again & _ & Fresh).
  - reflexivity.
  - vm_compute. discriminate.
  - exists o1. split; [exact Run|]. split; [exact Again|].
    apply Fresh. vm_compute. reflexivity.
Defined.

Lemma registered_builtin_emitted_on_first_use_witness :
  exists o1,
    getNodeIdForBuiltinType "int" (after RegisterBuiltins initial)
    = Done (node_id builtin_int) o1
    /\ getNodeIdForBuiltinType "int" o1 = Done (node_id builtin_int) o1.
Proof.
  destruct (registered_builtin_emitted_on_first_use
              (after RegisterBuiltins initial) "int" builtin_int)
    as (o1 & Run & _ & Again).
  - vm_compute. reflexivity.
  - reflexivity.
  - exists o1. split; [exact Run|exact Again].
Defined.


Lemma RecordAnchor_without_metadata_witness :
  exists o',
    RecordAnchor use_of_C class_C kRef Unclaimable in_header = Done tt o'
    /\ recorder_ o'
       = recorder_ in_header
         ++ [AddEdge anchor_of_use kRef (VNameRefFromNodeId class_C)]
    /\ stderr_ o' = stderr_ in_header.
Proof.
  apply (RecordAnchor_without_metadata in_header use_of_C class_C kRef
           Unclaimable anchor_of_use false).
  - vm_compute. discriminate.
  - intros Drop. vm_compute in Drop. discriminate Drop.
  - vm_compute. reflexivity.
  - vm_compute. reflexivity.
  - left. discriminate.
Defined.


End Sample.
